(** * A UTXO block indexer: ledger engine, output ledger and block validator

    Shallow embedding of the TypeScript sources

    - [services/BlockchainService.ts]           module [BlockchainService]
    - [repositories/BlockRepository.ts],
      [repositories/TransactionRepository.ts],
      [repositories/OutputRepository.ts]        modules [BlockRepository],
                                                [TransactionRepository],
                                                [OutputRepository]
    - [db/migrations.ts] (tables, constraints)  modules [BlockRow],
                                                [TransactionRow], [OutputRow],
                                                [Sql]
    - [validators/BlockValidator.ts]            module [BlockValidator]
    - [routes/blockchain.ts] (the rollback
      route and [handleError])                  module [Routes]
    - [errors/index.ts]                         module [Errors]
    - [config/index.ts]                         [Config], [defaultConfig]

    and the properties of the ledger that follow from them.

    Conventions of the embedding.

    - A JavaScript string is the byte string of its UTF-8 encoding
      ([string]); [createHash('sha256')] is SHA-256 as FIPS 180-4 defines it.
    - A JavaScript [number] that is written to an [INTEGER] column (block
      height, output index) is a [Z]; the 32-bit range of the column, below
      which such numbers print in decimal, is not modelled.  A value (column
      [NUMERIC], summed with [+]) is an exact rational [Q]: the rounding of
      IEEE doubles is not part of the model.  In the untyped documents that
      the validator reads every number is a rational.  [parseInt] returns
      the integer that the digits denote, without the rounding to a double
      that sets in above 2^53.
    - A table is the list of its rows in insertion order; a statement that
      violates a constraint fails and changes nothing.
    - An exception is a value of [Errors.error]; an [async] function is a
      computation of the monad [M] over one client connection, on which the
      statements of a transaction run; [this.pool.query] reads the
      committed store.  Interleavings of several connections are not
      modelled. *)

From Stdlib Require Import ZArith QArith Qabs String Ascii List Bool Lia Lqa.
From Stdlib Require Import DecimalString Permutation.
From Stdlib Require DecimalPos.
Import ListNotations.

Set Implicit Arguments.
Set Warnings "-register-all".

(* ================================================================== *)
(** * SHA-256 ([crypto.createHash('sha256')], FIPS 180-4)             *)
(* ================================================================== *)

Module Sha256.
Local Open Scope Z_scope.

Definition word_mod : Z := 2 ^ 32.

(** 32-bit words are integers in [0, 2^32); [wrap] is the wrap-around. *)
Definition wrap (x : Z) : Z := x mod word_mod.

Definition add32 (x y : Z) : Z := wrap (x + y).

Definition rotr (n x : Z) : Z :=
  wrap (Z.lor (Z.shiftr x n) (Z.shiftl x (32 - n))).

Definition shr (n x : Z) : Z := Z.shiftr x n.

Definition not32 (x : Z) : Z := word_mod - 1 - x.

Definition Ch (x y z : Z) : Z := Z.lxor (Z.land x y) (Z.land (not32 x) z).
Definition Maj (x y z : Z) : Z :=
  Z.lxor (Z.lxor (Z.land x y) (Z.land x z)) (Z.land y z).

Definition Sigma0 (x : Z) : Z := Z.lxor (Z.lxor (rotr 2 x) (rotr 13 x)) (rotr 22 x).
Definition Sigma1 (x : Z) : Z := Z.lxor (Z.lxor (rotr 6 x) (rotr 11 x)) (rotr 25 x).
Definition sigma0 (x : Z) : Z := Z.lxor (Z.lxor (rotr 7 x) (rotr 18 x)) (shr 3 x).
Definition sigma1 (x : Z) : Z := Z.lxor (Z.lxor (rotr 17 x) (rotr 19 x)) (shr 10 x).

(** The first [n] primes, by trial division. *)
Definition is_prime (p : Z) : bool :=
  forallb (fun d => negb (p mod Z.of_nat d =? 0)) (seq 2 (Z.to_nat p - 2)).

Definition primes (n : nat) : list Z :=
  firstn n (filter is_prime (map Z.of_nat (seq 2 400))).

(** The integer cube root below [2 ^ bits], found bit by bit. *)
Fixpoint cube_root (bits : nat) (x r : Z) : Z :=
  match bits with
  | O => r
  | S k =>
      let c := r + 2 ^ Z.of_nat k in
      if c * c * c <=? x then cube_root k x c else cube_root k x r
  end.

(** The round constants: the first 32 bits of the fractional parts of the
    cube roots of the first sixty-four primes. *)
Definition K : list Z :=
  Eval vm_compute in
    map (fun p => wrap (cube_root 40 (p * 2 ^ 96) 0)) (primes 64).

(** The eight working variables / the chaining value. *)
Record regs : Type := Regs
  { ra : Z; rb : Z; rc : Z; rd : Z; re : Z; rf : Z; rg : Z; rh : Z }.

(** The initial hash value: the first 32 bits of the fractional parts of
    the square roots of the first eight primes. *)
Definition root_word (p : Z) : Z := wrap (Z.sqrt (p * 2 ^ 64)).

Definition H0 : regs :=
  Eval vm_compute in
    Regs (root_word 2) (root_word 3) (root_word 5) (root_word 7)
         (root_word 11) (root_word 13) (root_word 17) (root_word 19).

(** One round: [w] is the schedule word W_t, [k] the constant K_t. *)
Definition round (r : regs) (k w : Z) : regs :=
  let t1 := add32 (add32 (add32 (add32 (rh r) (Sigma1 (re r))) (Ch (re r) (rf r) (rg r))) k) w in
  let t2 := add32 (Sigma0 (ra r)) (Maj (ra r) (rb r) (rc r)) in
  Regs (add32 t1 t2) (ra r) (rb r) (rc r) (add32 (rd r) t1) (re r) (rf r) (rg r).

(** The message schedule is kept as a sliding window of sixteen words
    [W_t .. W_(t+15)]; the word that enters the window is
    W_(t+16) = sigma1 W_(t+14) + W_(t+9) + sigma0 W_(t+1) + W_t. *)
Definition next_word (win : list Z) : Z :=
  add32 (add32 (add32 (sigma1 (nth 14 win 0)) (nth 9 win 0))
               (sigma0 (nth 1 win 0)))
        (nth 0 win 0).

Fixpoint rounds (ks : list Z) (win : list Z) (r : regs) : regs :=
  match ks with
  | [] => r
  | k :: ks' =>
      rounds ks' (tl win ++ [next_word win]) (round r k (nth 0 win 0))
  end.

Definition compress (h : regs) (block : list Z) : regs :=
  let r := rounds K block h in
  Regs (add32 (ra h) (ra r)) (add32 (rb h) (rb r)) (add32 (rc h) (rc r))
       (add32 (rd h) (rd r)) (add32 (re h) (re r)) (add32 (rf h) (rf r))
       (add32 (rg h) (rg r)) (add32 (rh h) (rh r)).

(** Big-endian packing of bytes into 32-bit words. *)
Fixpoint words_of_bytes (bs : list Z) : list Z :=
  match bs with
  | b0 :: b1 :: b2 :: b3 :: rest =>
      (((b0 * 256 + b1) * 256 + b2) * 256 + b3) :: words_of_bytes rest
  | _ => []
  end.

(** [n] bytes of the big-endian representation of [x]. *)
Fixpoint be_bytes (n : nat) (x : Z) : list Z :=
  match n with
  | O => []
  | S n' => be_bytes n' (x / 256) ++ [x mod 256]
  end.

(** Padding: a 1 bit, zeros up to 56 mod 64 bytes, the bit length on 8 bytes. *)
Definition pad (msg : list Z) : list Z :=
  let len := Z.of_nat (length msg) in
  let zeros := Z.to_nat ((55 - len) mod 64) in
  msg ++ [0x80] ++ repeat 0 zeros ++ be_bytes 8 (8 * len).

(** Absorb the padded message sixteen words at a time. *)
Fixpoint absorb (fuel : nat) (h : regs) (ws : list Z) : regs :=
  match fuel with
  | O => h
  | S fuel' =>
      match ws with
      | [] => h
      | _ => absorb fuel' (compress h (firstn 16 ws)) (skipn 16 ws)
      end
  end.

Definition digest_words (msg : list Z) : regs :=
  let ws := words_of_bytes (pad msg) in
  absorb (length ws) H0 ws.

Definition hex_digit (n : Z) : ascii :=
  if n <? 10 then ascii_of_N (Z.to_N (48 + n)) else ascii_of_N (Z.to_N (87 + n)).

(** The [n] low nibbles of [x], most significant first. *)
Fixpoint hex_of (n : nat) (x : Z) : string :=
  match n with
  | O => EmptyString
  | S n' => (hex_of n' (x / 16) ++ String (hex_digit (x mod 16)) EmptyString)%string
  end.

Definition hex_of_regs (r : regs) : string :=
  (hex_of 8 (ra r) ++ hex_of 8 (rb r) ++ hex_of 8 (rc r) ++ hex_of 8 (rd r) ++
   hex_of 8 (re r) ++ hex_of 8 (rf r) ++ hex_of 8 (rg r) ++ hex_of 8 (rh r))%string.

Definition bytes_of_string (s : string) : list Z :=
  map (fun c => Z.of_N (N_of_ascii c)) (list_ascii_of_string s).

(** [createHash('sha256').update(data).digest('hex')]. *)
Definition sha256_hex (data : string) : string :=
  hex_of_regs (digest_words (bytes_of_string data)).

End Sha256.

(* ================================================================== *)
(** * Errors ([errors/index.ts]) and results                           *)
(* ================================================================== *)

Module Errors.

(** The class of a thrown value.  [PlainError] is JavaScript's [Error]
    (thrown by [markOutputAsSpent] and by the database driver); it is not
    an [AppError]. *)
Inductive error_class : Type :=
  | ValidationError
  | ConflictError
  | PlainError.

(** The exceptions the core throws.  The data interpolated into the
    message is kept as arguments of the constructor. *)
Inductive error : Type :=
  | InvalidHeight (expected actual : Z)
      (* `Invalid height. Expected ${currentHeight + 1}, got ${block.height}` *)
  | InvalidBlockId (expected actual : string)
      (* `Invalid block ID. Expected ${expectedHash}, got ${block.id}` *)
  | InvalidInput (txId : string) (index : Z)
      (* `Input references non-existent output: ${input.txId}:${input.index}` *)
  | DoubleSpend (txId : string) (index : Z)
      (* `Output already spent: ${input.txId}:${input.index}` *)
  | ValueMismatch (inputs outputs : Q)
      (* `Input/Output value mismatch. Inputs: ..., Outputs: ...` *)
  | InvalidHeightParameter
      (* 'Invalid height parameter' thrown by rollback *)
  | FutureHeight (current target : Z)
      (* `Cannot rollback to future height. Current: ..., Target: ...` *)
  | ExcessiveRollback (limit current target : Z)
      (* `Cannot rollback more than ${max} blocks. Current: ..., Target: ...` *)
  | OutputNotSpendable (txId : string) (index : Z)
      (* new Error(`Output ${txId}:${index} not found or already spent`) *)
  | UniqueViolation (table : string)
      (* raised by the store: duplicate key *)
  | ForeignKeyViolation (table : string)
      (* raised by the store: missing referenced row *)
  | SchemaError (message : string).
      (* ValidationError without code, thrown by BlockValidator *)

Definition class_of (e : error) : error_class :=
  match e with
  | InvalidHeight _ _ | InvalidBlockId _ _ | InvalidInput _ _
  | ValueMismatch _ _ | InvalidHeightParameter | FutureHeight _ _
  | ExcessiveRollback _ _ _ | SchemaError _ => ValidationError
  | DoubleSpend _ _ => ConflictError
  | OutputNotSpendable _ _ | UniqueViolation _ | ForeignKeyViolation _ => PlainError
  end.

(** [AppError.code]. *)
Definition code (e : error) : option string :=
  match e with
  | InvalidHeight _ _ => Some "INVALID_HEIGHT"%string
  | InvalidBlockId _ _ => Some "INVALID_BLOCK_ID"%string
  | InvalidInput _ _ => Some "INVALID_INPUT"%string
  | DoubleSpend _ _ => Some "DOUBLE_SPEND"%string
  | ValueMismatch _ _ => Some "VALUE_MISMATCH"%string
  | InvalidHeightParameter => Some "INVALID_HEIGHT"%string
  | FutureHeight _ _ => Some "FUTURE_HEIGHT"%string
  | ExcessiveRollback _ _ _ => Some "EXCESSIVE_ROLLBACK"%string
  | OutputNotSpendable _ _ | UniqueViolation _ | ForeignKeyViolation _
  | SchemaError _ => None
  end.

(** The status [handleError] replies with: [statusCode] of an [AppError]
    (400 for [ValidationError], 409 for [ConflictError]), 500 otherwise. *)
Definition statusCode (e : error) : Z :=
  match class_of e with
  | ValidationError => 400
  | ConflictError => 409
  | PlainError => 500
  end.

Inductive result (A : Type) : Type :=
  | Ok (a : A)
  | Err (e : error).
Arguments Ok {A} a.
Arguments Err {A} e.

Definition is_ok {A} (r : result A) : bool :=
  match r with Ok _ => true | Err _ => false end.

End Errors.
Export Errors.

(* ================================================================== *)
(** * The data model ([types.ts])                                      *)
(* ================================================================== *)

Record Output : Type := mkOutput
  { address : string;
    value : Q }.

Record Input : Type := mkInput
  { txId : string;
    index : Z }.

Module Transaction.
Record t : Type := make
  { id : string;
    inputs : list Input;
    outputs : list Output }.
End Transaction.

Module Block.
Record t : Type := make
  { id : string;
    height : Z;
    transactions : list Transaction.t }.
End Block.

(** [config.blockchain.maxRollbackBlocks], read from the environment. *)
Record Config : Type := mkConfig
  { maxRollbackBlocks : Z }.

(** [parseInt(process.env.MAX_ROLLBACK_BLOCKS || '2000')] without the
    environment variable. *)
Definition defaultConfig : Config := {| maxRollbackBlocks := 2000 |}.

(** Comparison of JavaScript numbers, on rationals. *)
Definition Qlt_bool (x y : Q) : bool := negb (Qle_bool y x).

(* ================================================================== *)
(** * Untrusted JSON values and the structural validator               *)
(* ================================================================== *)

Module Js.

(** A decoded JSON document.  The properties of an object are listed with
    the one that wins first. *)
Inductive value : Type :=
  | Undefined
  | Null
  | Boolean (b : bool)
  | Number (q : Q)
  | Str (s : string)
  | Array (items : list value)
  | Object (props : list (string * value)).

Inductive type_tag : Type :=
  | TUndefined | TObject | TBoolean | TNumber | TString.

(** [typeof v]: [null] and arrays are of type ['object']. *)
Definition typeof (v : value) : type_tag :=
  match v with
  | Undefined => TUndefined
  | Null => TObject
  | Boolean _ => TBoolean
  | Number _ => TNumber
  | Str _ => TString
  | Array _ => TObject
  | Object _ => TObject
  end.

(** [!v] is [negb (truthy v)]. *)
Definition truthy (v : value) : bool :=
  match v with
  | Undefined | Null => false
  | Boolean b => b
  | Number q => negb (Qeq_bool q 0)
  | Str s => negb (String.eqb s EmptyString)
  | Array _ | Object _ => true
  end.

Fixpoint lookup (k : string) (props : list (string * value)) : value :=
  match props with
  | [] => Undefined
  | (k', v) :: rest => if String.eqb k k' then v else lookup k rest
  end.

(** [v.k] for the property names the validator reads; an array has none
    of them. *)
Definition get (v : value) (k : string) : value :=
  match v with
  | Object props => lookup k props
  | _ => Undefined
  end.

(** [v < n] for [v] of type ['number'] (the validator tests the type
    first and [||] does not evaluate the comparison otherwise). *)
Definition lt (v : value) (n : Q) : bool :=
  match v with
  | Number q => Qlt_bool q n
  | _ => false
  end.

Definition is_type (v : value) (t : type_tag) : bool :=
  match typeof v, t with
  | TUndefined, TUndefined | TObject, TObject | TBoolean, TBoolean
  | TNumber, TNumber | TString, TString => true
  | _, _ => false
  end.

(** [parseInt(string)] without a radix (ECMA-262, 19.2.5), on the bytes
    of the string.  [leading_white_space] is the number of bytes of the
    WhiteSpace or LineTerminator code point that the string starts with,
    0 when it starts with none. *)
Fixpoint bytes (s : string) : list N :=
  match s with
  | EmptyString => []
  | String c rest => N_of_ascii c :: bytes rest
  end.

Definition leading_white_space (l : list N) : nat :=
  match l with
  | (9 | 10 | 11 | 12 | 13 | 32)%N :: _ => 1      (* TAB LF VT FF CR SP *)
  | 194%N :: 160%N :: _ => 2                       (* U+00A0 *)
  | 225%N :: 154%N :: 128%N :: _ => 3              (* U+1680 *)
  | 226%N :: 128%N :: b :: _ =>                    (* U+2000-200A, 2028, 2029, 202F *)
      if ((128 <=? b) && (b <=? 138) || (b =? 168) || (b =? 169) || (b =? 175))%N
      then 3 else 0
  | 226%N :: 129%N :: 159%N :: _ => 3              (* U+205F *)
  | 227%N :: 128%N :: 128%N :: _ => 3              (* U+3000 *)
  | 239%N :: 187%N :: 191%N :: _ => 3              (* U+FEFF *)
  | _ => 0
  end.

(** [TrimString(inputString, start)]; every step removes a byte at least,
    so [length l] steps are enough. *)
Fixpoint trim_start (steps : nat) (l : list N) : list N :=
  match steps with
  | O => l
  | S steps' =>
      match leading_white_space l with
      | O => l
      | n => trim_start steps' (skipn n l)
      end
  end.

(** The value of a byte as a digit of the radix, if it is one. *)
Definition digit (radix : Z) (b : N) : option Z :=
  let v := if ((48 <=? b) && (b <=? 57))%N then Some (Z.of_N b - 48)%Z
           else if ((97 <=? b) && (b <=? 122))%N then Some (Z.of_N b - 87)%Z
           else if ((65 <=? b) && (b <=? 90))%N then Some (Z.of_N b - 55)%Z
           else None in
  match v with
  | Some d => if (d <? radix)%Z then Some d else None
  | None => None
  end.

(** The integer that the longest prefix of digits denotes; [acc] is [None]
    as long as no digit was read. *)
Fixpoint digits (radix : Z) (l : list N) (acc : option Z) : option Z :=
  match l with
  | [] => acc
  | b :: rest =>
      match digit radix b with
      | Some d =>
          digits radix rest
            (Some (match acc with Some a => a | None => 0 end * radix + d)%Z)
      | None => acc
      end
  end.

Definition hex_prefix (l : list N) : bool :=
  match l with
  | b0 :: b1 :: _ => ((b0 =? 48) && ((b1 =? 120) || (b1 =? 88)))%N   (* '0x', '0X' *)
  | _ => false
  end.

(** [None] is [NaN]; [-0] is 0. *)
Definition parseInt (s : string) : option Z :=
  let str := trim_start (length (bytes s)) (bytes s) in
  let sign := match str with 45%N :: _ => (-1)%Z | _ => 1%Z end in      (* '-' *)
  let str := match str with (43 | 45)%N :: rest => rest | _ => str end in
  let (radix, str) :=
    if hex_prefix str then (16%Z, skipn 2 str) else (10%Z, str) in
  match digits radix str None with
  | None => None
  | Some mathInt => Some (sign * mathInt)%Z
  end.

End Js.

Module BlockValidator.
Import Js.

(** [items.map(f)] where [f] may throw: the first exception escapes. *)
Fixpoint map_throw (f : value -> result value) (items : list value)
  : result (list value) :=
  match items with
  | [] => Ok []
  | x :: rest =>
      match f x with
      | Err e => Err e
      | Ok y =>
          match map_throw f rest with
          | Err e => Err e
          | Ok ys => Ok (y :: ys)
          end
      end
  end.

Definition validateInputSchema (data : value) : result value :=
  if negb (truthy data) || negb (is_type data TObject) then
    Err (SchemaError "Invalid input data")
  else if negb (is_type (get data "txId") TString) || negb (truthy (get data "txId")) then
    Err (SchemaError "Input txId must be a non-empty string")
  else if negb (is_type (get data "index") TNumber) || lt (get data "index") 0 then
    Err (SchemaError "Input index must be a non-negative number")
  else
    Ok (Object [("txId"%string, get data "txId"); ("index"%string, get data "index")]).

Definition validateOutputSchema (data : value) : result value :=
  if negb (truthy data) || negb (is_type data TObject) then
    Err (SchemaError "Invalid output data")
  else if negb (is_type (get data "address") TString) || negb (truthy (get data "address")) then
    Err (SchemaError "Output address must be a non-empty string")
  else if negb (is_type (get data "value") TNumber) || lt (get data "value") 0 then
    Err (SchemaError "Output value must be a non-negative number")
  else
    Ok (Object [("address"%string, get data "address"); ("value"%string, get data "value")]).

Definition validateTransactionSchema (data : value) : result value :=
  if negb (truthy data) || negb (is_type data TObject) then
    Err (SchemaError "Invalid transaction data")
  else if negb (is_type (get data "id") TString) || negb (truthy (get data "id")) then
    Err (SchemaError "Transaction ID must be a non-empty string")
  else
    match get data "inputs" with
    | Array ins =>
        match get data "outputs" with
        | Array outs =>
            match map_throw validateInputSchema ins with
            | Err e => Err e
            | Ok inputs =>
                match map_throw validateOutputSchema outs with
                | Err e => Err e
                | Ok outputs =>
                    Ok (Object [("id"%string, get data "id");
                                ("inputs"%string, Array inputs);
                                ("outputs"%string, Array outputs)])
                end
            end
        | _ => Err (SchemaError "Transaction outputs must be an array")
        end
    | _ => Err (SchemaError "Transaction inputs must be an array")
    end.

Definition validateBlockSchema (data : value) : result value :=
  if negb (truthy data) || negb (is_type data TObject) then
    Err (SchemaError "Invalid block data")
  else if negb (is_type (get data "id") TString) || negb (truthy (get data "id")) then
    Err (SchemaError "Block ID must be a non-empty string")
  else if negb (is_type (get data "height") TNumber) || lt (get data "height") 1 then
    Err (SchemaError "Block height must be a positive number")
  else
    match get data "transactions" with
    | Array txs =>
        match map_throw validateTransactionSchema txs with
        | Err e => Err e
        | Ok transactions =>
            Ok (Object [("id"%string, get data "id");
                        ("height"%string, get data "height");
                        ("transactions"%string, Array transactions)])
        end
    | _ => Err (SchemaError "Block transactions must be an array")
    end.

(** [height] is the query parameter, a string. *)
Definition validateRollbackHeight (height : string) : result Z :=
  match parseInt height with
  | None => Err (SchemaError "Invalid height parameter")
  | Some parsed =>
      if (parsed <? 0)%Z then Err (SchemaError "Invalid height parameter")
      else Ok parsed
  end.

End BlockValidator.

(* ================================================================== *)
(** * The store: tables, constraints and statements                    *)
(* ================================================================== *)

Module BlockRow.
(** [blocks (id TEXT PRIMARY KEY, height INTEGER UNIQUE NOT NULL)] *)
Record t : Type := make
  { id : string;
    height : Z }.
End BlockRow.

Module TransactionRow.
(** [transactions (id TEXT PRIMARY KEY,
                   block_id TEXT NOT NULL REFERENCES blocks(id) ON DELETE CASCADE)] *)
Record t : Type := make
  { id : string;
    block_id : string }.
End TransactionRow.

Module OutputRow.
(** [outputs (tx_id TEXT NOT NULL REFERENCES transactions(id) ON DELETE CASCADE,
              output_index INTEGER NOT NULL, address TEXT NOT NULL,
              value NUMERIC NOT NULL, spent BOOLEAN DEFAULT FALSE,
              spent_by_tx TEXT, spent_by_index INTEGER,
              UNIQUE(tx_id, output_index))] *)
Record t : Type := make
  { tx_id : string;
    output_index : Z;
    address : string;
    value : Q;
    spent : bool;
    spent_by_tx : option string;
    spent_by_index : option Z }.
End OutputRow.

Record Store : Type := mkStore
  { tbl_blocks : list BlockRow.t;
    tbl_transactions : list TransactionRow.t;
    tbl_outputs : list OutputRow.t }.

Definition empty_store : Store := mkStore [] [] [].

Module Sql.
Local Open Scope Z_scope.

Definition mem (k : string) (l : list string) : bool := existsb (String.eqb k) l.

(** [MAX(col)]: [NULL] over no rows. *)
Definition max (l : list Z) : option Z :=
  match l with
  | [] => None
  | x :: rest => Some (fold_left Z.max rest x)
  end.

(** [SUM(col)]: [NULL] over no rows. *)
Definition sum (l : list Q) : option Q :=
  match l with
  | [] => None
  | x :: rest => Some (fold_left Qplus rest x)
  end.

Definition coalesce {A} (x : option A) (d : A) : A :=
  match x with
  | Some v => v
  | None => d
  end.

(** [ORDER BY height DESC] *)
Fixpoint insert_desc (r : BlockRow.t) (l : list BlockRow.t) : list BlockRow.t :=
  match l with
  | [] => [r]
  | x :: rest =>
      if BlockRow.height x <=? BlockRow.height r then r :: x :: rest
      else x :: insert_desc r rest
  end.

Definition order_by_height_desc (l : list BlockRow.t) : list BlockRow.t :=
  fold_right insert_desc [] l.

Definition output_key (txId : string) (index : Z) (r : OutputRow.t) : bool :=
  String.eqb (OutputRow.tx_id r) txId && (OutputRow.output_index r =? index).

Definition spent_by (txId : string) (r : OutputRow.t) : bool :=
  match OutputRow.spent_by_tx r with
  | Some t => String.eqb t txId
  | None => false
  end.

(** [INSERT INTO blocks (id, height) VALUES ($1, $2)] *)
Definition insert_block (id : string) (height : Z) (s : Store) : result Store :=
  if mem id (map BlockRow.id (tbl_blocks s))
     || existsb (Z.eqb height) (map BlockRow.height (tbl_blocks s))
  then Err (UniqueViolation "blocks")
  else Ok (mkStore (tbl_blocks s ++ [BlockRow.make id height])
                   (tbl_transactions s) (tbl_outputs s)).

(** [INSERT INTO transactions (id, block_id) VALUES ($1, $2)] *)
Definition insert_transaction (id block_id : string) (s : Store) : result Store :=
  if mem id (map TransactionRow.id (tbl_transactions s))
  then Err (UniqueViolation "transactions")
  else if negb (mem block_id (map BlockRow.id (tbl_blocks s)))
  then Err (ForeignKeyViolation "transactions")
  else Ok (mkStore (tbl_blocks s)
                   (tbl_transactions s ++ [TransactionRow.make id block_id])
                   (tbl_outputs s)).

(** [INSERT INTO outputs (tx_id, output_index, address, value, spent)
     VALUES ($1, $2, $3, $4, FALSE)] *)
Definition insert_output (txId : string) (index : Z) (address : string) (value : Q)
    (s : Store) : result Store :=
  if existsb (output_key txId index) (tbl_outputs s)
  then Err (UniqueViolation "outputs")
  else if negb (mem txId (map TransactionRow.id (tbl_transactions s)))
  then Err (ForeignKeyViolation "outputs")
  else Ok (mkStore (tbl_blocks s) (tbl_transactions s)
                   (tbl_outputs s ++
                    [OutputRow.make txId index address value false None None])).

(** [UPDATE outputs SET spent = TRUE, spent_by_tx = $1, spent_by_index = $2
     WHERE tx_id = $3 AND output_index = $4 AND spent = FALSE];
    the second component is [rowCount]. *)
Definition spendable (txId : string) (index : Z) (r : OutputRow.t) : bool :=
  output_key txId index r && negb (OutputRow.spent r).

Definition set_spent (spentByTx : string) (spentByIndex : Z) (r : OutputRow.t)
  : OutputRow.t :=
  OutputRow.make (OutputRow.tx_id r) (OutputRow.output_index r)
                 (OutputRow.address r) (OutputRow.value r)
                 true (Some spentByTx) (Some spentByIndex).

Definition update_spent (spentByTx : string) (spentByIndex : Z)
    (txId : string) (index : Z) (s : Store) : Store * nat :=
  (mkStore (tbl_blocks s) (tbl_transactions s)
           (map (fun r => if spendable txId index r
                          then set_spent spentByTx spentByIndex r else r)
                (tbl_outputs s)),
   length (filter (spendable txId index) (tbl_outputs s))).

(** [UPDATE outputs SET spent = FALSE, spent_by_tx = NULL, spent_by_index = NULL
     WHERE spent_by_tx = $1] *)
Definition set_unspent (r : OutputRow.t) : OutputRow.t :=
  OutputRow.make (OutputRow.tx_id r) (OutputRow.output_index r)
                 (OutputRow.address r) (OutputRow.value r)
                 false None None.

Definition update_unspent (txId : string) (s : Store) : Store :=
  mkStore (tbl_blocks s) (tbl_transactions s)
          (map (fun r => if spent_by txId r then set_unspent r else r)
               (tbl_outputs s)).

(** [DELETE FROM blocks WHERE height > $1], with both [ON DELETE CASCADE]. *)
Definition delete_blocks_above (height : Z) (s : Store) : Store :=
  let gone_blocks :=
    map BlockRow.id (filter (fun b => height <? BlockRow.height b) (tbl_blocks s)) in
  let gone_txs :=
    map TransactionRow.id
        (filter (fun t => mem (TransactionRow.block_id t) gone_blocks)
                (tbl_transactions s)) in
  mkStore (filter (fun b => negb (height <? BlockRow.height b)) (tbl_blocks s))
          (filter (fun t => negb (mem (TransactionRow.block_id t) gone_blocks))
                  (tbl_transactions s))
          (filter (fun o => negb (mem (OutputRow.tx_id o) gone_txs))
                  (tbl_outputs s)).

End Sql.

(* ================================================================== *)
(** * Connections and the monad of the asynchronous code               *)
(* ================================================================== *)

(** One client connection.  [db] is what statements on the client read and
    write; inside a transaction [saved] is the store as it was at [BEGIN],
    which is also what every other connection of the pool still sees. *)
Record conn : Type := mkConn
  { db : Store;
    saved : option Store }.

Definition idle (s : Store) : conn := mkConn s None.

(** The committed store, as [this.pool.query] reads it. *)
Definition committed (c : conn) : Store :=
  match saved c with
  | Some s => s
  | None => db c
  end.

(** An [async] function: it reads and writes the connection and either
    returns or throws. *)
Definition M (A : Type) : Type := conn -> result A * conn.

Definition ret {A} (a : A) : M A := fun c => (Ok a, c).

Definition throw {A} (e : error) : M A := fun c => (Err e, c).

Definition bind {A B} (m : M A) (k : A -> M B) : M B :=
  fun c =>
    match m c with
    | (Ok a, c') => k a c'
    | (Err e, c') => (Err e, c')
    end.

Notation "x <- m ;; k" := (bind m (fun x => k))
  (at level 61, m at next level, right associativity).
Notation "m ;; k" := (bind m (fun _ => k))
  (at level 61, right associativity).

(** [try { m } catch (error) { handler(error) }] *)
Definition try_catch {A} (m : M A) (handler : error -> M A) : M A :=
  fun c =>
    match m c with
    | (Ok a, c') => (Ok a, c')
    | (Err e, c') => handler e c'
    end.

(** [for (const x of l) { await body(x) }] *)
Fixpoint for_each {A} (l : list A) (body : A -> M unit) : M unit :=
  match l with
  | [] => ret tt
  | x :: rest => body x ;; for_each rest body
  end.

(** [for (let i = i0; i < l.length; i++) { await body(i, l[i]) }] *)
Fixpoint for_index {A} (i : Z) (l : list A) (body : Z -> A -> M unit) : M unit :=
  match l with
  | [] => ret tt
  | x :: rest => body i x ;; for_index (i + 1) rest body
  end.

(** A loop that carries the value of a mutable local variable. *)
Fixpoint for_acc {A S} (l : list A) (acc : S) (body : S -> A -> M S) : M S :=
  match l with
  | [] => ret acc
  | x :: rest => acc' <- body acc x ;; for_acc rest acc' body
  end.

Definition pool_query {A} (q : Store -> A) : M A :=
  fun c => (Ok (q (committed c)), c).

Definition client_query {A} (q : Store -> A) : M A :=
  fun c => (Ok (q (db c)), c).

(** A statement that fails leaves the tables as they were. *)
Definition client_exec (stmt : Store -> result Store) : M unit :=
  fun c =>
    match stmt (db c) with
    | Ok s' => (Ok tt, mkConn s' (saved c))
    | Err e => (Err e, c)
    end.

Definition client_update (stmt : Store -> Store * nat) : M nat :=
  fun c => let (s', n) := stmt (db c) in (Ok n, mkConn s' (saved c)).

(** [client.query('BEGIN')], ['COMMIT'], ['ROLLBACK'] *)
Definition query_BEGIN : M unit :=
  fun c =>
    match saved c with
    | None => (Ok tt, mkConn (db c) (Some (db c)))
    | Some _ => (Ok tt, c)
    end.

Definition query_COMMIT : M unit :=
  fun c => (Ok tt, mkConn (db c) None).

Definition query_ROLLBACK : M unit :=
  fun c =>
    match saved c with
    | Some s => (Ok tt, mkConn s None)
    | None => (Ok tt, c)
    end.

(** Run a call on an idle connection; observe the outcome and the
    committed store. *)
Definition run {A} (m : M A) (s : Store) : result A * Store :=
  let (r, c) := m (idle s) in (r, committed c).

(* ================================================================== *)
(** * Repositories                                                     *)
(* ================================================================== *)

Module BlockRepository.
Local Open Scope Z_scope.

(** [SELECT COALESCE(MAX(height), 0) as max_height FROM blocks] *)
Definition currentHeight (s : Store) : Z :=
  Sql.coalesce (Sql.max (map BlockRow.height (tbl_blocks s))) 0.

Definition getCurrentHeight : M Z := pool_query currentHeight.

Definition createBlock (block : Block.t) : M unit :=
  client_exec (Sql.insert_block (Block.id block) (Block.height block)).

Definition deleteBlocksAboveHeight (height : Z) : M unit :=
  client_exec (fun s => Ok (Sql.delete_blocks_above height s)).

(** [SELECT id FROM blocks WHERE height > $1 ORDER BY height DESC] *)
Definition blocksAboveHeight (height : Z) (s : Store) : list string :=
  map BlockRow.id
      (Sql.order_by_height_desc
         (filter (fun b => height <? BlockRow.height b) (tbl_blocks s))).

Definition getBlocksAboveHeight (height : Z) : M (list string) :=
  client_query (blocksAboveHeight height).

(** [SELECT 1 FROM blocks WHERE id = $1]; [result.rows.length > 0] *)
Definition hasBlock (blockId : string) (s : Store) : bool :=
  Nat.ltb 0
    (length (filter (fun b => String.eqb (BlockRow.id b) blockId) (tbl_blocks s))).

Definition blockExists (blockId : string) : M bool := pool_query (hasBlock blockId).

End BlockRepository.

Module TransactionRepository.

Definition createTransaction (transaction : Transaction.t) (blockId : string) : M unit :=
  client_exec (Sql.insert_transaction (Transaction.id transaction) blockId).

(** [SELECT id FROM transactions WHERE block_id = $1] *)
Definition transactionsByBlockId (blockId : string) (s : Store) : list string :=
  map TransactionRow.id
      (filter (fun t => String.eqb (TransactionRow.block_id t) blockId)
              (tbl_transactions s)).

Definition getTransactionsByBlockId (blockId : string) : M (list string) :=
  client_query (transactionsByBlockId blockId).

(** [SELECT 1 FROM transactions WHERE id = $1]; [result.rows.length > 0] *)
Definition hasTransaction (txId : string) (s : Store) : bool :=
  Nat.ltb 0
    (length (filter (fun t => String.eqb (TransactionRow.id t) txId)
                    (tbl_transactions s))).

Definition transactionExists (txId : string) : M bool :=
  pool_query (hasTransaction txId).

End TransactionRepository.

Module OutputRepository.
Local Open Scope Z_scope.

Definition createOutput (txId : string) (index : Z) (output : Output) : M unit :=
  client_exec (Sql.insert_output txId index (address output) (value output)).

(** [SELECT ... FROM outputs WHERE tx_id = $1 AND output_index = $2];
    [null] without a row, else [rows[0]]. *)
Definition findOutput (txId : string) (index : Z) (s : Store) : option OutputRow.t :=
  match filter (Sql.output_key txId index) (tbl_outputs s) with
  | [] => None
  | row :: _ => Some row
  end.

Definition getOutput (txId : string) (index : Z) : M (option OutputRow.t) :=
  pool_query (findOutput txId index).

Definition markOutputAsSpent (txId : string) (index : Z)
    (spentByTx : string) (spentByIndex : Z) : M unit :=
  rowCount <- client_update (Sql.update_spent spentByTx spentByIndex txId index) ;;
  if Nat.eqb rowCount 0 then throw (OutputNotSpendable txId index)
  else ret tt.

Definition unspendOutputsByTransaction (txId : string) : M unit :=
  client_exec (fun s => Ok (Sql.update_unspent txId s)).

(** [SELECT COALESCE(SUM(value), 0) as balance FROM outputs
     WHERE address = $1 AND spent = FALSE] *)
Definition balanceForAddress (addr : string) (s : Store) : Q :=
  Sql.coalesce
    (Sql.sum
       (map OutputRow.value
            (filter (fun r => String.eqb (OutputRow.address r) addr
                              && negb (OutputRow.spent r))
                    (tbl_outputs s))))
    0%Q.


(** [SELECT spent FROM outputs WHERE tx_id = $1 AND output_index = $2];
    [false] without a row, else [rows[0].spent]. *)
Definition outputSpent (txId : string) (index : Z) (s : Store) : bool :=
  match filter (Sql.output_key txId index) (tbl_outputs s) with
  | [] => false
  | row :: _ => OutputRow.spent row
  end.

Definition isOutputSpent (txId : string) (index : Z) : M bool :=
  pool_query (outputSpent txId index).

End OutputRepository.

(* ================================================================== *)
(** * The ledger engine ([services/BlockchainService.ts])              *)
(* ================================================================== *)

Module BlockchainService.
Import BlockRepository TransactionRepository OutputRepository.
Local Open Scope Z_scope.

(** [height.toString()] of an integer. *)
Definition toString (n : Z) : string := NilZero.string_of_int (Z.to_int n).

(** [transactionIds.join('')] *)
Definition join (l : list string) : string := String.concat EmptyString l.

Definition calculateBlockHash (height : Z) (transactionIds : list string) : string :=
  let data := (toString height ++ join transactionIds)%string in
  Sha256.sha256_hex data.

(** The tolerance [0.000001]. *)
Definition tolerance : Q := 1 # 1000000.

Definition validateTransactionBalances (block : Block.t) : M unit :=
  totals <-
    for_acc (Block.transactions block) (0%Q, 0%Q)
      (fun totals tx =>
         totalInputValue <-
           for_acc (Transaction.inputs tx) (fst totals)
             (fun totalInputValue input =>
                output <- getOutput (txId input) (index input) ;;
                match output with
                | None => throw (InvalidInput (txId input) (index input))
                | Some output =>
                    if OutputRow.spent output
                    then throw (DoubleSpend (txId input) (index input))
                    else ret (totalInputValue + OutputRow.value output)%Q
                end) ;;
         let totalOutputValue :=
           fold_left (fun total output => (total + value output)%Q)
                     (Transaction.outputs tx) (snd totals) in
         ret (totalInputValue, totalOutputValue)) ;;
  let (totalInputValue, totalOutputValue) := totals in
  if (1 <? Block.height block)
     && Qlt_bool tolerance (Qabs (totalInputValue - totalOutputValue))
  then throw (ValueMismatch totalInputValue totalOutputValue)
  else ret tt.

Definition validateBlock (block : Block.t) : M unit :=
  currentHeight <- getCurrentHeight ;;
  if negb (Block.height block =? currentHeight + 1) then
    throw (InvalidHeight (currentHeight + 1) (Block.height block))
  else
    let expectedHash :=
      calculateBlockHash (Block.height block)
                         (map Transaction.id (Block.transactions block)) in
    if negb (String.eqb (Block.id block) expectedHash) then
      throw (InvalidBlockId expectedHash (Block.id block))
    else
      validateTransactionBalances block.

Definition processTransaction (tx : Transaction.t) (blockId : string) : M unit :=
  createTransaction tx blockId ;;
  for_index 0 (Transaction.inputs tx)
    (fun i input =>
       markOutputAsSpent (txId input) (index input) (Transaction.id tx) i) ;;
  for_index 0 (Transaction.outputs tx)
    (fun i output => createOutput (Transaction.id tx) i output).

Definition processBlock (block : Block.t) : M unit :=
  validateBlock block ;;
  try_catch
    (query_BEGIN ;;
     createBlock block ;;
     for_each (Block.transactions block)
       (fun tx => processTransaction tx (Block.id block)) ;;
     query_COMMIT)
    (fun error => query_ROLLBACK ;; throw error).


Section WithConfig.
Variable config : Config.

Definition rollback (targetHeight : Z) : M unit :=
  currentHeight <- getCurrentHeight ;;
  if targetHeight <? 0 then
    throw InvalidHeightParameter
  else if currentHeight <? targetHeight then
    throw (FutureHeight currentHeight targetHeight)
  else if maxRollbackBlocks config <? currentHeight - targetHeight then
    throw (ExcessiveRollback (maxRollbackBlocks config) currentHeight targetHeight)
  else
    try_catch
      (query_BEGIN ;;
       blocksToDelete <- getBlocksAboveHeight targetHeight ;;
       for_each blocksToDelete
         (fun blockId =>
            transactions <- getTransactionsByBlockId blockId ;;
            for_each transactions unspendOutputsByTransaction) ;;
       deleteBlocksAboveHeight targetHeight ;;
       query_COMMIT)
      (fun error => query_ROLLBACK ;; throw error).

End WithConfig.

End BlockchainService.

Import BlockRepository TransactionRepository OutputRepository BlockchainService.

(* ================================================================== *)
(** * The rollback route ([routes/blockchain.ts])                      *)
(* ================================================================== *)

Module Routes.
Local Open Scope Z_scope.

(** What a handler sends with [reply.status(status).send(body)]. *)
Inductive body : Type :=
  | Success (height : Z)       (* { success: true, height } *)
  | Failure (e : error)        (* { error: error.message, code: error.code } *)
  | InternalServerError.       (* { error: 'Internal server error' } *)

Record reply : Type := mkReply
  { status : Z;
    sent : body }.

(** [error instanceof AppError] holds of all classes but the plain one. *)
Definition handleError (e : error) : reply :=
  match class_of e with
  | PlainError => mkReply 500 InternalServerError
  | _ => mkReply (statusCode e) (Failure e)
  end.

Section WithConfig.
Variable config : Config.

(** The handler of [POST /rollback]; [height] is [request.query.height]. *)
Definition post_rollback (height : string) : M reply :=
  try_catch
    (match BlockValidator.validateRollbackHeight height with
     | Err e => throw e
     | Ok targetHeight =>
         rollback config targetHeight ;;
         ret (mkReply 200 (Success targetHeight))
     end)
    (fun error => ret (handleError error)).

End WithConfig.

End Routes.

(* ================================================================== *)
(** * What the specification says, in its own words                    *)
(* ================================================================== *)

Module Spec.
Local Open Scope Z_scope.

(** All inputs, and all newly created outputs, of a block in block order. *)
Definition all_inputs (b : Block.t) : list Input :=
  flat_map Transaction.inputs (Block.transactions b).

Definition all_outputs (b : Block.t) : list Output :=
  flat_map Transaction.outputs (Block.transactions b).

(** Input validity: a reference to a non-existent output is a referential
    error, a reference to a spent output is a conflict. *)
Definition input_fault (s : Store) (i : Input) : option error :=
  match findOutput (txId i) (index i) s with
  | None => Some (InvalidInput (txId i) (index i))
  | Some o =>
      if OutputRow.spent o then Some (DoubleSpend (txId i) (index i)) else None
  end.

Fixpoint first_fault (s : Store) (l : list Input) : option error :=
  match l with
  | [] => None
  | i :: rest =>
      match input_fault s i with
      | Some e => Some e
      | None => first_fault s rest
      end
  end.

Definition referenced_value (s : Store) (i : Input) : Q :=
  match findOutput (txId i) (index i) s with
  | Some o => OutputRow.value o
  | None => 0%Q
  end.

(** Sum of all referenced-output values, and of all new output values. *)
Definition total_input_value (s : Store) (b : Block.t) : Q :=
  fold_left (fun acc i => (acc + referenced_value s i)%Q) (all_inputs b) 0%Q.

Definition total_output_value (b : Block.t) : Q :=
  fold_left (fun acc o => (acc + value o)%Q) (all_outputs b) 0%Q.

(** The expected identifier: SHA-256, in hexadecimal, of the decimal
    height followed by the transaction identifiers, nothing in between. *)
Definition expected_id (b : Block.t) : string :=
  Sha256.sha256_hex
    (toString (Block.height b)
     ++ String.concat EmptyString (map Transaction.id (Block.transactions b)))%string.

(** The four ordered checks of block admission. *)
Definition admission_check (s : Store) (b : Block.t) : result unit :=
  if negb (Block.height b =? currentHeight s + 1) then
    Err (InvalidHeight (currentHeight s + 1) (Block.height b))
  else if negb (String.eqb (Block.id b) (expected_id b)) then
    Err (InvalidBlockId (expected_id b) (Block.id b))
  else
    match first_fault s (all_inputs b) with
    | Some e => Err e
    | None =>
        if (1 <? Block.height b)
           && Qlt_bool tolerance
                (Qabs (total_input_value s b - total_output_value b))
        then Err (ValueMismatch (total_input_value s b) (total_output_value b))
        else Ok tt
    end.



(** The unspent-output set of the ledger. *)
Definition unspent_set (s : Store) : list OutputRow.t :=
  filter (fun r => negb (OutputRow.spent r)) (tbl_outputs s).




(** What the structural validator guarantees of the values it lets in. *)
Definition nonneg_outputs (b : Block.t) : Prop :=
  forall o, In o (all_outputs b) -> (0 <= value o)%Q.

(** Admit the blocks of a list one after the other; [None] as soon as one
    is refused. *)
Fixpoint admit_all (bs : list Block.t) (s : Store) : option Store :=
  match bs with
  | [] => Some s
  | b :: rest =>
      match run (processBlock b) s with
      | (Ok _, s') => admit_all rest s'
      | (Err _, _) => None
      end
  end.

End Spec.
Import Spec.

(* ================================================================== *)
(** * The ledger invariant and the reachable ledgers                   *)
(* ================================================================== *)

Section Ledger.
Local Open Scope Z_scope.

Definition block_ids (s : Store) : list string := map BlockRow.id (tbl_blocks s).
Definition heights (s : Store) : list Z := map BlockRow.height (tbl_blocks s).
Definition tx_ids (s : Store) : list string :=
  map TransactionRow.id (tbl_transactions s).
Definition out_key (r : OutputRow.t) : string * Z :=
  (OutputRow.tx_id r, OutputRow.output_index r).

Record Inv (s : Store) : Prop := mkInv
  { (* transactions.block_id REFERENCES blocks(id) *)
    inv_fk_tx : forall t, In t (tbl_transactions s) ->
                  In (TransactionRow.block_id t) (block_ids s);
    (* outputs.tx_id REFERENCES transactions(id) *)
    inv_fk_out : forall o, In o (tbl_outputs s) -> In (OutputRow.tx_id o) (tx_ids s);
    (* UNIQUE(tx_id, output_index) *)
    inv_uq_out : NoDup (map out_key (tbl_outputs s));
    (* a spent output names a stored transaction as its spender *)
    inv_spender : forall o, In o (tbl_outputs s) -> OutputRow.spent o = true ->
                    exists t, OutputRow.spent_by_tx o = Some t /\ In t (tx_ids s);
    (* an unspent output has no spender reference *)
    inv_unspent : forall o, In o (tbl_outputs s) -> OutputRow.spent o = false ->
                    OutputRow.spent_by_tx o = None /\ OutputRow.spent_by_index o = None;
    (* the heights present are exactly 1..currentHeight *)
    inv_contig : forall h, In h (heights s) <-> 1 <= h <= currentHeight s;
    (* values are non-negative *)
    inv_nonneg : forall o, In o (tbl_outputs s) -> (0 <= OutputRow.value o)%Q }.

Variable config : Config.

(** Ledgers that the service builds from the empty store by submissions
    of structurally valid blocks and by rollbacks, whatever their outcome. *)
Inductive reachable : Store -> Prop :=
  | reach_empty : reachable empty_store
  | reach_block s b r s' :
      reachable s -> nonneg_outputs b ->
      run (processBlock b) s = (r, s') -> reachable s'
  | reach_rollback s t r s' :
      reachable s ->
      run (rollback config t) s = (r, s') -> reachable s'.

End Ledger.

(* ================================================================== *)
(** * Notions used in the statements and in the proofs                 *)
(* ================================================================== *)

Section Notions.
Local Open Scope Z_scope.

(** [triple P m Q E]: from a connection satisfying [P], [m] either
    returns [a] in a connection satisfying [Q a], or throws [e] in a
    connection satisfying [E e]. *)
Definition triple {A} (P : conn -> Prop) (m : M A)
    (Q : A -> conn -> Prop) (E : error -> conn -> Prop) : Prop :=
  forall c, P c ->
    match m c with
    | (Ok a, c') => Q a c'
    | (Err e, c') => E e c'
    end.

(** Inside a transaction begun at [s0], with tables satisfying [I]. *)
Definition in_tx (s0 : Store) (I : Store -> Prop) : conn -> Prop :=
  fun c => saved c = Some s0 /\ I (db c).

(** An exception satisfying [E] escaped inside that transaction. *)
Definition failing (s0 : Store) (E : error -> Prop) : error -> conn -> Prop :=
  fun e c => saved c = Some s0 /\ E e.

Definition spent_by_any (L : list string) (r : OutputRow.t) : bool :=
  match OutputRow.spent_by_tx r with
  | Some t => Sql.mem t L
  | None => false
  end.

(** The outputs after [unspendOutputsByTransaction] for every id of [L]. *)
Definition unspend_many (L : list string) (outs : list OutputRow.t)
  : list OutputRow.t :=
  map (fun r => if spent_by_any L r then Sql.set_unspent r else r) outs.

(** The transactions the two nested loops of [rollback] visit. *)
Definition visited_transactions (t : Z) (s : Store) : list string :=
  flat_map (fun blockId => transactionsByBlockId blockId s)
           (blocksAboveHeight t s).

Definition rolled_back (t : Z) (s : Store) : Store :=
  Sql.delete_blocks_above t
    (mkStore (tbl_blocks s) (tbl_transactions s)
             (unspend_many (visited_transactions t s) (tbl_outputs s))).

(** The blocks and transactions that [DELETE ... CASCADE] removes. *)
Definition gone_blocks (t : Z) (s : Store) : list string :=
  map BlockRow.id (filter (fun b => t <? BlockRow.height b) (tbl_blocks s)).

Definition gone_transactions (t : Z) (s : Store) : list string :=
  map TransactionRow.id
      (filter (fun x => Sql.mem (TransactionRow.block_id x) (gone_blocks t s))
              (tbl_transactions s)).

(** An old output is either untouched or was unspent and is now marked
    spent by one of the new transactions. *)
Definition marked_by (new_ids : list string) (o o' : OutputRow.t) : Prop :=
  o' = o \/
  (OutputRow.spent o = false /\
   exists spender si, In spender new_ids /\ o' = Sql.set_spent spender si o).

(** The tables of [s'] after the transactions [done] of block [b] were
    applied to [s]. *)
Definition applied (s : Store) (b : Block.t) (done : list Transaction.t)
    (s' : Store) : Prop :=
  exists olds news,
    tbl_blocks s' = tbl_blocks s ++ [BlockRow.make (Block.id b) (Block.height b)] /\
    ~ In (Block.id b) (block_ids s) /\
    tbl_transactions s' =
      tbl_transactions s ++
      map (fun tx => TransactionRow.make (Transaction.id tx) (Block.id b)) done /\
    (forall tx, In tx done -> ~ In (Transaction.id tx) (tx_ids s)) /\
    tbl_outputs s' = olds ++ news /\
    Forall2 (marked_by (map Transaction.id done)) (tbl_outputs s) olds /\
    (forall n, In n news -> In (OutputRow.tx_id n) (map Transaction.id done)).

(** A number is an integer when its reduced denominator is one. *)
Definition is_integer (q : Q) : bool := Pos.eqb (Qden (Qred q)) 1.

(** [Block], [Transaction], [Input] and [Output] are TypeScript types: the
    route passes the validated document to [processBlock] as it is.  The
    document is a [Block.t] when its height and indexes are integers. *)
Fixpoint map_option {A B} (f : A -> option B) (l : list A) : option (list B) :=
  match l with
  | [] => Some []
  | x :: rest =>
      match f x, map_option f rest with
      | Some y, Some ys => Some (y :: ys)
      | _, _ => None
      end
  end.

Definition output_of_js (v : Js.value) : option Output :=
  match Js.get v "address", Js.get v "value" with
  | Js.Str a, Js.Number q => Some (mkOutput a q)
  | _, _ => None
  end.

Definition input_of_js (v : Js.value) : option Input :=
  match Js.get v "txId", Js.get v "index" with
  | Js.Str t, Js.Number i =>
      if is_integer i then Some (mkInput t (Qnum (Qred i))) else None
  | _, _ => None
  end.

Definition transaction_of_js (v : Js.value) : option Transaction.t :=
  match Js.get v "id", Js.get v "inputs", Js.get v "outputs" with
  | Js.Str id, Js.Array ins, Js.Array outs =>
      match map_option input_of_js ins, map_option output_of_js outs with
      | Some inputs, Some outputs => Some (Transaction.make id inputs outputs)
      | _, _ => None
      end
  | _, _, _ => None
  end.

Definition block_of_js (v : Js.value) : option Block.t :=
  match Js.get v "id", Js.get v "height", Js.get v "transactions" with
  | Js.Str id, Js.Number h, Js.Array txs =>
      if is_integer h then
        match map_option transaction_of_js txs with
        | Some transactions => Some (Block.make id (Qnum (Qred h)) transactions)
        | None => None
        end
      else None
  | _, _, _ => None
  end.









(** The row that [createOutput] inserts for the [k]-th output of [tx]. *)
Definition created_row (tx : Transaction.t) (k : nat) (o : Output) : OutputRow.t :=
  OutputRow.make (Transaction.id tx) (Z.of_nat k) (address o) (value o)
                 false None None.

(** The outputs [outs] of [tx] are in the table as they were created. *)
Definition created (tx : Transaction.t) (outs : list Output) (x : Store) : Prop :=
  forall k o, nth_error outs k = Some o -> In (created_row tx k o) (tbl_outputs x).

(** The rows of [s] that the inputs [ins] of [tx] reference are in the
    table, marked as spent by [tx] at the position of the input. *)
Definition marked (s : Store) (tx : Transaction.t) (ins : list Input) (x : Store)
  : Prop :=
  forall k inp, nth_error ins k = Some inp ->
    exists r0, findOutput (txId inp) (index inp) s = Some r0 /\
               In (Sql.set_spent (Transaction.id tx) (Z.of_nat k) r0) (tbl_outputs x).

Definition referenced_by (ins : list Input) (r : OutputRow.t) : Prop :=
  exists inp, In inp ins /\ out_key r = (txId inp, index inp).

(** Every row of [s] is in the table, as it was or, if one of [ins]
    references it, marked as spent. *)
Definition carried (s : Store) (ins : list Input) (x : Store) : Prop :=
  NoDup (map out_key (tbl_outputs x)) /\
  incl (tx_ids s) (tx_ids x) /\
  forall r0, In r0 (tbl_outputs s) ->
    In r0 (tbl_outputs x) \/
    (referenced_by ins r0 /\
     exists sp k, In (Sql.set_spent sp k r0) (tbl_outputs x)).

Definition settled (s : Store) (tx : Transaction.t)
    (ins : list Input) (outs : list Output) (x : Store) : Prop :=
  ~ In (Transaction.id tx) (tx_ids s) /\ marked s tx ins x /\ created tx outs x.

(** The table between two transactions of a block, and inside one. *)
Definition posted (s : Store) (done : list Transaction.t) (x : Store) : Prop :=
  carried s (flat_map Transaction.inputs done) x /\
  forall tx, In tx done ->
    settled s tx (Transaction.inputs tx) (Transaction.outputs tx) x.

Definition posting (s : Store) (done : list Transaction.t) (tx : Transaction.t)
    (seen : list Input) (made : list Output) (x : Store) : Prop :=
  carried s (flat_map Transaction.inputs done ++ seen) x /\
  (forall tx', In tx' done ->
     settled s tx' (Transaction.inputs tx') (Transaction.outputs tx') x) /\
  settled s tx seen made x.

(** The primary keys and the [UNIQUE] constraint on heights. *)
Record Keyed (s : Store) : Prop := mkKeyed
  { key_block_ids : NoDup (block_ids s);
    key_heights : NoDup (heights s);
    key_tx_ids : NoDup (tx_ids s) }.

Section Referenced.
Variables (t : string) (i : Z).

(** After the first mark of [(t, i)]: a row of that key exists and every
    such row is spent. *)
Definition consumed (s : Store) : Prop :=
  (exists r, In r (tbl_outputs s) /\ Sql.output_key t i r = true) /\
  (forall r, In r (tbl_outputs s) -> Sql.output_key t i r = true ->
             OutputRow.spent r = true).



End Referenced.

End Notions.

(* ================================================================== *)
(** * The data of the documented scenario                              *)
(* ================================================================== *)

Section Scenario_data.
Local Open Scope Z_scope.

(** Genesis: [tx1] creates 100 for [addr1]. *)
Definition genesis : Block.t :=
  Block.make (calculateBlockHash 1 ["tx1"%string]) 1
    [Transaction.make "tx1" [] [mkOutput "addr1" 100]].

(** Block 2: [tx2] spends [tx1:0] into 40 for [addr2] and 60 for [addr3]. *)
Definition block2 : Block.t :=
  Block.make (calculateBlockHash 2 ["tx2"%string]) 2
    [Transaction.make "tx2" [mkInput "tx1" 0]
       [mkOutput "addr2" 40; mkOutput "addr3" 60]].


(** A block 2 that references [tx1:0] twice and balances with the value
    counted twice. *)
Definition block2_twice : Block.t :=
  Block.make (calculateBlockHash 2 ["tx2"%string]) 2
    [Transaction.make "tx2" [mkInput "tx1" 0; mkInput "tx1" 0]
       [mkOutput "addr2" 200]].

(** A block 3 that spends [tx1:0] again. *)
Definition block3_respend : Block.t :=
  Block.make (calculateBlockHash 3 ["tx3"%string]) 3
    [Transaction.make "tx3" [mkInput "tx1" 0] [mkOutput "addr4" 100]].

(** A block 2 whose transaction takes the id of the stored [tx1]. *)
Definition block2_replay : Block.t :=
  Block.make (calculateBlockHash 2 ["tx1"%string]) 2
    [Transaction.make "tx1" [mkInput "tx1" 0] [mkOutput "addr2" 100]].

(** Block 3: [tx3] spends [tx2:0] into 40 for [addr4]. *)
Definition block3 : Block.t :=
  Block.make (calculateBlockHash 3 ["tx3"%string]) 3
    [Transaction.make "tx3" [mkInput "tx2" 0] [mkOutput "addr4" 40]].

Definition ledger1 : Store := snd (run (processBlock genesis) empty_store).
Definition ledger2 : Store := snd (run (processBlock block2) ledger1).
Definition ledger3 : Store := snd (run (processBlock block3) ledger2).


(** Untrusted documents with fractional numbers. *)
Definition fractional_block : Js.value :=
  Js.Object [("id"%string, Js.Str "abc"); ("height"%string, Js.Number (3 # 2));
             ("transactions"%string, Js.Array [])].

Definition fractional_input : Js.value :=
  Js.Object [("txId"%string, Js.Str "tx1"); ("index"%string, Js.Number (1 # 2))].

End Scenario_data.

(* ================================================================== *)
(** * Reasoning rules for the monad                                    *)
(* ================================================================== *)

Section Triples.

Lemma triple_ret {A} (P : conn -> Prop) (a : A) Q E :
  (forall c, P c -> Q a c) -> triple P (ret a) Q E.
Proof. intros H c Hc; simpl; auto. Qed.

Lemma triple_throw {A} (P : conn -> Prop) e (Q : A -> conn -> Prop) E :
  (forall c, P c -> E e c) -> triple P (throw e) Q E.
Proof. intros H c Hc; simpl; auto. Qed.

Lemma triple_bind {A B} P (m : M A) (k : A -> M B) R Q E :
  triple P m R E ->
  (forall a, triple (R a) (k a) Q E) ->
  triple P (bind m k) Q E.
Proof.
  intros Hm Hk c Hc. unfold bind.
  specialize (Hm c Hc). destruct (m c) as [[a|e] c']; auto.
  apply Hk; assumption.
Qed.

Lemma triple_conseq {A} (P P' : conn -> Prop) (m : M A)
    (Q Q' : A -> conn -> Prop) (E E' : error -> conn -> Prop) :
  triple P' m Q' E' ->
  (forall c, P c -> P' c) ->
  (forall a c, Q' a c -> Q a c) ->
  (forall e c, E' e c -> E e c) ->
  triple P m Q E.
Proof.
  intros H HP HQ HE c Hc. specialize (H c (HP c Hc)).
  destruct (m c) as [[a|e] c']; auto.
Qed.

(** Loops, with an invariant that may mention the elements already
    visited. *)
Lemma triple_for_each_prefix {A} (I : list A -> conn -> Prop) E
    (body : A -> M unit) (l : list A) :
  (forall pre x post, l = pre ++ x :: post ->
     triple (I pre) (body x) (fun _ => I (pre ++ [x])) E) ->
  triple (I []) (for_each l body) (fun _ => I l) E.
Proof.
  intros H.
  enough (G : forall post pre, l = pre ++ post ->
            triple (I pre) (for_each post body) (fun _ => I l) E)
    by (apply (G l []); reflexivity).
  induction post as [|x post IH]; intros pre Hl; simpl.
  - apply triple_ret. intros c Hc. rewrite Hl, app_nil_r. assumption.
  - eapply triple_bind.
    + apply (H pre x post Hl).
    + intros u. apply IH. rewrite Hl, <- app_assoc. reflexivity.
Qed.


Lemma triple_for_index_prefix {A} (I : list A -> conn -> Prop) E
    (body : Z -> A -> M unit) (l : list A) (i0 : Z) :
  (forall pre x post, l = pre ++ x :: post ->
     triple (I pre) (body (i0 + Z.of_nat (length pre))%Z x)
            (fun _ => I (pre ++ [x])) E) ->
  triple (I []) (for_index i0 l body) (fun _ => I l) E.
Proof.
  intros H.
  enough (G : forall post pre, l = pre ++ post ->
            triple (I pre) (for_index (i0 + Z.of_nat (length pre))%Z post body)
                   (fun _ => I l) E).
  { specialize (G l [] eq_refl). simpl in G. rewrite Z.add_0_r in G. exact G. }
  induction post as [|x post IH]; intros pre Hl; simpl.
  - apply triple_ret. intros c Hc. rewrite Hl, app_nil_r. assumption.
  - eapply triple_bind.
    + apply (H pre x post Hl).
    + intros u.
      replace (i0 + Z.of_nat (length pre) + 1)%Z
        with (i0 + Z.of_nat (length (pre ++ [x])))%Z
        by (rewrite length_app; simpl; lia).
      apply IH. rewrite Hl, <- app_assoc. reflexivity.
Qed.

Lemma triple_for_index {A} (I : conn -> Prop) E (body : Z -> A -> M unit)
    (l : list A) (i0 : Z) :
  (forall i x, In x l -> triple I (body i x) (fun _ => I) E) ->
  triple I (for_index i0 l body) (fun _ => I) E.
Proof.
  intros H. apply (triple_for_index_prefix (fun _ => I)).
  intros pre x post Hl. apply H. rewrite Hl. apply in_elt.
Qed.

(** Statements on the client. *)
Lemma triple_client_exec (P : conn -> Prop) stmt Q E :
  (forall c, P c ->
     match stmt (db c) with
     | Ok s' => Q tt (mkConn s' (saved c))
     | Err e => E e c
     end) ->
  triple P (client_exec stmt) Q E.
Proof.
  intros H c Hc. unfold client_exec. specialize (H c Hc).
  destruct (stmt (db c)); assumption.
Qed.

Lemma triple_client_query {A} (P : conn -> Prop) (q : Store -> A) Q E :
  (forall c, P c -> Q (q (db c)) c) ->
  triple P (client_query q) Q E.
Proof. intros H c Hc. simpl. auto. Qed.

Lemma triple_pool_query {A} (P : conn -> Prop) (q : Store -> A) Q E :
  (forall c, P c -> Q (q (committed c)) c) ->
  triple P (pool_query q) Q E.
Proof. intros H c Hc. simpl. auto. Qed.

End Triples.

(* ================================================================== *)
(** * Semantic validation is the four ordered checks                   *)
(* ================================================================== *)

Section Validation.
Local Open Scope Z_scope.

Lemma first_fault_app s l1 l2 :
  first_fault s (l1 ++ l2) =
  match first_fault s l1 with
  | Some e => Some e
  | None => first_fault s l2
  end.
Proof.
  induction l1 as [|i l1 IH]; simpl; [reflexivity|].
  destruct (input_fault s i); auto.
Qed.

(** The inner loop of [validateTransactionBalances]. *)
Lemma inputs_loop_spec (l : list Input) (acc : Q) (c : conn) :
  for_acc l acc
    (fun totalInputValue input =>
       output <- getOutput (txId input) (index input) ;;
       match output with
       | None => throw (InvalidInput (txId input) (index input))
       | Some output =>
           if OutputRow.spent output
           then throw (DoubleSpend (txId input) (index input))
           else ret (totalInputValue + OutputRow.value output)%Q
       end) c
  = (match first_fault (committed c) l with
     | Some e => Err e
     | None =>
         Ok (fold_left (fun a i => (a + referenced_value (committed c) i)%Q) l acc)
     end, c).
Proof.
  revert acc. induction l as [|i l IH]; intros acc; simpl; [reflexivity|].
  unfold bind at 1. unfold bind at 1. unfold getOutput, pool_query.
  unfold input_fault, referenced_value at 2.
  destruct (findOutput (txId i) (index i) (committed c)) as [o|]; simpl; [|reflexivity].
  destruct (OutputRow.spent o); simpl; [reflexivity|].
  apply IH.
Qed.

Lemma transactions_loop_spec (txs : list Transaction.t) (tin tout : Q) (c : conn) :
  for_acc txs (tin, tout)
    (fun totals tx =>
       totalInputValue <-
         for_acc (Transaction.inputs tx) (fst totals)
           (fun totalInputValue input =>
              output <- getOutput (txId input) (index input) ;;
              match output with
              | None => throw (InvalidInput (txId input) (index input))
              | Some output =>
                  if OutputRow.spent output
                  then throw (DoubleSpend (txId input) (index input))
                  else ret (totalInputValue + OutputRow.value output)%Q
              end) ;;
       let totalOutputValue :=
         fold_left (fun total output => (total + value output)%Q)
                   (Transaction.outputs tx) (snd totals) in
       ret (totalInputValue, totalOutputValue)) c
  = (match first_fault (committed c) (flat_map Transaction.inputs txs) with
     | Some e => Err e
     | None =>
         Ok (fold_left (fun a i => (a + referenced_value (committed c) i)%Q)
                       (flat_map Transaction.inputs txs) tin,
             fold_left (fun a o => (a + value o)%Q)
                       (flat_map Transaction.outputs txs) tout)
     end, c).
Proof.
  revert tin tout. induction txs as [|tx txs IH]; intros tin tout; simpl; [reflexivity|].
  unfold bind at 1. unfold bind at 1. rewrite inputs_loop_spec.
  rewrite first_fault_app. simpl fst. simpl snd.
  destruct (first_fault (committed c) (Transaction.inputs tx)); [reflexivity|].
  simpl. rewrite IH. rewrite !fold_left_app. reflexivity.
Qed.

Lemma validateBlock_spec (b : Block.t) (c : conn) :
  validateBlock b c = (admission_check (committed c) b, c).
Proof.
  unfold validateBlock, admission_check.
  unfold bind at 1. unfold getCurrentHeight, pool_query.
  destruct (negb (Block.height b =? currentHeight (committed c) + 1)); [reflexivity|].
  unfold calculateBlockHash, join, expected_id.
  destruct (negb (Block.id b =?
     Sha256.sha256_hex
       (toString (Block.height b) ++
        String.concat "" (map Transaction.id (Block.transactions b))))%string);
    [reflexivity|].
  unfold validateTransactionBalances. unfold bind at 1.
  rewrite transactions_loop_spec.
  fold (all_inputs b). fold (all_outputs b).
  destruct (first_fault (committed c) (all_inputs b)); [reflexivity|].
  fold (total_input_value (committed c) b). fold (total_output_value b).
  destruct ((1 <? Block.height b) &&
            Qlt_bool tolerance
              (Qabs (total_input_value (committed c) b - total_output_value b)));
    reflexivity.
Qed.

End Validation.

(* ================================================================== *)
(** * Facts about the statements                                       *)
(* ================================================================== *)

Section Statements.
Local Open Scope Z_scope.

Lemma mem_In k l : Sql.mem k l = true <-> In k l.
Proof.
  unfold Sql.mem. rewrite existsb_exists. split.
  - intros [x [Hx Heq]]. apply String.eqb_eq in Heq. subst. assumption.
  - intros H. exists k. split; [assumption | apply String.eqb_refl].
Qed.

Lemma mem_false k l : Sql.mem k l = false <-> ~ In k l.
Proof.
  rewrite <- mem_In. destruct (Sql.mem k l); split; intros; congruence.
Qed.

Lemma has_height_In h l : existsb (Z.eqb h) l = true <-> In h l.
Proof.
  rewrite existsb_exists. split.
  - intros [x [Hx Heq]]. apply Z.eqb_eq in Heq. subst. assumption.
  - intros H. exists h. split; [assumption | apply Z.eqb_refl].
Qed.

Lemma fold_max_le l : forall x, x <= fold_left Z.max l x.
Proof.
  induction l as [|y l IH]; intros x; simpl; [lia|].
  specialize (IH (Z.max x y)). lia.
Qed.

Lemma fold_max_bound l : forall x y, In y l -> y <= fold_left Z.max l x.
Proof.
  induction l as [|z l IH]; intros x y Hy; simpl in *; [tauto|].
  destruct Hy as [-> | Hy]; [|auto].
  pose proof (fold_max_le l (Z.max x y)). lia.
Qed.

Lemma fold_max_In l : forall x, fold_left Z.max l x = x \/ In (fold_left Z.max l x) l.
Proof.
  induction l as [|z l IH]; intros x; simpl; [auto|].
  destruct (IH (Z.max x z)) as [H|H]; [|auto].
  rewrite H. destruct (Z.max_spec x z) as [[_ ->]|[_ ->]]; auto.
Qed.

(** [MAX] is an upper bound that is attained. *)
Lemma sql_max_spec l m :
  Sql.max l = Some m -> In m l /\ forall x, In x l -> x <= m.
Proof.
  destruct l as [|x l]; simpl; [discriminate|].
  intros H. injection H as <-. split.
  - destruct (fold_max_In l x) as [-> | H]; auto.
  - intros y [<- | Hy]; [apply fold_max_le | apply fold_max_bound; assumption].
Qed.

Lemma sql_max_none l : Sql.max l = None -> l = [].
Proof. destruct l; simpl; [reflexivity | discriminate]. Qed.

Lemma sql_max_unique l m :
  In m l -> (forall x, In x l -> x <= m) -> Sql.max l = Some m.
Proof.
  intros Hin Hub. destruct (Sql.max l) as [m'|] eqn:E.
  - apply sql_max_spec in E. destruct E as [Hin' Hub'].
    f_equal. specialize (Hub _ Hin'). specialize (Hub' _ Hin). lia.
  - apply sql_max_none in E. subst. contradiction.
Qed.

Lemma currentHeight_bound s h : In h (heights s) -> h <= currentHeight s.
Proof.
  unfold currentHeight, heights. intros H.
  destruct (Sql.max (map BlockRow.height (tbl_blocks s))) as [m|] eqn:E; simpl.
  - apply sql_max_spec in E. apply E. assumption.
  - apply sql_max_none in E. rewrite E in H. contradiction.
Qed.

Lemma currentHeight_cases s :
  (tbl_blocks s = [] /\ currentHeight s = 0) \/ In (currentHeight s) (heights s).
Proof.
  unfold currentHeight, heights.
  destruct (Sql.max (map BlockRow.height (tbl_blocks s))) as [m|] eqn:E; simpl.
  - right. apply sql_max_spec in E. apply E.
  - left. apply sql_max_none in E. apply map_eq_nil in E. auto.
Qed.

(** Appending the next height moves the current height by one. *)
Lemma currentHeight_append bs txs outs id :
  currentHeight
    (mkStore (bs ++ [BlockRow.make id (currentHeight (mkStore bs txs outs) + 1)])
             txs outs)
  = currentHeight (mkStore bs txs outs) + 1.
Proof.
  set (s := mkStore bs txs outs).
  unfold currentHeight at 1. simpl tbl_blocks. rewrite map_app. simpl map.
  rewrite (@sql_max_unique _ (currentHeight s + 1)); [reflexivity | |].
  - apply in_or_app. right. left. reflexivity.
  - intros x Hx. apply in_app_or in Hx. destruct Hx as [Hx | [<- | []]]; [|lia].
    pose proof (@currentHeight_bound s x Hx). lia.
Qed.

Lemma currentHeight_blocks s s' :
  tbl_blocks s' = tbl_blocks s -> currentHeight s' = currentHeight s.
Proof. unfold currentHeight. intros ->. reflexivity. Qed.

Lemma set_unspent_set_spent t i r :
  OutputRow.spent r = false ->
  OutputRow.spent_by_tx r = None ->
  OutputRow.spent_by_index r = None ->
  Sql.set_unspent (Sql.set_spent t i r) = r.
Proof.
  destruct r as [a b c d e f g]. simpl. intros -> -> ->. reflexivity.
Qed.

Lemma output_key_spec t i r :
  Sql.output_key t i r = true <-> out_key r = (t, i).
Proof.
  unfold Sql.output_key, out_key. rewrite andb_true_iff, String.eqb_eq, Z.eqb_eq.
  split; [intros [-> ->]; reflexivity | intros H; injection H; auto].
Qed.

End Statements.

(* ================================================================== *)
(** * Transactions on the client                                       *)
(* ================================================================== *)

Section Transactions.

Lemma exec_in_tx s0 (I J : Store -> Prop) (E : error -> Prop) stmt :
  (forall s, I s -> match stmt s with Ok s' => J s' | Err e => E e end) ->
  triple (in_tx s0 I) (client_exec stmt) (fun _ => in_tx s0 J) (failing s0 E).
Proof.
  intros H. apply triple_client_exec. intros c [Hs HI].
  specialize (H _ HI). destruct (stmt (db c)); unfold in_tx, failing; simpl; auto.
Qed.

Lemma query_in_tx {A} s0 (I : Store -> Prop) (J : A -> Store -> Prop)
    (E : error -> Prop) (q : Store -> A) :
  (forall s, I s -> J (q s) s) ->
  triple (in_tx s0 I) (client_query q) (fun a => in_tx s0 (J a)) (failing s0 E).
Proof.
  intros H. apply triple_client_query. intros c [Hs HI]. split; auto.
Qed.

Lemma mark_in_tx s0 (I J : Store -> Prop) (E : error -> Prop) t i spender si :
  (forall s, I s ->
     length (filter (Sql.spendable t i) (tbl_outputs s)) <> 0%nat ->
     J (fst (Sql.update_spent spender si t i s))) ->
  E (OutputNotSpendable t i) ->
  triple (in_tx s0 I) (markOutputAsSpent t i spender si)
         (fun _ => in_tx s0 J) (failing s0 E).
Proof.
  intros H HE c [Hs HI]. unfold markOutputAsSpent, bind, client_update.
  specialize (H _ HI). unfold Sql.update_spent in *. simpl in *.
  destruct (Nat.eqb_spec (length (filter (Sql.spendable t i) (tbl_outputs (db c)))) 0)
    as [Hz|Hnz]; simpl.
  - split; auto.
  - split; auto.
Qed.

Lemma commit_in_tx s0 (Q : Store -> Prop) (E : error -> conn -> Prop) :
  triple (in_tx s0 Q) query_COMMIT (fun _ c => saved c = None /\ Q (db c)) E.
Proof. intros c [Hs HQ]. simpl. auto. Qed.

(** [BEGIN; m; ROLLBACK on any exception]: either the effect of [m] is
    committed or the store is as it was. *)
Lemma transaction_unit (m : M unit) (s : Store) (Q : Store -> Prop)
    (E : error -> Prop) :
  triple (in_tx s (eq s)) m (fun _ c => saved c = None /\ Q (db c)) (failing s E) ->
  match run (try_catch (query_BEGIN ;; m)
                       (fun error => query_ROLLBACK ;; throw error)) s with
  | (Ok _, s') => Q s'
  | (Err e, s') => s' = s /\ E e
  end.
Proof.
  intros H. unfold run, try_catch, bind. simpl.
  assert (Hc : in_tx s (eq s) (mkConn s (Some s))) by (split; reflexivity).
  specialize (H _ Hc).
  destruct (m (mkConn s (Some s))) as [[u|e] c'].
  - destruct H as [Hs HQ]. unfold committed. rewrite Hs. assumption.
  - destruct H as [Hs HE]. unfold query_ROLLBACK. rewrite Hs. simpl. auto.
Qed.

(** Two specifications of one computation hold together. *)
Lemma triple_and {A} (P1 P2 : conn -> Prop) (m : M A) Q1 Q2 E1 E2 :
  triple P1 m Q1 E1 -> triple P2 m Q2 E2 ->
  triple (fun c => P1 c /\ P2 c) m
         (fun a c => Q1 a c /\ Q2 a c) (fun e c => E1 e c /\ E2 e c).
Proof.
  intros H1 H2 c [Hc1 Hc2]. specialize (H1 c Hc1). specialize (H2 c Hc2).
  destruct (m c) as [[a|e] c']; auto.
Qed.

Lemma run_processBlock (b : Block.t) (s : Store) :
  run (processBlock b) s =
  match admission_check s b with
  | Err e => (Err e, s)
  | Ok _ =>
      run (try_catch
             (query_BEGIN ;;
              createBlock b ;;
              for_each (Block.transactions b)
                (fun tx => processTransaction tx (Block.id b)) ;;
              query_COMMIT)
             (fun error => query_ROLLBACK ;; throw error)) s
  end.
Proof.
  unfold processBlock, run. unfold bind at 1. rewrite validateBlock_spec.
  unfold idle at 1. unfold committed at 1. simpl saved.  simpl db.
  destruct (admission_check s b); reflexivity.
Qed.

End Transactions.

(* ================================================================== *)
(** * The apply phase of [processBlock]                                *)
(* ================================================================== *)

Section ApplyPhase.
Local Open Scope Z_scope.

Lemma insert_block_error id h s e :
  Sql.insert_block id h s = Err e -> class_of e = PlainError.
Proof.
  unfold Sql.insert_block. destruct (_ || _); [|discriminate].
  intros H. injection H as <-. reflexivity.
Qed.

Lemma insert_transaction_error id bid s e :
  Sql.insert_transaction id bid s = Err e -> class_of e = PlainError.
Proof.
  unfold Sql.insert_transaction.
  destruct (Sql.mem id _); [intros H; injection H as <-; reflexivity|].
  destruct (negb _); [intros H; injection H as <-; reflexivity | discriminate].
Qed.

Lemma insert_output_error t i a v s e :
  Sql.insert_output t i a v s = Err e -> class_of e = PlainError.
Proof.
  unfold Sql.insert_output.
  destruct (existsb _ _); [intros H; injection H as <-; reflexivity|].
  destruct (negb _); [intros H; injection H as <-; reflexivity | discriminate].
Qed.

Variable b : Block.t.
Variable s0 : Store.

(** [J done] holds between transactions, [done] being the transactions
    processed so far; [K done tx seen] holds while [tx] is processed,
    [seen] being those of its inputs that are marked already. *)
Variable I0 : Store -> Prop.
Variable J : list Transaction.t -> Store -> Prop.
Variable K : list Transaction.t -> Transaction.t -> list Input -> Store -> Prop.

Hypothesis step_block : forall s s',
  I0 s -> Sql.insert_block (Block.id b) (Block.height b) s = Ok s' -> J [] s'.

Hypothesis step_transaction : forall done tx s s',
  In tx (Block.transactions b) -> J done s ->
  Sql.insert_transaction (Transaction.id tx) (Block.id b) s = Ok s' ->
  K done tx [] s'.

Hypothesis step_input : forall done tx seen inp i s,
  In tx (Block.transactions b) -> In inp (Transaction.inputs tx) ->
  K done tx seen s ->
  length (filter (Sql.spendable (txId inp) (index inp)) (tbl_outputs s)) <> 0%nat ->
  K done tx (seen ++ [inp])
    (fst (Sql.update_spent (Transaction.id tx) i (txId inp) (index inp) s)).

Hypothesis step_output : forall done tx o i s s',
  In tx (Block.transactions b) -> In o (Transaction.outputs tx) ->
  K done tx (Transaction.inputs tx) s ->
  Sql.insert_output (Transaction.id tx) i (address o) (value o) s = Ok s' ->
  K done tx (Transaction.inputs tx) s'.

Hypothesis step_done : forall done tx s,
  K done tx (Transaction.inputs tx) s -> J (done ++ [tx]) s.

Let plain : error -> Prop := fun e => class_of e = PlainError.

Lemma processTransaction_triple done tx :
  In tx (Block.transactions b) ->
  triple (in_tx s0 (J done))
         (processTransaction tx (Block.id b))
         (fun _ => in_tx s0 (J (done ++ [tx])))
         (failing s0 plain).
Proof.
  intros Htx. unfold processTransaction.
  eapply triple_bind.
  { unfold createTransaction. apply exec_in_tx with (J := K done tx []).
    intros s HJ.
    destruct (Sql.insert_transaction (Transaction.id tx) (Block.id b) s) eqn:E.
    - eapply step_transaction; eassumption.
    - eapply insert_transaction_error; eassumption. }
  intros u1. eapply triple_bind.
  { apply (@triple_for_index_prefix _
             (fun pre => in_tx s0 (K done tx pre)) (failing s0 plain)).
    intros pre inp post Hl.
    apply mark_in_tx with (s0 := s0) (I := K done tx pre)
                          (J := K done tx (pre ++ [inp])) (E := plain).
    - intros s HK Hn. apply step_input; auto.
      rewrite Hl. apply in_elt.
    - reflexivity. }
  intros u2. eapply triple_conseq.
  - apply (@triple_for_index_prefix _
             (fun _ => in_tx s0 (K done tx (Transaction.inputs tx)))
             (failing s0 plain)).
    intros pre o post Hl. unfold createOutput.
    apply exec_in_tx. intros s HK.
    destruct (Sql.insert_output (Transaction.id tx) _ (address o) (value o) s) eqn:E.
    + eapply step_output; try eassumption. rewrite Hl. apply in_elt.
    + eapply insert_output_error; eassumption.
  - intros c Hc. exact Hc.
  - intros a c [Hs HK]. split; [assumption|]. eapply step_done; eassumption.
  - intros e c Hc. exact Hc.
Qed.

(** The unit of work up to, but without, the [COMMIT]. *)
Lemma apply_body :
  triple (in_tx s0 I0)
         (createBlock b ;;
          for_each (Block.transactions b)
            (fun tx => processTransaction tx (Block.id b)))
         (fun _ => in_tx s0 (J (Block.transactions b)))
         (failing s0 plain).
Proof.
  eapply triple_bind.
  { unfold createBlock. apply exec_in_tx with (J := J []).
    intros s HI.
    destruct (Sql.insert_block (Block.id b) (Block.height b) s) eqn:E.
    - eapply step_block; eassumption.
    - eapply insert_block_error; eassumption. }
  intros u1.
  apply (@triple_for_each_prefix _ (fun pre => in_tx s0 (J pre)) (failing s0 plain)).
  intros pre tx post Hl.
  apply processTransaction_triple. rewrite Hl. apply in_elt.
Qed.

Lemma bind_assoc {A B C} (m : M A) (f : A -> M B) (g : B -> M C) (c : conn) :
  bind (bind m f) g c = bind m (fun a => bind (f a) g) c.
Proof. unfold bind. destruct (m c) as [[a|e] c']; reflexivity. Qed.

Lemma apply_phase :
  triple (in_tx s0 I0)
         (createBlock b ;;
          for_each (Block.transactions b)
            (fun tx => processTransaction tx (Block.id b)) ;;
          query_COMMIT)
         (fun _ c => saved c = None /\ J (Block.transactions b) (db c))
         (failing s0 plain).
Proof.
  intros c Hc. rewrite <- bind_assoc. revert c Hc.
  eapply triple_bind; [apply apply_body|].
  intros u. apply commit_in_tx.
Qed.

End ApplyPhase.

(* ================================================================== *)
(** * Every statement of the apply phase keeps the invariant           *)
(* ================================================================== *)

Section InvariantApply.
Local Open Scope Z_scope.

Lemma currentHeight_nonneg s : Inv s -> 0 <= currentHeight s.
Proof.
  intros HI. destruct (currentHeight_cases s) as [[_ ->] | H]; [lia|].
  apply (inv_contig HI) in H. lia.
Qed.

Lemma Inv_empty : Inv empty_store.
Proof.
  constructor; simpl; try (intros; contradiction).
  - constructor.
  - intros h. unfold currentHeight. simpl. split; [tauto | lia].
Qed.

Lemma insert_block_Inv id h s s' :
  Inv s -> h = currentHeight s + 1 ->
  Sql.insert_block id h s = Ok s' ->
  Inv s' /\ currentHeight s' = h.
Proof.
  intros HI Hh. unfold Sql.insert_block.
  destruct (_ || _); [discriminate|]. intros H. injection H as <-.
  assert (Hcur : currentHeight
            (mkStore (tbl_blocks s ++ [BlockRow.make id h])
                     (tbl_transactions s) (tbl_outputs s)) = h).
  { subst h. destruct s as [bs txs outs]. apply currentHeight_append. }
  split; [|assumption].
  constructor; simpl; try apply HI.
  - intros t Ht. unfold block_ids. simpl. rewrite map_app.
    apply in_or_app. left. apply (inv_fk_tx HI). assumption.
  - intros h'. rewrite Hcur. unfold heights. simpl. rewrite map_app, in_app_iff.
    fold (heights s). rewrite (inv_contig HI). simpl.
    pose proof (currentHeight_nonneg HI). lia.
Qed.

Lemma insert_transaction_Inv id bid s s' :
  Inv s ->
  Sql.insert_transaction id bid s = Ok s' ->
  Inv s' /\ tbl_blocks s' = tbl_blocks s /\ In id (tx_ids s').
Proof.
  intros HI. unfold Sql.insert_transaction.
  destruct (Sql.mem id _); [discriminate|].
  destruct (negb _) eqn:Hfk; [discriminate|]. intros H. injection H as <-.
  apply negb_false_iff, mem_In in Hfk.
  assert (Hsub : forall x, In x (tx_ids s) ->
            In x (map TransactionRow.id
                      (tbl_transactions s ++ [TransactionRow.make id bid]))).
  { intros x Hx. rewrite map_app. apply in_or_app. left. assumption. }
  split; [|split; [reflexivity|]].
  - constructor; simpl; try apply HI.
    + intros t Ht. apply in_app_or in Ht. destruct Ht as [Ht | [<- | []]].
      * apply (inv_fk_tx HI). assumption.
      * exact Hfk.
    + intros o Ho. apply Hsub. apply (inv_fk_out HI). assumption.
    + intros o Ho Hsp. destruct (inv_spender HI o Ho Hsp) as [t [Ht Hin]].
      exists t. split; [assumption | apply Hsub; assumption].
  - unfold tx_ids. simpl. rewrite map_app. apply in_or_app. right. left. reflexivity.
Qed.

Lemma out_key_update spender si t i (l : list OutputRow.t) :
  map out_key
      (map (fun r => if Sql.spendable t i r then Sql.set_spent spender si r else r) l)
  = map out_key l.
Proof.
  rewrite map_map. apply map_ext. intros r.
  destruct (Sql.spendable t i r); reflexivity.
Qed.

Lemma update_spent_Inv spender si t i s :
  Inv s -> In spender (tx_ids s) ->
  Inv (fst (Sql.update_spent spender si t i s)).
Proof.
  intros HI Hsp. unfold Sql.update_spent. simpl.
  constructor; simpl; try apply HI.
  - intros o Ho. apply in_map_iff in Ho. destruct Ho as [r [<- Hr]].
    destruct (Sql.spendable t i r); simpl; apply (inv_fk_out HI); assumption.
  - rewrite out_key_update. apply HI.
  - intros o Ho Hs. apply in_map_iff in Ho. destruct Ho as [r [<- Hr]].
    destruct (Sql.spendable t i r); simpl in *.
    + exists spender. auto.
    + apply (inv_spender HI); assumption.
  - intros o Ho Hs. apply in_map_iff in Ho. destruct Ho as [r [<- Hr]].
    destruct (Sql.spendable t i r); simpl in *; [discriminate|].
    apply (inv_unspent HI); assumption.
  - intros o Ho. apply in_map_iff in Ho. destruct Ho as [r [<- Hr]].
    destruct (Sql.spendable t i r); simpl; apply (inv_nonneg HI); assumption.
Qed.

Lemma no_key_not_In t i (l : list OutputRow.t) :
  existsb (Sql.output_key t i) l = false -> ~ In (t, i) (map out_key l).
Proof.
  intros H Hin. apply in_map_iff in Hin. destruct Hin as [r [Hk Hr]].
  apply output_key_spec in Hk.
  assert (existsb (Sql.output_key t i) l = true)
    by (apply existsb_exists; exists r; auto).
  congruence.
Qed.

Lemma insert_output_Inv t i a v s s' :
  Inv s -> (0 <= v)%Q ->
  Sql.insert_output t i a v s = Ok s' ->
  Inv s' /\ tbl_blocks s' = tbl_blocks s /\ tbl_transactions s' = tbl_transactions s.
Proof.
  intros HI Hv. unfold Sql.insert_output.
  destruct (existsb _ _) eqn:Huq; [discriminate|].
  destruct (negb _) eqn:Hfk; [discriminate|]. intros H. injection H as <-.
  apply negb_false_iff, mem_In in Hfk.
  split; [|split; reflexivity].
  constructor; simpl; try apply HI.
  - intros o Ho. apply in_app_or in Ho. destruct Ho as [Ho | [<- | []]].
    + apply (inv_fk_out HI). assumption.
    + exact Hfk.
  - rewrite map_app. simpl.
    apply NoDup_app_remove_l with (l := []). simpl.
    apply Permutation_NoDup with (l := (t, i) :: map out_key (tbl_outputs s)).
    + apply Permutation_cons_append.
    + constructor; [apply no_key_not_In; assumption | apply HI].
  - intros o Ho Hs. apply in_app_or in Ho. destruct Ho as [Ho | [<- | []]].
    + apply (inv_spender HI); assumption.
    + discriminate.
  - intros o Ho Hs. apply in_app_or in Ho. destruct Ho as [Ho | [<- | []]].
    + apply (inv_unspent HI); assumption.
    + simpl. auto.
  - intros o Ho. apply in_app_or in Ho. destruct Ho as [Ho | [<- | []]].
    + apply (inv_nonneg HI); assumption.
    + exact Hv.
Qed.

(** A committed block keeps the invariant and raises the height by one. *)
Lemma apply_phase_Inv (b : Block.t) (s : Store) :
  Inv s -> nonneg_outputs b -> Block.height b = currentHeight s + 1 ->
  triple (in_tx s (eq s))
         (createBlock b ;;
          for_each (Block.transactions b)
            (fun tx => processTransaction tx (Block.id b)) ;;
          query_COMMIT)
         (fun _ c => saved c = None /\
                     (Inv (db c) /\ currentHeight (db c) = currentHeight s + 1))
         (failing s (fun e => class_of e = PlainError)).
Proof.
  intros HI Hnn Hh.
  eapply triple_conseq.
  - apply (@apply_phase b s (eq s)
             (fun _ s' => Inv s' /\ currentHeight s' = currentHeight s + 1)
             (fun _ tx _ s' => (Inv s' /\ currentHeight s' = currentHeight s + 1)
                               /\ In (Transaction.id tx) (tx_ids s'))).
    + intros x s' <- Hins. rewrite <- Hh.
      eapply insert_block_Inv; eassumption.
    + intros done tx x s' Htx [HIx Hcx] Hins.
      destruct (@insert_transaction_Inv _ _ _ _ HIx Hins) as [HI' [Hb Hin]].
      rewrite (currentHeight_blocks _ _ Hb). auto.
    + intros done tx seen inp i x Htx Hinp [[HIx Hcx] Hin] Hn.
      split; [split|].
      * apply update_spent_Inv; assumption.
      * rewrite <- Hcx. apply currentHeight_blocks. reflexivity.
      * exact Hin.
    + intros done tx o i x s' Htx Ho [[HIx Hcx] Hin] Hins.
      assert (Hv : (0 <= value o)%Q).
      { apply Hnn. unfold all_outputs. apply in_flat_map. exists tx. auto. }
      destruct (@insert_output_Inv _ _ _ _ _ _ HIx Hv Hins) as [HI' [Hb Ht]].
      split; [split|].
      * assumption.
      * rewrite (currentHeight_blocks _ _ Hb). assumption.
      * unfold tx_ids. rewrite Ht. exact Hin.
    + intros done tx x [H _]. exact H.
  - auto.
  - intros a c H. exact H.
  - auto.
Qed.

End InvariantApply.

(* ================================================================== *)
(** * The rollback unit in closed form                                 *)
(* ================================================================== *)

Section RollbackUnit.
Local Open Scope Z_scope.

Lemma mem_app k l1 l2 : Sql.mem k (l1 ++ l2) = Sql.mem k l1 || Sql.mem k l2.
Proof. unfold Sql.mem. apply existsb_app. Qed.

Lemma unspend_many_nil outs : unspend_many [] outs = outs.
Proof.
  unfold unspend_many. rewrite <- (map_id outs) at 2. apply map_ext.
  intros r. unfold spent_by_any. destruct (OutputRow.spent_by_tx r); reflexivity.
Qed.

Lemma unspend_many_snoc L t outs :
  map (fun r => if Sql.spent_by t r then Sql.set_unspent r else r)
      (unspend_many L outs)
  = unspend_many (L ++ [t]) outs.
Proof.
  unfold unspend_many. rewrite map_map. apply map_ext. intros r.
  unfold spent_by_any, Sql.spent_by.
  destruct (OutputRow.spent_by_tx r) as [x|] eqn:Hx.
  - rewrite mem_app. destruct (Sql.mem x L); simpl; [reflexivity|].
    rewrite Hx. unfold Sql.mem. simpl. rewrite orb_false_r.
    rewrite String.eqb_sym. reflexivity.
  - rewrite Hx. reflexivity.
Qed.

Lemma triple_assume {A} (P : conn -> Prop) (phi : Prop) (m : M A) Q E :
  (forall c, P c -> phi) -> (phi -> triple P m Q E) -> triple P m Q E.
Proof. intros H1 H2 c Hc. apply H2; eauto. Qed.

(** While the loops run, only the spent flags of the outputs change. *)
Let unspent_upto (s : Store) (L : list string) : Store -> Prop :=
  fun s' => s' = mkStore (tbl_blocks s) (tbl_transactions s)
                         (unspend_many L (tbl_outputs s)).

Let never : error -> Prop := fun _ => False.

Lemma unspend_loop_triple s L txs :
  triple (in_tx s (unspent_upto s L))
         (for_each txs unspendOutputsByTransaction)
         (fun _ => in_tx s (unspent_upto s (L ++ txs)))
         (failing s never).
Proof.
  eapply triple_conseq.
  - apply (@triple_for_each_prefix _
             (fun pre => in_tx s (unspent_upto s (L ++ pre))) (failing s never)).
    intros pre t post Hl. unfold unspendOutputsByTransaction.
    apply exec_in_tx. intros x Hx. unfold unspent_upto in *. subst x.
    unfold Sql.update_unspent. simpl. rewrite unspend_many_snoc, app_assoc.
    reflexivity.
  - intros c Hc. rewrite app_nil_r. exact Hc.
  - intros a c Hc. exact Hc.
  - auto.
Qed.

Lemma rollback_unit_triple (t : Z) (s : Store) :
  triple (in_tx s (eq s))
         (blocksToDelete <- getBlocksAboveHeight t ;;
          for_each blocksToDelete
            (fun blockId =>
               transactions <- getTransactionsByBlockId blockId ;;
               for_each transactions unspendOutputsByTransaction) ;;
          deleteBlocksAboveHeight t ;;
          query_COMMIT)
         (fun _ c => saved c = None /\ db c = rolled_back t s)
         (failing s never).
Proof.
  eapply triple_bind.
  { unfold getBlocksAboveHeight.
    apply query_in_tx with
      (J := fun a s' => a = blocksAboveHeight t s /\ unspent_upto s [] s').
    intros x <-. split; [reflexivity|].
    unfold unspent_upto. rewrite unspend_many_nil. destruct s; reflexivity. }
  intros blocksToDelete.
  apply triple_assume with (phi := blocksToDelete = blocksAboveHeight t s).
  { intros c [_ [H _]]. exact H. }
  intros ->.
  eapply triple_bind.
  { eapply triple_conseq.
    - apply (@triple_for_each_prefix _
               (fun pre => in_tx s
                  (unspent_upto s
                     (flat_map (fun blockId => transactionsByBlockId blockId s) pre)))
               (failing s never)).
      intros pre blockId post Hl.
      eapply triple_bind.
      + unfold getTransactionsByBlockId.
        apply query_in_tx with
          (J := fun a s' =>
                  a = transactionsByBlockId blockId s /\
                  unspent_upto s
                    (flat_map (fun blockId => transactionsByBlockId blockId s) pre) s').
        intros x Hx. split; [|exact Hx].
        unfold unspent_upto in Hx. subst x. reflexivity.
      + intros transactions.
        apply triple_assume with (phi := transactions = transactionsByBlockId blockId s).
        { intros c [_ [H _]]. exact H. }
        intros ->.
        eapply triple_conseq.
        * apply unspend_loop_triple.
        * intros c [Hs [_ H]]. split; [exact Hs | exact H].
        * intros a c Hc. rewrite flat_map_app. simpl. rewrite app_nil_r. exact Hc.
        * auto.
    - intros c [Hs [_ H]]. split; [exact Hs | exact H].
    - intros a c Hc. exact Hc.
    - auto. }
  intros u. eapply triple_bind.
  { unfold deleteBlocksAboveHeight.
    apply exec_in_tx with (J := eq (rolled_back t s)).
    intros x Hx. unfold unspent_upto in Hx. subst x. reflexivity. }
  intros u'. eapply triple_conseq.
  - apply (@commit_in_tx s (eq (rolled_back t s)) (failing s never)).
  - intros c Hc. exact Hc.
  - intros a c [Hs H]. split; [exact Hs | symmetry; exact H].
  - intros e c Hc. exact Hc.
Qed.

Lemma run_pool_bind {A B} (q : Store -> A) (k : A -> M B) (s : Store) :
  run (bind (pool_query q) k) s = run (k (q s)) s.
Proof. reflexivity. Qed.

(** The outcome of [rollback], by cases on its three guards. *)
Lemma run_rollback (config : Config) (t : Z) (s : Store) :
  run (rollback config t) s =
  if t <? 0 then (Err InvalidHeightParameter, s)
  else if currentHeight s <? t then (Err (FutureHeight (currentHeight s) t), s)
  else if maxRollbackBlocks config <? currentHeight s - t
  then (Err (ExcessiveRollback (maxRollbackBlocks config) (currentHeight s) t), s)
  else (Ok tt, rolled_back t s).
Proof.
  unfold rollback, getCurrentHeight.
  rewrite run_pool_bind.
  destruct (t <? 0); [reflexivity|].
  destruct (currentHeight s <? t); [reflexivity|].
  destruct (maxRollbackBlocks config <? currentHeight s - t); [reflexivity|].
  pose proof (@transaction_unit _ s (fun x => x = rolled_back t s) never
                (@rollback_unit_triple t s)) as H.
  destruct (run _ s) as [[[]|e] s'].
  - rewrite H. reflexivity.
  - destruct H as [_ []].
Qed.

End RollbackUnit.

(* ================================================================== *)
(** * Rollback keeps the invariant and lands on the target height      *)
(* ================================================================== *)

Section InvariantRollback.
Local Open Scope Z_scope.

Lemma In_insert_desc r l x : In x (Sql.insert_desc r l) <-> x = r \/ In x l.
Proof.
  induction l as [|y l IH]; simpl.
  - intuition.
  - destruct (BlockRow.height y <=? BlockRow.height r); simpl; [intuition|].
    rewrite IH. intuition.
Qed.

Lemma In_order_by_height_desc l x : In x (Sql.order_by_height_desc l) <-> In x l.
Proof.
  induction l as [|y l IH]; simpl; [tauto|].
  rewrite In_insert_desc, IH. intuition.
Qed.

Lemma rolled_back_blocks t s :
  tbl_blocks (rolled_back t s)
  = filter (fun b => negb (t <? BlockRow.height b)) (tbl_blocks s).
Proof. reflexivity. Qed.

Lemma rolled_back_transactions t s :
  tbl_transactions (rolled_back t s)
  = filter (fun x => negb (Sql.mem (TransactionRow.block_id x) (gone_blocks t s)))
           (tbl_transactions s).
Proof. reflexivity. Qed.

Lemma rolled_back_outputs t s :
  tbl_outputs (rolled_back t s)
  = filter (fun o => negb (Sql.mem (OutputRow.tx_id o) (gone_transactions t s)))
           (unspend_many (visited_transactions t s) (tbl_outputs s)).
Proof. reflexivity. Qed.

Lemma blocksAboveHeight_gone t s x :
  In x (blocksAboveHeight t s) <-> In x (gone_blocks t s).
Proof.
  unfold blocksAboveHeight, gone_blocks. rewrite !in_map_iff.
  split; intros [r [Hr Hin]]; exists r; split; auto;
    apply In_order_by_height_desc; assumption.
Qed.

(** The loops visit exactly the transactions that the cascade deletes. *)
Lemma visited_gone t s x :
  In x (visited_transactions t s) <-> In x (gone_transactions t s).
Proof.
  unfold visited_transactions, gone_transactions, transactionsByBlockId.
  rewrite in_flat_map, in_map_iff. split.
  - intros [bid [Hbid Hx]]. apply in_map_iff in Hx. destruct Hx as [r [Hr Hin]].
    apply filter_In in Hin. destruct Hin as [Hin Heq]. apply String.eqb_eq in Heq.
    exists r. split; [assumption|]. apply filter_In. split; [assumption|].
    apply mem_In. rewrite Heq. apply blocksAboveHeight_gone. assumption.
  - intros [r [Hr Hin]]. apply filter_In in Hin. destruct Hin as [Hin Hmem].
    apply mem_In in Hmem. exists (TransactionRow.block_id r). split.
    + apply blocksAboveHeight_gone. assumption.
    + apply in_map_iff. exists r. split; [assumption|].
      apply filter_In. split; [assumption | apply String.eqb_refl].
Qed.

Lemma mem_visited_gone t s x :
  Sql.mem x (visited_transactions t s) = Sql.mem x (gone_transactions t s).
Proof.
  destruct (Sql.mem x (gone_transactions t s)) eqn:E.
  - apply mem_In. apply visited_gone. apply mem_In. assumption.
  - apply mem_false. rewrite visited_gone. apply mem_false. assumption.
Qed.

Lemma NoDup_map_filter {A B} (g : A -> B) (p : A -> bool) (l : list A) :
  NoDup (map g l) -> NoDup (map g (filter p l)).
Proof.
  induction l as [|x l IH]; simpl; intros H; [constructor|].
  inversion H as [|y ys Hnin Hnd]; subst.
  destruct (p x); simpl; [|auto].
  constructor; [|auto].
  intros Hin. apply Hnin. apply in_map_iff in Hin. destruct Hin as [z [Hz Hin]].
  apply filter_In in Hin. apply in_map_iff. exists z. tauto.
Qed.

Lemma out_key_unspend L (l : list OutputRow.t) :
  map out_key (unspend_many L l) = map out_key l.
Proof.
  unfold unspend_many. rewrite map_map. apply map_ext. intros r.
  destruct (spent_by_any L r); reflexivity.
Qed.

(** A transaction that survives: its block is not deleted. *)
Lemma survivor_transaction t s x :
  In x (tx_ids s) -> ~ In x (gone_transactions t s) ->
  In x (tx_ids (rolled_back t s)).
Proof.
  unfold tx_ids. rewrite rolled_back_transactions. intros Hin Hgone.
  apply in_map_iff in Hin. destruct Hin as [r [Hr Hin]].
  apply in_map_iff. exists r. split; [assumption|].
  apply filter_In. split; [assumption|].
  apply negb_true_iff. apply mem_false. intros Hb. apply Hgone.
  unfold gone_transactions. apply in_map_iff. exists r. split; [assumption|].
  apply filter_In. split; [assumption | apply mem_In; assumption].
Qed.

Lemma survivor_block t s x :
  In x (block_ids s) -> ~ In x (gone_blocks t s) ->
  In x (block_ids (rolled_back t s)).
Proof.
  unfold block_ids. rewrite rolled_back_blocks. intros Hin Hgone.
  apply in_map_iff in Hin. destruct Hin as [r [Hr Hin]].
  apply in_map_iff. exists r. split; [assumption|].
  apply filter_In. split; [assumption|].
  destruct (t <? BlockRow.height r) eqn:E; [|reflexivity].
  exfalso. apply Hgone. unfold gone_blocks. apply in_map_iff.
  exists r. split; [assumption|]. apply filter_In. auto.
Qed.

Lemma heights_rolled_back t s h :
  In h (heights (rolled_back t s)) <-> In h (heights s) /\ h <= t.
Proof.
  unfold heights. rewrite rolled_back_blocks, !in_map_iff. split.
  - intros [r [Hr Hin]]. apply filter_In in Hin. destruct Hin as [Hin Hle].
    apply negb_true_iff, Z.ltb_ge in Hle. split; [exists r; auto | lia].
  - intros [[r [Hr Hin]] Hle]. exists r. split; [assumption|].
    apply filter_In. split; [assumption|].
    apply negb_true_iff, Z.ltb_ge. lia.
Qed.

(** The resulting current height is the target. *)
Lemma currentHeight_rolled_back t s :
  Inv s -> 0 <= t <= currentHeight s ->
  currentHeight (rolled_back t s) = t.
Proof.
  intros HI Ht.
  destruct (currentHeight_cases (rolled_back t s)) as [[Hnil Hz] | Hin].
  - rewrite Hz. destruct (Z.eq_dec t 0) as [|Hne]; [congruence|].
    assert (Hh : In t (heights (rolled_back t s))).
    { apply heights_rolled_back. split; [|lia]. apply (inv_contig HI). lia. }
    unfold heights in Hh. rewrite Hnil in Hh. contradiction.
  - pose proof Hin as Hin'. apply heights_rolled_back in Hin'.
    destruct Hin' as [Hs Hle].
    destruct (Z.eq_dec t 0) as [Hz|Hne].
    + apply (inv_contig HI) in Hs. lia.
    + assert (Hh : In t (heights (rolled_back t s))).
      { apply heights_rolled_back. split; [|lia]. apply (inv_contig HI). lia. }
      apply currentHeight_bound in Hh. lia.
Qed.

Lemma rolled_back_Inv t s :
  Inv s -> 0 <= t <= currentHeight s -> Inv (rolled_back t s).
Proof.
  intros HI Ht. constructor.
  - intros x Hx. rewrite rolled_back_transactions in Hx.
    apply filter_In in Hx. destruct Hx as [Hx Hb].
    apply negb_true_iff, mem_false in Hb.
    apply survivor_block; [apply (inv_fk_tx HI)|]; assumption.
  - intros o Ho. rewrite rolled_back_outputs in Ho.
    apply filter_In in Ho. destruct Ho as [Ho Hg].
    apply negb_true_iff, mem_false in Hg.
    apply in_map_iff in Ho. destruct Ho as [r [<- Hr]].
    assert (Hid : OutputRow.tx_id
              (if spent_by_any (visited_transactions t s) r
               then Sql.set_unspent r else r) = OutputRow.tx_id r)
      by (destruct (spent_by_any _ r); reflexivity).
    rewrite Hid in *.
    apply survivor_transaction; [apply (inv_fk_out HI)|]; assumption.
  - rewrite rolled_back_outputs. apply NoDup_map_filter.
    rewrite out_key_unspend. apply HI.
  - intros o Ho Hsp. rewrite rolled_back_outputs in Ho.
    apply filter_In in Ho. destruct Ho as [Ho _].
    apply in_map_iff in Ho. destruct Ho as [r [<- Hr]].
    destruct (spent_by_any (visited_transactions t s) r) eqn:Hv; [discriminate|].
    destruct (inv_spender HI r Hr Hsp) as [x [Hx Hin]].
    exists x. split; [assumption|].
    apply survivor_transaction; [assumption|].
    unfold spent_by_any in Hv. rewrite Hx in Hv.
    rewrite mem_visited_gone in Hv. apply mem_false. assumption.
  - intros o Ho Hsp. rewrite rolled_back_outputs in Ho.
    apply filter_In in Ho. destruct Ho as [Ho _].
    apply in_map_iff in Ho. destruct Ho as [r [<- Hr]].
    destruct (spent_by_any (visited_transactions t s) r); [simpl; auto|].
    apply (inv_unspent HI); assumption.
  - intros h. rewrite heights_rolled_back, (inv_contig HI).
    rewrite currentHeight_rolled_back by assumption. lia.
  - intros o Ho. rewrite rolled_back_outputs in Ho.
    apply filter_In in Ho. destruct Ho as [Ho _].
    apply in_map_iff in Ho. destruct Ho as [r [<- Hr]].
    destruct (spent_by_any (visited_transactions t s) r); simpl;
      apply (inv_nonneg HI); assumption.
Qed.

End InvariantRollback.

(* ================================================================== *)
(** * Outcomes of [processBlock]; reachable ledgers                    *)
(* ================================================================== *)

Section Outcomes.
Local Open Scope Z_scope.

(** A refused block leaves the store as it was; the exception is the
    one of the failed check, or a plain [Error] of the apply phase. *)
Lemma processBlock_cases (s : Store) (b : Block.t) :
  match run (processBlock b) s with
  | (Ok _, s') => admission_check s b = Ok tt
  | (Err e, s') =>
      s' = s /\
      (admission_check s b = Err e \/
       (admission_check s b = Ok tt /\ class_of e = PlainError))
  end.
Proof.
  rewrite run_processBlock.
  destruct (admission_check s b) as [[]|e] eqn:Hc; [|auto].
  match goal with
  | |- context [run (try_catch (query_BEGIN ;; ?m) _) s] =>
      pose proof (@transaction_unit m s (fun _ => True)
                    (fun e => class_of e = PlainError)) as H
  end.
  lapply H; clear H.
  - intros H. destruct (run _ s) as [[[]|e] s']; [reflexivity|].
    destruct H as [-> He]. auto.
  - eapply triple_conseq.
    + apply (@apply_phase b s (eq s) (fun _ _ => True) (fun _ _ _ _ => True));
        intros; exact I.
    + intros c Hc'. exact Hc'.
    + intros a c [Hs _]. auto.
    + intros e c Hc'. exact Hc'.
Qed.

Lemma admission_ok_height s b :
  admission_check s b = Ok tt -> Block.height b = currentHeight s + 1.
Proof.
  unfold admission_check.
  destruct (Z.eqb_spec (Block.height b) (currentHeight s + 1)); simpl;
    [auto | discriminate].
Qed.

Lemma admission_ok_id s b :
  admission_check s b = Ok tt -> Block.id b = expected_id b.
Proof.
  unfold admission_check.
  destruct (negb (Block.height b =? currentHeight s + 1)); [discriminate|].
  destruct (String.eqb_spec (Block.id b) (expected_id b)); simpl;
    [auto | discriminate].
Qed.

(** An admitted block keeps the invariant and raises the height by one. *)
Lemma processBlock_Inv (s : Store) (b : Block.t) :
  Inv s -> nonneg_outputs b ->
  match run (processBlock b) s with
  | (Ok _, s') => Inv s' /\ currentHeight s' = currentHeight s + 1
  | (Err _, s') => s' = s
  end.
Proof.
  intros HI Hnn. pose proof (processBlock_cases s b) as Hcases.
  rewrite run_processBlock in *.
  destruct (admission_check s b) as [[]|e] eqn:Hc; [|reflexivity].
  pose proof (@transaction_unit _ s
                (fun s' => Inv s' /\ currentHeight s' = currentHeight s + 1)
                (fun e => class_of e = PlainError)
                (apply_phase_Inv HI Hnn (admission_ok_height _ _ Hc))) as H.
  destruct (run _ s) as [[[]|e] s']; [exact H | apply H].
Qed.

Variable config : Config.

Lemma rollback_Inv (s : Store) (t : Z) :
  Inv s -> Inv (snd (run (rollback config t) s)).
Proof.
  intros HI. rewrite run_rollback.
  destruct (Z.ltb_spec t 0); [assumption|].
  destruct (Z.ltb_spec (currentHeight s) t); [assumption|].
  destruct (maxRollbackBlocks config <? currentHeight s - t); [assumption|].
  simpl. apply rolled_back_Inv; [assumption | lia].
Qed.

Theorem reachable_Inv (s : Store) : reachable config s -> Inv s.
Proof.
  induction 1 as [| s b r s' Hr IH Hnn Hrun | s t r s' Hr IH Hrun].
  - apply Inv_empty.
  - pose proof (@processBlock_Inv s b IH Hnn) as H. rewrite Hrun in H.
    destruct r; [apply H | subst; assumption].
  - pose proof (@rollback_Inv s t IH) as H. rewrite Hrun in H. exact H.
Qed.

End Outcomes.

(* ================================================================== *)
(** * Height sequencing                                                *)
(* ================================================================== *)

Section Sequencing.
Local Open Scope Z_scope.

(** An admitted block is the one row added to [blocks]. *)
Lemma processBlock_blocks (s s' : Store) (b : Block.t) (u : unit) :
  run (processBlock b) s = (Ok u, s') ->
  tbl_blocks s' = tbl_blocks s ++ [BlockRow.make (Block.id b) (Block.height b)].
Proof.
  intros Hrun. pose proof (processBlock_cases s b) as Hc.
  rewrite run_processBlock in *. rewrite Hrun in Hc.
  rewrite Hc in Hrun.
  match type of Hrun with
  | run (try_catch (query_BEGIN ;; ?m) _) s = _ =>
      pose proof (@transaction_unit m s
        (fun s' => tbl_blocks s' =
                   tbl_blocks s ++ [BlockRow.make (Block.id b) (Block.height b)])
        (fun _ => True)) as H
  end.
  rewrite Hrun in H. apply H. clear H Hrun.
  eapply triple_conseq.
  - apply (@apply_phase b s (eq s)
      (fun _ s' => tbl_blocks s' =
                   tbl_blocks s ++ [BlockRow.make (Block.id b) (Block.height b)])
      (fun _ _ _ s' => tbl_blocks s' =
                       tbl_blocks s ++ [BlockRow.make (Block.id b) (Block.height b)])).
    + intros x x' <-. unfold Sql.insert_block.
      destruct (_ || _); [discriminate|]. intros H. injection H as <-. reflexivity.
    + intros done tx x x' _ Hx. unfold Sql.insert_transaction.
      destruct (Sql.mem _ _); [discriminate|].
      destruct (negb _); [discriminate|]. intros H. injection H as <-. exact Hx.
    + intros done tx seen inp i x _ _ Hx _. exact Hx.
    + intros done tx o i x x' _ _ Hx. unfold Sql.insert_output.
      destruct (existsb _ _); [discriminate|].
      destruct (negb _); [discriminate|]. intros H. injection H as <-. exact Hx.
    + intros done tx x Hx. exact Hx.
  - intros c Hc'. exact Hc'.
  - intros a c Hc'. exact Hc'.
  - intros e c [Hs _]. split; [exact Hs | exact I].
Qed.

Lemma processBlock_height (s s' : Store) (b : Block.t) (u : unit) :
  run (processBlock b) s = (Ok u, s') ->
  Block.height b = currentHeight s + 1 /\ currentHeight s' = currentHeight s + 1.
Proof.
  intros Hrun. pose proof (processBlock_cases s b) as Hc. rewrite Hrun in Hc.
  apply admission_ok_height in Hc. split; [assumption|].
  apply processBlock_blocks in Hrun. rewrite Hc in Hrun.
  destruct s as [bs txs outs]. simpl tbl_blocks in Hrun.
  rewrite <- (currentHeight_append bs txs outs (Block.id b)).
  apply currentHeight_blocks. exact Hrun.
Qed.

Lemma admit_all_heights (bs : list Block.t) :
  forall s s', admit_all bs s = Some s' ->
    currentHeight s' = currentHeight s + Z.of_nat (length bs) /\
    map Block.height bs
    = map (fun k => currentHeight s + Z.of_nat k) (seq 1 (length bs)).
Proof.
  induction bs as [|b bs IH]; intros s s' H; simpl in H.
  - injection H as <-. simpl. split; [lia | reflexivity].
  - destruct (run (processBlock b) s) as [[u|e] s1] eqn:Hrun; [|discriminate].
    apply processBlock_height in Hrun. destruct Hrun as [Hb Hs1].
    destruct (IH _ _ H) as [Hcur Hmap]. split.
    + rewrite Hcur, Hs1. simpl length. lia.
    + simpl. f_equal; [rewrite Hb; reflexivity|].
      rewrite Hmap, <- (seq_shift (length bs) 1), map_map. apply map_ext.
      intros k. rewrite Hs1. lia.
Qed.

End Sequencing.

(* ================================================================== *)
(** * What a committed block changed, and its undoing                  *)
(* ================================================================== *)

Section RoundTrip.
Local Open Scope Z_scope.

Lemma Forall2_refl_marked ids (l : list OutputRow.t) : Forall2 (marked_by ids) l l.
Proof. induction l; constructor; [left; reflexivity | assumption]. Qed.

Lemma marked_by_mono ids ids' o o' :
  incl ids ids' -> marked_by ids o o' -> marked_by ids' o o'.
Proof.
  intros Hi [H | [Hs [sp [si [Hin H]]]]]; [left; assumption|].
  right. split; [assumption|]. exists sp, si. auto.
Qed.

Lemma marked_by_update ids spender si t i o o' :
  In spender ids -> marked_by ids o o' ->
  marked_by ids o (if Sql.spendable t i o' then Sql.set_spent spender si o' else o').
Proof.
  intros Hin H. destruct (Sql.spendable t i o') eqn:Hsp; [|assumption].
  unfold Sql.spendable in Hsp. apply andb_true_iff in Hsp. destruct Hsp as [_ Hsp].
  apply negb_true_iff in Hsp.
  destruct H as [-> | [Hs [sp [si' [_ ->]]]]].
  - right. split; [assumption|]. exists spender, si. auto.
  - simpl in Hsp. discriminate.
Qed.

Lemma applied_step_block s b s' :
  Sql.insert_block (Block.id b) (Block.height b) s = Ok s' ->
  applied s b [] s'.
Proof.
  unfold Sql.insert_block.
  destruct (Sql.mem _ _) eqn:Hm; simpl; [discriminate|].
  destruct (existsb _ _); [discriminate|]. intros H. injection H as <-.
  exists (tbl_outputs s), []. simpl.
  repeat split.
  - apply mem_false. exact Hm.
  - rewrite app_nil_r. reflexivity.
  - intros tx [].
  - rewrite app_nil_r. reflexivity.
  - apply Forall2_refl_marked.
  - intros n [].
Qed.

Lemma applied_step_transaction s b done tx x x' :
  applied s b done x ->
  Sql.insert_transaction (Transaction.id tx) (Block.id b) x = Ok x' ->
  applied s b (done ++ [tx]) x'.
Proof.
  intros [olds [news [Hb [Hfresh [Ht [Hnew [Ho [Hf Hn]]]]]]]].
  unfold Sql.insert_transaction.
  destruct (Sql.mem _ _) eqn:Hm; [discriminate|].
  destruct (negb _); [discriminate|]. intros H. injection H as <-.
  apply mem_false in Hm.
  assert (Hincl : incl (map Transaction.id done) (map Transaction.id (done ++ [tx]))).
  { intros y Hy. rewrite map_app. apply in_or_app. left. assumption. }
  exists olds, news. simpl. repeat split; try assumption.
  - rewrite Ht, map_app, <- app_assoc. reflexivity.
  - intros tx' Hin. apply in_app_or in Hin. destruct Hin as [Hin | [<- | []]].
    + apply Hnew. assumption.
    + intros Hc. apply Hm. rewrite Ht, map_app. apply in_or_app. left. exact Hc.
  - eapply Forall2_impl; [|exact Hf]. intros o o'. apply marked_by_mono. exact Hincl.
  - intros n Hin. apply Hincl. apply Hn. assumption.
Qed.

Lemma applied_step_input s b done spender si t i x :
  In spender (map Transaction.id done) ->
  applied s b done x ->
  applied s b done (fst (Sql.update_spent spender si t i x)).
Proof.
  intros Hsp [olds [news [Hb [Hfresh [Ht [Hnew [Ho [Hf Hn]]]]]]]].
  set (f := fun r => if Sql.spendable t i r then Sql.set_spent spender si r else r).
  exists (map f olds), (map f news). simpl. repeat split; try assumption.
  - rewrite Ho, map_app. reflexivity.
  - clear Ho. induction Hf as [|o o' l l' Hoo Hll IH]; simpl; constructor.
    + apply marked_by_update; assumption.
    + assumption.
  - intros n Hin. apply in_map_iff in Hin. destruct Hin as [r [<- Hr]].
    unfold f. destruct (Sql.spendable t i r); simpl; apply Hn; assumption.
Qed.

Lemma applied_step_output s b done t i a v x x' :
  In t (map Transaction.id done) ->
  applied s b done x ->
  Sql.insert_output t i a v x = Ok x' ->
  applied s b done x'.
Proof.
  intros Hin [olds [news [Hb [Hfresh [Ht [Hnew [Ho [Hf Hn]]]]]]]].
  unfold Sql.insert_output.
  destruct (existsb _ _); [discriminate|].
  destruct (negb _); [discriminate|]. intros H. injection H as <-.
  exists olds, (news ++ [OutputRow.make t i a v false None None]).
  simpl. repeat split; try assumption.
  - rewrite Ho, app_assoc. reflexivity.
  - intros n Hn'. apply in_app_or in Hn'. destruct Hn' as [Hn' | [<- | []]].
    + apply Hn. assumption.
    + exact Hin.
Qed.

(** The tables after a committed block. *)
Lemma processBlock_applied (s s' : Store) (b : Block.t) (u : unit) :
  run (processBlock b) s = (Ok u, s') ->
  applied s b (Block.transactions b) s'.
Proof.
  intros Hrun. pose proof (processBlock_cases s b) as Hc.
  rewrite run_processBlock in *. rewrite Hrun in Hc. rewrite Hc in Hrun.
  match type of Hrun with
  | run (try_catch (query_BEGIN ;; ?m) _) s = _ =>
      pose proof (@transaction_unit m s
        (applied s b (Block.transactions b)) (fun _ => True)) as H
  end.
  rewrite Hrun in H. apply H. clear H Hrun.
  eapply triple_conseq.
  - apply (@apply_phase b s (eq s)
      (fun done s' => applied s b done s')
      (fun done tx _ s' => applied s b (done ++ [tx]) s')).
    + intros x x' <-. apply applied_step_block.
    + intros done tx x x' _. apply applied_step_transaction.
    + intros done tx seen inp i x _ _ Hx _.
      apply applied_step_input; [|assumption].
      rewrite map_app. apply in_or_app. right. left. reflexivity.
    + intros done tx o i x x' _ _ Hx Hins.
      eapply applied_step_output; [|exact Hx|exact Hins].
      rewrite map_app. apply in_or_app. right. left. reflexivity.
    + intros done tx x Hx. exact Hx.
  - intros c Hc'. exact Hc'.
  - intros a c Hc'. exact Hc'.
  - intros e c [Hs _]. split; [exact Hs | exact I].
Qed.

End RoundTrip.

Section Undo.
Local Open Scope Z_scope.

Lemma filter_all {A} (p : A -> bool) (l : list A) :
  (forall x, In x l -> p x = true) -> filter p l = l.
Proof.
  induction l as [|x l IH]; simpl; intros H; [reflexivity|].
  rewrite (H x) by auto. f_equal. apply IH. auto.
Qed.

Lemma filter_none {A} (p : A -> bool) (l : list A) :
  (forall x, In x l -> p x = false) -> filter p l = [].
Proof.
  induction l as [|x l IH]; simpl; intros H; [reflexivity|].
  rewrite (H x) by auto. apply IH. auto.
Qed.

Variables (s s' : Store) (b : Block.t) (done : list Transaction.t).
Hypothesis HI : Inv s.
Hypothesis Happ : applied s b done s'.
Hypothesis Hh : Block.height b = currentHeight s + 1.

Let new_ids : list string := map Transaction.id done.

Lemma undo_gone_blocks : gone_blocks (currentHeight s) s' = [Block.id b].
Proof.
  destruct Happ as [olds [news [Hb _]]].
  unfold gone_blocks. rewrite Hb, filter_app, map_app. simpl.
  rewrite filter_none.
  - rewrite Hh. replace (currentHeight s <? currentHeight s + 1) with true
      by (symmetry; apply Z.ltb_lt; lia). reflexivity.
  - intros x Hx. apply Z.ltb_ge. apply currentHeight_bound.
    unfold heights. apply in_map. assumption.
Qed.

Lemma undo_blocks : tbl_blocks (rolled_back (currentHeight s) s') = tbl_blocks s.
Proof.
  destruct Happ as [olds [news [Hb _]]].
  rewrite rolled_back_blocks, Hb, filter_app. simpl.
  rewrite Hh. replace (currentHeight s <? currentHeight s + 1) with true
    by (symmetry; apply Z.ltb_lt; lia). simpl. rewrite app_nil_r.
  apply filter_all. intros x Hx. apply negb_true_iff, Z.ltb_ge.
  apply currentHeight_bound. unfold heights. apply in_map. assumption.
Qed.

Lemma old_transaction_block x :
  In x (tbl_transactions s) ->
  Sql.mem (TransactionRow.block_id x) [Block.id b] = false.
Proof.
  intros Hx. destruct Happ as [olds [news [_ [Hfresh _]]]].
  apply mem_false. intros [Heq | []]. apply Hfresh. rewrite Heq.
  apply (inv_fk_tx HI). assumption.
Qed.

Lemma undo_gone_transactions :
  gone_transactions (currentHeight s) s' = new_ids.
Proof.
  pose proof Happ as [olds [news [_ [_ [Ht _]]]]].
  unfold gone_transactions. rewrite undo_gone_blocks, Ht, filter_app, map_app.
  rewrite filter_none by (intros x Hx; apply old_transaction_block; assumption).
  simpl. rewrite filter_all.
  - rewrite map_map. reflexivity.
  - intros x Hx. apply in_map_iff in Hx. destruct Hx as [tx [<- _]]. simpl.
    rewrite String.eqb_refl. reflexivity.
Qed.

Lemma undo_transactions :
  tbl_transactions (rolled_back (currentHeight s) s') = tbl_transactions s.
Proof.
  pose proof Happ as [olds [news [_ [_ [Ht _]]]]].
  rewrite rolled_back_transactions, undo_gone_blocks, Ht, filter_app.
  rewrite filter_all
    by (intros x Hx; apply negb_true_iff; apply old_transaction_block; assumption).
  rewrite filter_none; [apply app_nil_r|].
  intros x Hx. apply in_map_iff in Hx. destruct Hx as [tx [<- _]].
  apply negb_false_iff. apply mem_In. left. reflexivity.
Qed.

Lemma new_ids_fresh x : In x new_ids -> ~ In x (tx_ids s).
Proof.
  destruct Happ as [olds [news [_ [_ [_ [Hnew _]]]]]].
  intros Hx. apply in_map_iff in Hx. destruct Hx as [tx [<- Htx]]. auto.
Qed.

(** The spender of an old output is not one of the new transactions. *)
Lemma old_output_spender o :
  In o (tbl_outputs s) -> spent_by_any new_ids o = false.
Proof.
  intros Ho. unfold spent_by_any.
  destruct (OutputRow.spent_by_tx o) as [x|] eqn:Hx; [|reflexivity].
  apply mem_false. intros Hin.
  destruct (OutputRow.spent o) eqn:Hsp.
  - destruct (inv_spender HI o Ho Hsp) as [y [Hy Hyin]].
    rewrite Hx in Hy. injection Hy as <-.
    exact (@new_ids_fresh x Hin Hyin).
  - destruct (inv_unspent HI o Ho Hsp) as [Hn _]. congruence.
Qed.

Lemma old_output_kept o :
  In o (tbl_outputs s) -> Sql.mem (OutputRow.tx_id o) new_ids = false.
Proof.
  intros Ho. apply mem_false. intros Hin.
  exact (@new_ids_fresh _ Hin (inv_fk_out HI o Ho)).
Qed.

(** Unspending restores an old output, whether the block marked it or not. *)
Lemma undo_old_output o o' :
  In o (tbl_outputs s) -> marked_by new_ids o o' ->
  (if spent_by_any new_ids o' then Sql.set_unspent o' else o') = o.
Proof.
  intros Ho [-> | [Hsp [spender [si [Hin ->]]]]].
  - rewrite old_output_spender by assumption. reflexivity.
  - unfold spent_by_any. simpl.
    replace (Sql.mem spender new_ids) with true
      by (symmetry; apply mem_In; assumption).
    destruct (inv_unspent HI o Ho Hsp) as [H1 H2].
    apply set_unspent_set_spent; assumption.
Qed.

Lemma spent_by_any_ext L L' r :
  (forall x, Sql.mem x L = Sql.mem x L') -> spent_by_any L r = spent_by_any L' r.
Proof.
  intros H. unfold spent_by_any. destruct (OutputRow.spent_by_tx r); auto.
Qed.

Lemma undo_outputs :
  tbl_outputs (rolled_back (currentHeight s) s') = tbl_outputs s.
Proof.
  pose proof Happ as [olds [news [_ [_ [_ [_ [Ho [Hf Hn]]]]]]]].
  rewrite rolled_back_outputs, undo_gone_transactions.
  unfold unspend_many.
  rewrite (map_ext _ (fun r => if spent_by_any new_ids r then Sql.set_unspent r else r)).
  2:{ intros r. rewrite (@spent_by_any_ext _ new_ids); [reflexivity|].
      intros x. rewrite mem_visited_gone, undo_gone_transactions. reflexivity. }
  rewrite Ho, map_app, filter_app.
  rewrite (@filter_none _ _ (map _ news)).
  2:{ intros x Hx. apply in_map_iff in Hx. destruct Hx as [r [<- Hr]].
      apply negb_false_iff. apply mem_In.
      destruct (spent_by_any new_ids r); simpl; apply Hn; assumption. }
  rewrite app_nil_r.
  assert (G : forall l l', Forall2 (marked_by new_ids) l l' ->
            (forall o, In o l -> In o (tbl_outputs s)) ->
            filter (fun o => negb (Sql.mem (OutputRow.tx_id o) new_ids))
                   (map (fun r => if spent_by_any new_ids r
                                  then Sql.set_unspent r else r) l') = l).
  { induction 1 as [|o o' l l' Hoo Hll IH]; intros Hsub; simpl; [reflexivity|].
    rewrite (undo_old_output (Hsub o (or_introl eq_refl)) Hoo).
    rewrite old_output_kept by (apply Hsub; left; reflexivity). simpl.
    f_equal. apply IH. intros x Hx. apply Hsub. right. assumption. }
  apply G; auto.
Qed.

(** Rolling back to the previous height undoes the block. *)
Lemma undo_store : rolled_back (currentHeight s) s' = s.
Proof.
  pose proof undo_blocks as H1. pose proof undo_transactions as H2.
  pose proof undo_outputs as H3.
  destruct (rolled_back (currentHeight s) s') as [x y z], s as [x0 y0 z0].
  simpl in *. congruence.
Qed.

End Undo.

(* ================================================================== *)
(** * Balances                                                         *)
(* ================================================================== *)

Section Balances.
Local Open Scope Q_scope.















End Balances.

(* ================================================================== *)
(** * One output referenced twice inside a block                       *)
(* ================================================================== *)

Section DuplicateInput.
Local Open Scope Z_scope.

Variables (t : string) (i : Z).




Lemma key_after_update spender si t' i' r :
  Sql.output_key t i
    (if Sql.spendable t' i' r then Sql.set_spent spender si r else r)
  = Sql.output_key t i r.
Proof. destruct (Sql.spendable t' i' r); reflexivity. Qed.

Lemma consumed_after_first_mark spender si s :
  length (filter (Sql.spendable t i) (tbl_outputs s)) <> 0%nat ->
  consumed t i (fst (Sql.update_spent spender si t i s)).
Proof.
  intros Hn. unfold consumed, Sql.update_spent. simpl. split.
  - destruct (filter (Sql.spendable t i) (tbl_outputs s)) as [|r rs] eqn:E;
      [contradiction|].
    assert (Hr : In r (filter (Sql.spendable t i) (tbl_outputs s)))
      by (rewrite E; left; reflexivity).
    apply filter_In in Hr. destruct Hr as [Hr Hsp].
    exists (Sql.set_spent spender si r). split.
    + apply in_map_iff. exists r. rewrite Hsp. auto.
    + unfold Sql.spendable in Hsp. apply andb_true_iff in Hsp. apply Hsp.
  - intros r' Hr' Hk. apply in_map_iff in Hr'. destruct Hr' as [r [<- Hr]].
    rewrite key_after_update in Hk.
    unfold Sql.spendable. rewrite Hk. simpl.
    destruct (OutputRow.spent r) eqn:E; simpl; [exact E | reflexivity].
Qed.

Lemma consumed_after_other_mark spender si t' i' s :
  consumed t i s -> consumed t i (fst (Sql.update_spent spender si t' i' s)).
Proof.
  intros [[r [Hr Hk]] Hall]. unfold consumed, Sql.update_spent. simpl. split.
  - exists (if Sql.spendable t' i' r then Sql.set_spent spender si r else r).
    split; [|rewrite key_after_update; assumption].
    apply in_map_iff. exists r. auto.
  - intros r' Hr' Hk'. apply in_map_iff in Hr'. destruct Hr' as [r0 [<- Hr0]].
    rewrite key_after_update in Hk'.
    destruct (Sql.spendable t' i' r0); [reflexivity | auto].
Qed.

Lemma consumed_after_insert t' i' a v s s' :
  consumed t i s -> Sql.insert_output t' i' a v s = Ok s' -> consumed t i s'.
Proof.
  intros [[r [Hr Hk]] Hall]. unfold Sql.insert_output.
  destruct (existsb (Sql.output_key t' i') (tbl_outputs s)) eqn:Hex; [discriminate|].
  destruct (negb _); [discriminate|]. intros H. injection H as <-.
  unfold consumed. simpl. split.
  - exists r. split; [apply in_or_app; left; assumption | assumption].
  - intros r' Hr' Hk'. apply in_app_or in Hr'. destruct Hr' as [Hr' | [<- | []]].
    + auto.
    + exfalso. unfold Sql.output_key in Hk'. simpl in Hk'.
      apply andb_true_iff in Hk'. destruct Hk' as [H1 H2].
      apply String.eqb_eq in H1. apply Z.eqb_eq in H2. subst t' i'.
      assert (existsb (Sql.output_key t i) (tbl_outputs s) = true)
        by (apply existsb_exists; exists r; auto).
      congruence.
Qed.




End DuplicateInput.

(* ================================================================== *)
(** * The digest is sixty-four lowercase hexadecimal characters        *)
(* ================================================================== *)

Section Hex.
Local Open Scope Z_scope.








(** FIPS 180-4 test vectors, and the identifier of the block of the
    programming interface's documentation. *)
Example sha256_empty :
  Sha256.sha256_hex "" =
  "e3b0c44298fc1c149afbf4c8996fb92427ae41e4649b934ca495991b7852b855"%string.
Proof. vm_compute. reflexivity. Qed.

Example sha256_abc :
  Sha256.sha256_hex "abc" =
  "ba7816bf8f01cfea414140de5dae2223b00361a396177a9cb410ff61f20015ad"%string.
Proof. vm_compute. reflexivity. Qed.

Example sha256_two_blocks :
  Sha256.sha256_hex "abcdbcdecdefdefgefghfghighijhijkijkljklmklmnlmnomnopnopq" =
  "248d6a61d20638b8e5c026930c3e6039a33ce45964ff2167f6ecedd419db06c1"%string.
Proof. vm_compute. reflexivity. Qed.

Example round_constants :
  length Sha256.K = 64%nat /\
  hd 0 Sha256.K = 0x428a2f98 /\ last Sha256.K 0 = 0xc67178f2 /\
  Sha256.ra Sha256.H0 = 0x6a09e667 /\ Sha256.rh Sha256.H0 = 0x5be0cd19.
Proof. vm_compute. repeat split; reflexivity. Qed.

Example toString_decimal :
  toString 0 = "0"%string /\ toString 2001 = "2001"%string /\
  toString (-7) = "-7"%string.
Proof. vm_compute. repeat split; reflexivity. Qed.

Example hash_of_height_2_without_transactions :
  calculateBlockHash 2 [] =
  "d4735e3a265e16eee03f59718b9b5d03019c07d8b6c51f90da3a666eec13ab35"%string.
Proof. vm_compute. reflexivity. Qed.

End Hex.

(* ================================================================== *)
(** * What the structural validator lets through                       *)
(* ================================================================== *)

Section Validator.
Import Js BlockValidator.
Local Open Scope Q_scope.

Lemma string_shape v :
  negb (is_type v TString) || negb (truthy v) = false ->
  exists s, v = Str s /\ s <> EmptyString.
Proof.
  destruct v; simpl; try discriminate.
  intros H. exists s. split; [reflexivity|].
  apply negb_false_iff in H. apply negb_true_iff in H.
  apply String.eqb_neq. exact H.
Qed.

Lemma number_shape v bound :
  negb (is_type v TNumber) || lt v bound = false ->
  exists q, v = Number q /\ bound <= q.
Proof.
  destruct v; simpl; try discriminate.
  intros H. exists q. split; [reflexivity|].
  unfold Qlt_bool in H. apply negb_false_iff in H.
  apply Qle_bool_iff. exact H.
Qed.

Lemma string_shape_conv s :
  s <> EmptyString ->
  negb (is_type (Str s) TString) || negb (truthy (Str s)) = false.
Proof.
  intros H. simpl. apply negb_false_iff, negb_true_iff. apply String.eqb_neq. exact H.
Qed.

Lemma number_shape_conv q bound :
  bound <= q -> negb (is_type (Number q) TNumber) || lt (Number q) bound = false.
Proof.
  intros H. simpl. unfold Qlt_bool. apply negb_false_iff.
  apply Qle_bool_iff. exact H.
Qed.

(** An object, as [!data || typeof data !== 'object'] lets it through. *)
Lemma object_shape v :
  negb (truthy v) || negb (is_type v TObject) = false ->
  (exists items, v = Array items) \/ (exists props, v = Object props).
Proof.
  destruct v; simpl; try discriminate; eauto.
  destruct b; discriminate.
  destruct (negb (Qeq_bool q 0)); discriminate.
  destruct (negb (s =? "")%string); discriminate.
Qed.

Lemma validateInputSchema_ok data v :
  validateInputSchema data = Ok v ->
  exists t i, get data "txId" = Str t /\ t <> EmptyString /\
              get data "index" = Number i /\ 0 <= i.
Proof.
  unfold validateInputSchema.
  destruct (negb (truthy data) || negb (is_type data TObject)); [discriminate|].
  destruct (negb (is_type (get data "txId") TString) || _) eqn:E1; [discriminate|].
  destruct (negb (is_type (get data "index") TNumber) || _) eqn:E2; [discriminate|].
  intros _. apply string_shape in E1. apply number_shape in E2.
  destruct E1 as [t [H1 H2]]. destruct E2 as [i [H3 H4]].
  exists t, i. auto.
Qed.

Lemma validateInputSchema_accepts t i rest :
  t <> EmptyString -> 0 <= i ->
  validateInputSchema (Object (("txId"%string, Str t) :: ("index"%string, Number i) :: rest))
  = Ok (Object [("txId"%string, Str t); ("index"%string, Number i)]).
Proof.
  intros Ht Hi. unfold validateInputSchema. simpl.
  apply String.eqb_neq in Ht. rewrite Ht. simpl.
  unfold Qlt_bool. apply Qle_bool_iff in Hi. rewrite Hi. reflexivity.
Qed.

Lemma validateOutputSchema_ok data v :
  validateOutputSchema data = Ok v ->
  exists a q, v = Object [("address"%string, Str a); ("value"%string, Number q)] /\
              a <> EmptyString /\ 0 <= q.
Proof.
  unfold validateOutputSchema.
  destruct (negb (truthy data) || negb (is_type data TObject)); [discriminate|].
  destruct (negb (is_type (get data "address") TString) || _) eqn:E1; [discriminate|].
  destruct (negb (is_type (get data "value") TNumber) || _) eqn:E2; [discriminate|].
  intros H. injection H as <-. apply string_shape in E1. apply number_shape in E2.
  destruct E1 as [a [H1 H2]]. destruct E2 as [q [H3 H4]].
  exists a, q. rewrite H1, H3. auto.
Qed.

Lemma validateBlockSchema_ok data v :
  validateBlockSchema data = Ok v ->
  exists id h txs,
    get data "id" = Str id /\ id <> EmptyString /\
    get data "height" = Number h /\ 1 <= h /\
    get data "transactions" = Array txs /\
    is_ok (map_throw validateTransactionSchema txs) = true.
Proof.
  unfold validateBlockSchema.
  destruct (negb (truthy data) || negb (is_type data TObject)); [discriminate|].
  destruct (negb (is_type (get data "id") TString) || _) eqn:E1; [discriminate|].
  destruct (negb (is_type (get data "height") TNumber) || _) eqn:E2; [discriminate|].
  destruct (get data "transactions") as [| | | | |txs|] eqn:E3; try discriminate.
  destruct (map_throw validateTransactionSchema txs) eqn:E4; [|discriminate].
  intros _. apply string_shape in E1. apply number_shape in E2.
  destruct E1 as [id [H1 H2]]. destruct E2 as [h [H3 H4]].
  exists id, h, txs. rewrite E4. repeat split; assumption || reflexivity.
Qed.

Lemma validateBlockSchema_accepts id h txs txs' rest :
  id <> EmptyString -> 1 <= h ->
  map_throw validateTransactionSchema txs = Ok txs' ->
  validateBlockSchema
    (Object (("id"%string, Str id) :: ("height"%string, Number h) ::
             ("transactions"%string, Array txs) :: rest))
  = Ok (Object [("id"%string, Str id); ("height"%string, Number h);
                ("transactions"%string, Array txs')]).
Proof.
  intros Hid Hh Htx. unfold validateBlockSchema. simpl.
  apply String.eqb_neq in Hid. rewrite Hid. simpl.
  unfold Qlt_bool. apply Qle_bool_iff in Hh. rewrite Hh. simpl.
  rewrite Htx. reflexivity.
Qed.

End Validator.

Section Typed_documents.
Import BlockValidator.
Local Open Scope Q_scope.

Lemma map_throw_Forall2 f l l' :
  map_throw f l = Ok l' -> Forall2 (fun x y => f x = Ok y) l l'.
Proof.
  revert l'. induction l as [|x l IH]; simpl; intros l' H.
  - injection H as <-. constructor.
  - destruct (f x) as [y|e] eqn:E; [|discriminate].
    destruct (map_throw f l) as [ys|e]; [|discriminate].
    injection H as <-. constructor; auto.
Qed.

Lemma map_option_Forall2 {A B} (g : A -> option B) l l' :
  map_option g l = Some l' -> Forall2 (fun x y => g x = Some y) l l'.
Proof.
  revert l'. induction l as [|x l IH]; simpl; intros l' H.
  - injection H as <-. constructor.
  - destruct (g x) as [y|] eqn:E; [|discriminate].
    destruct (map_option g l) as [ys|]; [|discriminate].
    injection H as <-. constructor; auto.
Qed.

Lemma validated_output_nonneg data v o :
  validateOutputSchema data = Ok v -> output_of_js v = Some o -> 0 <= value o.
Proof.
  intros Hv Ho. apply validateOutputSchema_ok in Hv.
  destruct Hv as [a [q [-> [_ Hq]]]]. unfold output_of_js in Ho. simpl in Ho.
  injection Ho as <-. exact Hq.
Qed.

Lemma validated_outputs_nonneg ds vs os :
  Forall2 (fun x y => validateOutputSchema x = Ok y) ds vs ->
  Forall2 (fun x y => output_of_js x = Some y) vs os ->
  forall o, In o os -> 0 <= value o.
Proof.
  intros H1. revert os. induction H1 as [|d v ds vs Hd Hds IH]; intros os H2.
  - inversion H2. intros o [].
  - inversion H2 as [|v' o' vs' os' Ho Hos]; subst.
    intros o [<- | Hin].
    + eapply validated_output_nonneg; eassumption.
    + eapply IH; eassumption.
Qed.

Lemma validated_transaction_nonneg data v tx :
  validateTransactionSchema data = Ok v -> transaction_of_js v = Some tx ->
  forall o, In o (Transaction.outputs tx) -> 0 <= value o.
Proof.
  unfold validateTransactionSchema.
  destruct (negb (Js.truthy data) || negb (Js.is_type data Js.TObject)); [discriminate|].
  destruct (negb (Js.is_type (Js.get data "id") Js.TString) || _); [discriminate|].
  destruct (Js.get data "inputs") as [| | | | |ins|]; try discriminate.
  destruct (Js.get data "outputs") as [| | | | |outs|]; try discriminate.
  destruct (map_throw validateInputSchema ins) as [ins'|]; [|discriminate].
  destruct (map_throw validateOutputSchema outs) as [outs'|] eqn:Eo; [|discriminate].
  intros H. injection H as <-. unfold transaction_of_js. simpl.
  destruct (Js.get data "id"); try discriminate.
  destruct (map_option input_of_js ins'); [|discriminate].
  destruct (map_option output_of_js outs') as [os|] eqn:Eos; [|discriminate].
  intros H. injection H as <-. simpl.
  eapply validated_outputs_nonneg.
  - apply map_throw_Forall2. exact Eo.
  - apply map_option_Forall2. exact Eos.
Qed.

(** The values of a block that went through the validator are
    non-negative. *)
Lemma validated_block_nonneg data v b :
  validateBlockSchema data = Ok v -> block_of_js v = Some b -> nonneg_outputs b.
Proof.
  unfold validateBlockSchema.
  destruct (negb (Js.truthy data) || negb (Js.is_type data Js.TObject)); [discriminate|].
  destruct (negb (Js.is_type (Js.get data "id") Js.TString) || _); [discriminate|].
  destruct (negb (Js.is_type (Js.get data "height") Js.TNumber) || _); [discriminate|].
  destruct (Js.get data "transactions") as [| | | | |txs|]; try discriminate.
  destruct (map_throw validateTransactionSchema txs) as [txs'|] eqn:Et; [|discriminate].
  intros H. injection H as <-. unfold block_of_js. simpl.
  destruct (Js.get data "id"); try discriminate.
  destruct (Js.get data "height"); try discriminate.
  destruct (is_integer q); [|discriminate].
  destruct (map_option transaction_of_js txs') as [tl|] eqn:Etl; [|discriminate].
  intros H. injection H as <-.
  apply map_throw_Forall2 in Et. apply map_option_Forall2 in Etl.
  unfold nonneg_outputs, all_outputs. simpl. clear - Et Etl.
  revert tl Etl. induction Et as [|d v ds vs Hd Hds IH]; intros tl Etl.
  - inversion Etl. intros o [].
  - inversion Etl as [|v' tx vs' tl' Htx Htl]; subst. simpl.
    intros o Ho. apply in_app_or in Ho. destruct Ho as [Ho | Ho].
    + eapply validated_transaction_nonneg; eassumption.
    + eapply IH; eassumption.
Qed.

End Typed_documents.

(* ================================================================== *)
(** * The scenario of the documentation                                *)
(* ================================================================== *)

Section Scenario.
Local Open Scope Z_scope.

Example genesis_admitted :
  run (processBlock genesis) empty_store = (Ok tt, ledger1).
Proof. vm_compute. reflexivity. Qed.

Example block2_admitted :
  run (processBlock block2) ledger1 = (Ok tt, ledger2).
Proof. vm_compute. reflexivity. Qed.

Example scenario_balances :
  balanceForAddress "addr1" ledger1 = 100%Q /\
  balanceForAddress "addr1" ledger2 = 0%Q /\
  balanceForAddress "addr2" ledger2 = 40%Q /\
  balanceForAddress "addr3" ledger2 = 60%Q.
Proof. vm_compute. repeat split; reflexivity. Qed.

Example respend_is_a_conflict :
  run (processBlock block3_respend) ledger2 = (Err (DoubleSpend "tx1" 0), ledger2).
Proof. vm_compute. reflexivity. Qed.

Example rollback_to_1 :
  run (rollback defaultConfig 1) ledger2 = (Ok tt, ledger1).
Proof. vm_compute. reflexivity. Qed.

Example twice_fails_in_apply :
  run (validateBlock block2_twice) ledger1 = (Ok tt, ledger1) /\
  run (processBlock block2_twice) ledger1
  = (Err (OutputNotSpendable "tx1" 0), ledger1).
Proof. vm_compute. split; reflexivity. Qed.

Lemma ledger1_reachable config : reachable config ledger1.
Proof.
  apply (@reach_block config empty_store genesis (Ok tt) ledger1).
  - apply reach_empty.
  - intros o Ho. vm_compute in Ho. destruct Ho as [<- | []]. vm_compute. discriminate.
  - apply genesis_admitted.
Qed.

Lemma ledger2_reachable config : reachable config ledger2.
Proof.
  apply (@reach_block config ledger1 block2 (Ok tt) ledger2).
  - apply ledger1_reachable.
  - intros o Ho. vm_compute in Ho.
    destruct Ho as [<- | [<- | []]]; vm_compute; discriminate.
  - apply block2_admitted.
Qed.

End Scenario.

(* ================================================================== *)
(** * Properties of block admission                                    *)
(* ================================================================== *)

Section Admission.
Local Open Scope Z_scope.

Lemma admission_error_unchanged s b e :
  admission_check s b = Err e -> run (processBlock b) s = (Err e, s).
Proof. intros H. rewrite run_processBlock, H. reflexivity. Qed.





(** C1. Admission succeeds only if the height of the block is
    [currentHeight + 1]; otherwise it fails with the sequencing error that
    carries the expected and the actual height, and the ledger is
    unchanged.  Hence after admitting a sequence of [n] blocks into the
    empty ledger the current height is [n] (their heights being 1..n), and
    it is 0 on the empty ledger. *)
Theorem C1_height_sequencing (s : Store) (b : Block.t) :
  (Block.height b <> currentHeight s + 1 ->
     run (processBlock b) s =
     (Err (InvalidHeight (currentHeight s + 1) (Block.height b)), s)) /\
  (forall u s', run (processBlock b) s = (Ok u, s') ->
     Block.height b = currentHeight s + 1 /\ currentHeight s' = Block.height b) /\
  (forall bs s', admit_all bs empty_store = Some s' ->
     currentHeight s' = Z.of_nat (length bs) /\
     map Block.height bs = map Z.of_nat (seq 1 (length bs))) /\
  currentHeight empty_store = 0.
Proof.
  split; [|split; [|split]].
  - intros Hh. apply admission_error_unchanged. unfold admission_check.
    destruct (Z.eqb_spec (Block.height b) (currentHeight s + 1)); [contradiction|].
    reflexivity.
  - intros u s' Hrun. apply processBlock_height in Hrun.
    destruct Hrun as [H1 H2]. split; [assumption | congruence].
  - intros bs s' H. apply admit_all_heights in H. exact H.
  - reflexivity.
Qed.

Lemma C1_height_sequencing_witness :
  admit_all [genesis; block2] empty_store = Some ledger2 /\
  currentHeight ledger2 = 2.
Proof.
  assert (Hadmit : admit_all [genesis; block2] empty_store = Some ledger2)
    by (vm_compute; reflexivity).
  split; [exact Hadmit|].
  exact (proj1 (proj1 (proj2 (proj2 (C1_height_sequencing empty_store genesis)))
                  [genesis; block2] ledger2 Hadmit)).
Defined.







End Admission.

(* ================================================================== *)
(** * Properties of rollback, balances and atomic units                *)
(* ================================================================== *)

Section Ledger_properties.
Local Open Scope Z_scope.

Lemma Forall2_In_r {A B} (R : A -> B -> Prop) l l' y :
  Forall2 R l l' -> In y l' -> exists x, In x l /\ R x y.
Proof.
  induction 1 as [|a b0 l l' Hab Hll IH]; simpl; [tauto|].
  intros [<- | Hy].
  - exists a. auto.
  - destruct (IH Hy) as [x [Hx HR]]. exists x. auto.
Qed.

(** C5. For a reachable ledger [s] and a block [b] admitted in it, rolling
    back to [b.height - 1] (the configured depth allowing one block)
    succeeds and gives back [s], hence the same unspent-output set: no
    output of a transaction of [b] remains, and every other output that a
    transaction of [b] had spent is there again, unspent and without
    spender reference. *)
Theorem C5_apply_then_rollback (config : Config) (s s' : Store) (b : Block.t) :
  reachable config s ->
  1 <= maxRollbackBlocks config ->
  run (processBlock b) s = (Ok tt, s') ->
  run (rollback config (Block.height b - 1)) s' = (Ok tt, s) /\
  unspent_set (snd (run (rollback config (Block.height b - 1)) s')) = unspent_set s /\
  (forall o, In o (tbl_outputs (snd (run (rollback config (Block.height b - 1)) s'))) ->
     ~ In (OutputRow.tx_id o) (map Transaction.id (Block.transactions b))) /\
  (forall o x,
     In o (tbl_outputs s') ->
     OutputRow.spent_by_tx o = Some x ->
     In x (map Transaction.id (Block.transactions b)) ->
     ~ In (OutputRow.tx_id o) (map Transaction.id (Block.transactions b)) ->
     In (Sql.set_unspent o)
        (tbl_outputs (snd (run (rollback config (Block.height b - 1)) s'))) /\
     OutputRow.spent (Sql.set_unspent o) = false /\
     OutputRow.spent_by_tx (Sql.set_unspent o) = None /\
     OutputRow.spent_by_index (Sql.set_unspent o) = None).
Proof.
  intros Hreach Hmax Hrun.
  pose proof (reachable_Inv Hreach) as HI.
  pose proof (processBlock_height _ _ Hrun) as [Hh Hcur].
  pose proof (processBlock_applied _ _ Hrun) as Happ.
  pose proof (currentHeight_nonneg HI) as Hnn.
  assert (Hback : run (rollback config (Block.height b - 1)) s' = (Ok tt, s)).
  { rewrite run_rollback.
    replace (Block.height b - 1) with (currentHeight s) by lia.
    destruct (Z.ltb_spec (currentHeight s) 0); [lia|].
    destruct (Z.ltb_spec (currentHeight s') (currentHeight s)); [lia|].
    destruct (Z.ltb_spec (maxRollbackBlocks config)
                         (currentHeight s' - currentHeight s)); [lia|].
    rewrite (undo_store HI Happ Hh). reflexivity. }
  rewrite Hback. simpl snd.
  destruct Happ as [olds [news [_ [_ [_ [Hfresh [Ho [Hf Hn]]]]]]]].
  split; [reflexivity|]. split; [reflexivity|]. split.
  - intros o Hin Hid. apply in_map_iff in Hid. destruct Hid as [tx [Hid Htx]].
    apply (Hfresh tx Htx). rewrite Hid. apply (inv_fk_out HI). exact Hin.
  - intros o x Hin Hx Hxin Hnew.
    split; [|repeat split; reflexivity].
    rewrite Ho in Hin. apply in_app_or in Hin. destruct Hin as [Hin | Hin].
    + destruct (@Forall2_In_r _ _ _ _ _ _ Hf Hin) as [o0 [Ho0 [-> | [Hsp [sp [si [_ ->]]]]]]].
      * exfalso. destruct (OutputRow.spent o0) eqn:Hsp.
        -- destruct (inv_spender HI o0 Ho0 Hsp) as [y [Hy Hyin]].
           rewrite Hx in Hy. injection Hy as <-.
           apply in_map_iff in Hxin. destruct Hxin as [tx [Hid Htx]].
           apply (Hfresh tx Htx). rewrite Hid. exact Hyin.
        -- destruct (inv_unspent HI o0 Ho0 Hsp) as [Hnone _]. congruence.
      * destruct (inv_unspent HI o0 Ho0 Hsp) as [H1 H2].
        rewrite (@set_unspent_set_spent sp si o0 Hsp H1 H2). exact Ho0.
    + exfalso. apply Hnew. apply Hn. exact Hin.
Qed.

Lemma C5_apply_then_rollback_witness :
  run (rollback defaultConfig (Block.height block2 - 1)) ledger2 = (Ok tt, ledger1).
Proof.
  assert (Hdepth : 1 <= maxRollbackBlocks defaultConfig)
    by (vm_compute; discriminate).
  exact (proj1 (@C5_apply_then_rollback defaultConfig ledger1 ledger2 block2
                  (ledger1_reachable defaultConfig) Hdepth block2_admitted)).
Defined.

(** C6. The guards of [rollback] are tested in the order [t >= 0] (else
    the parameter error), [t <= currentHeight] (else the future-height
    error), [currentHeight - t <= maxRollbackBlocks] (else the
    excessive-rollback error), each failure leaving the ledger unchanged;
    when the three hold on a reachable ledger the rollback succeeds and
    the current height becomes [t].  The configured maximum is 2000 by
    default. *)
Theorem C6_rollback_preconditions (config : Config) (s : Store) (t : Z) :
  reachable config s ->
  (t < 0 -> run (rollback config t) s = (Err InvalidHeightParameter, s)) /\
  (0 <= t -> currentHeight s < t ->
     run (rollback config t) s = (Err (FutureHeight (currentHeight s) t), s)) /\
  (0 <= t <= currentHeight s -> maxRollbackBlocks config < currentHeight s - t ->
     run (rollback config t) s =
     (Err (ExcessiveRollback (maxRollbackBlocks config) (currentHeight s) t), s)) /\
  (0 <= t <= currentHeight s -> currentHeight s - t <= maxRollbackBlocks config ->
     exists s', run (rollback config t) s = (Ok tt, s') /\ currentHeight s' = t) /\
  maxRollbackBlocks defaultConfig = 2000.
Proof.
  intros Hreach. pose proof (reachable_Inv Hreach) as HI.
  rewrite run_rollback.
  split; [|split; [|split; [|split]]].
  - intros H. destruct (Z.ltb_spec t 0); [reflexivity | lia].
  - intros H0 H. destruct (Z.ltb_spec t 0); [lia|].
    destruct (Z.ltb_spec (currentHeight s) t); [reflexivity | lia].
  - intros H0 H. destruct (Z.ltb_spec t 0); [lia|].
    destruct (Z.ltb_spec (currentHeight s) t); [lia|].
    destruct (Z.ltb_spec (maxRollbackBlocks config) (currentHeight s - t));
      [reflexivity | lia].
  - intros H0 H. destruct (Z.ltb_spec t 0); [lia|].
    destruct (Z.ltb_spec (currentHeight s) t); [lia|].
    destruct (Z.ltb_spec (maxRollbackBlocks config) (currentHeight s - t)); [lia|].
    exists (rolled_back t s). split; [reflexivity|].
    apply currentHeight_rolled_back; assumption.
  - reflexivity.
Qed.

Lemma C6_rollback_preconditions_witness :
  exists s', run (rollback defaultConfig 0) ledger2 = (Ok tt, s') /\
             currentHeight s' = 0.
Proof.
  assert (Hrange : 0 <= 0 <= currentHeight ledger2)
    by (vm_compute; split; discriminate).
  assert (Hdepth : currentHeight ledger2 - 0 <= maxRollbackBlocks defaultConfig)
    by (vm_compute; discriminate).
  exact (proj1 (proj2 (proj2 (proj2
           (@C6_rollback_preconditions defaultConfig ledger2 0
              (ledger2_reachable defaultConfig))))) Hrange Hdepth).
Defined.






End Ledger_properties.

(* ================================================================== *)
(** * Structural validation; an output referenced twice in a block     *)
(* ================================================================== *)

Section Validation_properties.
Import Js BlockValidator.
Local Open Scope Z_scope.

(** C9, as stated, fails: the validator accepts a block whose height is
    the non-integer 3/2 and an input whose index is the non-integer 1/2. *)
Lemma C9_structural_validation_counterexample :
  ~ (forall data, is_ok (validateBlockSchema data) = true ->
       exists h, get data "height" = Number h /\ is_integer h = true) /\
  ~ (forall data, is_ok (validateInputSchema data) = true ->
       exists i, get data "index" = Number i /\ is_integer i = true).
Proof.
  split; intros H.
  - destruct (H fractional_block eq_refl) as [h [Hh Hint]].
    injection Hh as <-. discriminate.
  - destruct (H fractional_input eq_refl) as [i [Hi Hint]].
    injection Hi as <-. discriminate.
Qed.

(** C9, amended.  The structural validator rejects a block unless its
    [id] is a non-empty string, its [height] is a number not below 1 and
    its [transactions] is a list, all of whose elements pass transaction
    validation; it rejects an input unless its [txId] is a non-empty
    string and its [index] is a number not below 0.  Whether the numbers
    are integers is not tested: every such height and index is accepted,
    fractional ones included. *)
Theorem C9_structural_validation_amended (data : Js.value) :
  (is_ok (validateBlockSchema data) = true ->
     exists id h txs,
       get data "id" = Str id /\ id <> EmptyString /\
       get data "height" = Number h /\ (1 <= h)%Q /\
       get data "transactions" = Array txs /\
       is_ok (map_throw validateTransactionSchema txs) = true) /\
  (is_ok (validateInputSchema data) = true ->
     exists t i,
       get data "txId" = Str t /\ t <> EmptyString /\
       get data "index" = Number i /\ (0 <= i)%Q) /\
  (forall id h txs rest,
     id <> EmptyString -> (1 <= h)%Q ->
     is_ok (map_throw validateTransactionSchema txs) = true ->
     is_ok (validateBlockSchema
              (Object (("id"%string, Str id) :: ("height"%string, Number h) ::
                       ("transactions"%string, Array txs) :: rest))) = true) /\
  (forall t i rest,
     t <> EmptyString -> (0 <= i)%Q ->
     is_ok (validateInputSchema
              (Object (("txId"%string, Str t) :: ("index"%string, Number i) :: rest)))
     = true).
Proof.
  split; [|split; [|split]].
  - destruct (validateBlockSchema data) as [v|e] eqn:E; [|discriminate].
    intros _. eapply validateBlockSchema_ok. exact E.
  - destruct (validateInputSchema data) as [v|e] eqn:E; [|discriminate].
    intros _. eapply validateInputSchema_ok. exact E.
  - intros id h txs rest Hid Hh Htx.
    destruct (map_throw validateTransactionSchema txs) as [txs'|e] eqn:E;
      [|discriminate].
    rewrite (@validateBlockSchema_accepts id h txs txs' rest Hid Hh E). reflexivity.
  - intros t i rest Ht Hi.
    rewrite (@validateInputSchema_accepts t i rest Ht Hi). reflexivity.
Qed.

Lemma C9_structural_validation_amended_witness :
  exists id h txs,
    get fractional_block "id" = Str id /\ id <> EmptyString /\
    get fractional_block "height" = Number h /\ (1 <= h)%Q /\
    get fractional_block "transactions" = Array txs /\
    is_ok (map_throw validateTransactionSchema txs) = true.
Proof.
  exact (proj1 (C9_structural_validation_amended fractional_block) eq_refl).
Defined.




End Validation_properties.

(* ================================================================== *)
(** * Keys of the reachable ledgers                                    *)
(* ================================================================== *)

Section Keys.
Local Open Scope Z_scope.

Lemma NoDup_snoc {A} (l : list A) (x : A) :
  NoDup l -> ~ In x l -> NoDup (l ++ [x]).
Proof.
  intros Hl Hx. apply NoDup_app_remove_l with (l := []). simpl.
  apply Permutation_NoDup with (l := x :: l).
  - apply Permutation_cons_append.
  - constructor; assumption.
Qed.

Lemma Keyed_empty : Keyed empty_store.
Proof. constructor; constructor. Qed.

Lemma insert_block_Keyed id h s s' :
  Keyed s -> Sql.insert_block id h s = Ok s' -> Keyed s'.
Proof.
  intros HK. unfold Sql.insert_block.
  destruct (Sql.mem id _) eqn:Hm; simpl; [discriminate|].
  destruct (existsb _ _) eqn:Hh; [discriminate|]. intros H. injection H as <-.
  constructor; unfold block_ids, heights, tx_ids; simpl; try rewrite map_app; simpl.
  - apply NoDup_snoc; [apply HK | apply mem_false; exact Hm].
  - apply NoDup_snoc; [apply HK|]. intros Hin.
    apply has_height_In in Hin. unfold heights in Hin. congruence.
  - apply HK.
Qed.

Lemma insert_transaction_Keyed id bid s s' :
  Keyed s -> Sql.insert_transaction id bid s = Ok s' -> Keyed s'.
Proof.
  intros HK. unfold Sql.insert_transaction.
  destruct (Sql.mem id _) eqn:Hm; [discriminate|].
  destruct (negb _); [discriminate|]. intros H. injection H as <-.
  constructor; unfold block_ids, heights, tx_ids; simpl; try apply HK.
  rewrite map_app. simpl. apply NoDup_snoc; [apply HK | apply mem_false; exact Hm].
Qed.

Lemma insert_output_Keyed t i a v s s' :
  Keyed s -> Sql.insert_output t i a v s = Ok s' -> Keyed s'.
Proof.
  intros HK. unfold Sql.insert_output.
  destruct (existsb _ _); [discriminate|].
  destruct (negb _); [discriminate|]. intros H. injection H as <-.
  constructor; apply HK.
Qed.

Lemma processBlock_Keyed (s : Store) (b : Block.t) :
  Keyed s -> Keyed (snd (run (processBlock b) s)).
Proof.
  intros HK. pose proof (processBlock_cases s b) as Hc.
  rewrite run_processBlock in *.
  destruct (admission_check s b) as [[]|e] eqn:Hadm; [|exact HK].
  match goal with
  | |- context [run (try_catch (query_BEGIN ;; ?m) _) s] =>
      pose proof (@transaction_unit m s Keyed (fun _ => True)) as H
  end.
  lapply H; clear H.
  - intros H. destruct (run _ s) as [[u|e] s']; simpl; [exact H|].
    destruct H as [-> _]. exact HK.
  - eapply triple_conseq.
    + apply (@apply_phase b s (eq s) (fun _ => Keyed) (fun _ _ _ => Keyed)).
      * intros x x' <-. apply insert_block_Keyed. exact HK.
      * intros done tx x x' _. apply insert_transaction_Keyed.
      * intros done tx seen inp i x _ _ Hx _. destruct Hx. constructor; assumption.
      * intros done tx o i x x' _ _. apply insert_output_Keyed.
      * intros done tx x Hx. exact Hx.
    + intros c Hc'. exact Hc'.
    + intros a c Hc'. exact Hc'.
    + intros e c [Hs _]. split; [exact Hs | exact I].
Qed.

Lemma rolled_back_Keyed t s : Keyed s -> Keyed (rolled_back t s).
Proof.
  intros HK. constructor.
  - unfold block_ids. rewrite rolled_back_blocks. apply NoDup_map_filter. apply HK.
  - unfold heights. rewrite rolled_back_blocks. apply NoDup_map_filter. apply HK.
  - unfold tx_ids. rewrite rolled_back_transactions. apply NoDup_map_filter. apply HK.
Qed.

Lemma reachable_Keyed config s : reachable config s -> Keyed s.
Proof.
  induction 1 as [| s b r s' Hr IH Hnn Hrun | s t r s' Hr IH Hrun].
  - apply Keyed_empty.
  - pose proof (@processBlock_Keyed s b IH) as H. rewrite Hrun in H. exact H.
  - rewrite run_rollback in Hrun.
    destruct (t <? 0); [injection Hrun as _ <-; exact IH|].
    destruct (currentHeight s <? t); [injection Hrun as _ <-; exact IH|].
    destruct (maxRollbackBlocks config <? currentHeight s - t);
      injection Hrun as _ <-; [exact IH | apply rolled_back_Keyed; exact IH].
Qed.

(** A duplicate-free list of the integers 1..n has n elements. *)
Lemma length_of_range (l : list Z) (n : Z) :
  0 <= n -> NoDup l -> (forall h, In h l <-> 1 <= h <= n) ->
  Z.of_nat (length l) = n.
Proof.
  intros Hn Hnd Hl.
  assert (Hp : Permutation l (map Z.of_nat (seq 1 (Z.to_nat n)))).
  { apply NoDup_Permutation; [exact Hnd| |].
    - apply Finite.Injective_map_NoDup; [|apply seq_NoDup].
      intros x y. apply Nat2Z.inj.
    - intros h. rewrite Hl, in_map_iff. split.
      + intros Hh. exists (Z.to_nat h). split; [lia|]. apply in_seq. lia.
      + intros [k [<- Hk]]. apply in_seq in Hk. lia. }
  rewrite (Permutation_length Hp), length_map, length_seq. lia.
Qed.

Lemma reachable_block_count config s :
  reachable config s -> Z.of_nat (length (tbl_blocks s)) = currentHeight s.
Proof.
  intros Hr. pose proof (reachable_Inv Hr) as HI.
  pose proof (reachable_Keyed Hr) as HK.
  rewrite <- (length_map BlockRow.height). fold (heights s).
  apply length_of_range.
  - apply currentHeight_nonneg. exact HI.
  - apply HK.
  - apply HI.
Qed.

End Keys.

(* ================================================================== *)
(** * The lookups of the repositories                                  *)
(* ================================================================== *)

Section Lookups.
Local Open Scope Z_scope.

Lemma run_pool_query {A} (q : Store -> A) (s : Store) :
  run (pool_query q) s = (Ok (q s), s).
Proof. reflexivity. Qed.

Lemma ltb_length_filter {A} (p : A -> bool) (l : list A) :
  Nat.ltb 0 (length (filter p l)) = existsb p l.
Proof.
  induction l as [|x l IH]; simpl; [reflexivity|].
  destruct (p x); simpl; [reflexivity | exact IH].
Qed.

Lemma hasBlock_In id s : hasBlock id s = true <-> In id (block_ids s).
Proof.
  unfold hasBlock, block_ids. rewrite ltb_length_filter, existsb_exists, in_map_iff.
  split; intros [r [H1 H2]].
  - exists r. apply String.eqb_eq in H2. auto.
  - exists r. split; [assumption|]. apply String.eqb_eq. assumption.
Qed.

Lemma hasTransaction_In id s : hasTransaction id s = true <-> In id (tx_ids s).
Proof.
  unfold hasTransaction, tx_ids. rewrite ltb_length_filter, existsb_exists, in_map_iff.
  split; intros [r [H1 H2]].
  - exists r. apply String.eqb_eq in H2. auto.
  - exists r. split; [assumption|]. apply String.eqb_eq. assumption.
Qed.

Lemma not_true_false (b : bool) : ~ b = true -> b = false.
Proof. destruct b; congruence. Qed.

Lemma consumed_outputSpent t i s : consumed t i s -> outputSpent t i s = true.
Proof.
  intros [[r [Hr Hk]] Hall]. unfold outputSpent.
  destruct (filter (Sql.output_key t i) (tbl_outputs s)) as [|row rest] eqn:E.
  - assert (Hin : In r (filter (Sql.output_key t i) (tbl_outputs s))).
    { apply filter_In. auto. }
    rewrite E in Hin. destruct Hin.
  - assert (Hin : In row (filter (Sql.output_key t i) (tbl_outputs s))).
    { rewrite E. left. reflexivity. }
    apply filter_In in Hin. apply Hall; apply Hin.
Qed.

Lemma consumed_outputs t i s s' :
  tbl_outputs s' = tbl_outputs s -> consumed t i s -> consumed t i s'.
Proof. unfold consumed. intros ->. auto. Qed.

Lemma insert_block_outputs id h s s' :
  Sql.insert_block id h s = Ok s' -> tbl_outputs s' = tbl_outputs s.
Proof.
  unfold Sql.insert_block. destruct (Sql.mem id _); simpl; [discriminate|].
  destruct (existsb _ _); [discriminate|]. intros H. injection H as <-. reflexivity.
Qed.

Lemma insert_transaction_outputs id bid s s' :
  Sql.insert_transaction id bid s = Ok s' -> tbl_outputs s' = tbl_outputs s.
Proof.
  unfold Sql.insert_transaction. destruct (Sql.mem id _); [discriminate|].
  destruct (negb _); [discriminate|]. intros H. injection H as <-. reflexivity.
Qed.

(** Every input of a block that was applied is consumed. *)
Lemma apply_phase_consumed (b : Block.t) (s : Store) :
  triple (in_tx s (eq s))
         (createBlock b ;;
          for_each (Block.transactions b)
            (fun tx => processTransaction tx (Block.id b)) ;;
          query_COMMIT)
         (fun _ c => saved c = None /\
                     forall inp, In inp (all_inputs b) ->
                                 consumed (txId inp) (index inp) (db c))
         (failing s (fun e => class_of e = PlainError)).
Proof.
  pose (J := fun (done : list Transaction.t) (x : Store) =>
               forall inp, In inp (flat_map Transaction.inputs done) ->
                           consumed (txId inp) (index inp) x).
  pose (K := fun (done : list Transaction.t) (tx : Transaction.t)
                 (seen : list Input) (x : Store) =>
               forall inp, In inp (flat_map Transaction.inputs done ++ seen) ->
                           consumed (txId inp) (index inp) x).
  apply (@apply_phase b s (eq s) J K).
  - intros x x' _ _ inp [].
  - intros done tx x x' _ HJ Hins inp Hin. rewrite app_nil_r in Hin.
    apply (@consumed_outputs _ _ x x'); [|apply HJ; exact Hin].
    eapply insert_transaction_outputs; eassumption.
  - intros done tx seen inp i x _ _ HK Hn inp' Hin.
    rewrite app_assoc in Hin. apply in_app_or in Hin. destruct Hin as [Hin|Hin].
    + apply consumed_after_other_mark. apply HK. exact Hin.
    + destruct Hin as [<-|[]]. apply consumed_after_first_mark. exact Hn.
  - intros done tx o i x x' _ _ HK Hins inp Hin.
    eapply consumed_after_insert; [apply HK; exact Hin | eassumption].
  - intros done tx x HK inp Hin. apply HK.
    rewrite flat_map_app in Hin. simpl in Hin. rewrite app_nil_r in Hin. exact Hin.
Qed.

Lemma processBlock_consumed (s s' : Store) (b : Block.t) (u : unit) :
  run (processBlock b) s = (Ok u, s') ->
  forall inp, In inp (all_inputs b) -> consumed (txId inp) (index inp) s'.
Proof.
  intros Hrun. rewrite run_processBlock in Hrun.
  destruct (admission_check s b) as [[]|e]; [|discriminate].
  match type of Hrun with
  | run (try_catch (query_BEGIN ;; ?m) _) s = _ =>
      pose proof (@transaction_unit m s
        (fun x => forall inp, In inp (all_inputs b) ->
                              consumed (txId inp) (index inp) x)
        (fun _ => True)) as H
  end.
  lapply H; clear H.
  - intros H. rewrite Hrun in H. exact H.
  - eapply triple_conseq.
    + apply apply_phase_consumed.
    + intros c Hc. exact Hc.
    + intros a c Hc. exact Hc.
    + intros e c [Hs _]. split; [exact Hs | exact I].
Qed.

Lemma first_fault_none s l :
  first_fault s l = None -> forall inp, In inp l -> input_fault s inp = None.
Proof.
  induction l as [|x l IH]; simpl; intros H inp Hin; [destruct Hin|].
  destruct (input_fault s x) eqn:E; [discriminate|].
  destruct Hin as [<-|Hin]; [exact E | apply IH; assumption].
Qed.

Lemma admission_ok_inputs s b :
  admission_check s b = Ok tt ->
  forall inp, In inp (all_inputs b) -> input_fault s inp = None.
Proof.
  unfold admission_check. intros H.
  destruct (negb _); [discriminate|]. destruct (negb _); [discriminate|].
  destruct (first_fault s (all_inputs b)) eqn:E; [discriminate|].
  apply first_fault_none. exact E.
Qed.

Lemma input_fault_none s inp :
  input_fault s inp = None ->
  exists row, findOutput (txId inp) (index inp) s = Some row /\
              OutputRow.spent row = false.
Proof.
  unfold input_fault. destruct (findOutput _ _ s) as [row|]; [|discriminate].
  destruct (OutputRow.spent row) eqn:E; [discriminate|]. intros _. eauto.
Qed.

Lemma findOutput_outputSpent t i s row :
  findOutput t i s = Some row -> outputSpent t i s = OutputRow.spent row.
Proof.
  unfold findOutput, outputSpent.
  destruct (filter _ _); [discriminate|]. intros H. injection H as <-. reflexivity.
Qed.

(** X1. After [processBlock] has admitted a block, [isOutputSpent]
    answers [true] for every input of the block, and it answered [false]
    for each of them before; neither query changes the ledger. *)
Theorem X1_inputs_reported_spent (s s' : Store) (b : Block.t) (u : unit) :
  run (processBlock b) s = (Ok u, s') ->
  forall inp, In inp (all_inputs b) ->
    run (isOutputSpent (txId inp) (index inp)) s = (Ok false, s) /\
    run (isOutputSpent (txId inp) (index inp)) s' = (Ok true, s').
Proof.
  intros Hrun inp Hin. unfold isOutputSpent. rewrite !run_pool_query. split.
  - pose proof (processBlock_cases s b) as Hc. rewrite Hrun in Hc.
    destruct (@input_fault_none s inp (@admission_ok_inputs s b Hc inp Hin))
      as [row [Hf Hs]].
    rewrite (@findOutput_outputSpent _ _ _ _ Hf), Hs. reflexivity.
  - rewrite (@consumed_outputSpent _ _ _ (@processBlock_consumed s s' b u Hrun inp Hin)).
    reflexivity.
Qed.

Lemma X1_inputs_reported_spent_witness :
  run (isOutputSpent "tx1" 0) ledger1 = (Ok false, ledger1) /\
  run (isOutputSpent "tx1" 0) ledger2 = (Ok true, ledger2).
Proof.
  assert (Hin : In (mkInput "tx1" 0) (all_inputs block2)) by (left; reflexivity).
  exact (@X1_inputs_reported_spent ledger1 ledger2 block2 tt block2_admitted
           (mkInput "tx1" 0) Hin).
Defined.

(** X2. After [processBlock] has admitted a block, [blockExists] finds its
    id and [transactionExists] finds the id of each of its transactions,
    and none of them was found before: an admitted block never reuses a
    stored block or transaction id. *)
Theorem X2_admitted_ids_are_new (s s' : Store) (b : Block.t) (u : unit) :
  run (processBlock b) s = (Ok u, s') ->
  (run (blockExists (Block.id b)) s = (Ok false, s) /\
   run (blockExists (Block.id b)) s' = (Ok true, s')) /\
  forall tx, In tx (Block.transactions b) ->
    run (transactionExists (Transaction.id tx)) s = (Ok false, s) /\
    run (transactionExists (Transaction.id tx)) s' = (Ok true, s').
Proof.
  intros Hrun. unfold blockExists, transactionExists.
  destruct (@processBlock_applied s s' b u Hrun)
    as [olds [news [Hb [Hfb [Ht [Hft _]]]]]].
  split; [split|intros tx Hin; split]; rewrite run_pool_query.
  - rewrite (not_true_false (b := hasBlock (Block.id b) s)); [reflexivity|].
    rewrite hasBlock_In. exact Hfb.
  - replace (hasBlock (Block.id b) s') with true; [reflexivity|].
    symmetry. apply hasBlock_In. unfold block_ids. rewrite Hb, map_app.
    apply in_or_app. right. left. reflexivity.
  - rewrite (not_true_false (b := hasTransaction (Transaction.id tx) s));
      [reflexivity|].
    rewrite hasTransaction_In. apply Hft. exact Hin.
  - replace (hasTransaction (Transaction.id tx) s') with true; [reflexivity|].
    symmetry. apply hasTransaction_In. unfold tx_ids. rewrite Ht, map_app.
    apply in_or_app. right. rewrite map_map. simpl.
    apply in_map_iff. exists tx. auto.
Qed.

Lemma X2_admitted_ids_are_new_witness :
  (run (blockExists (Block.id block2)) ledger1 = (Ok false, ledger1) /\
   run (blockExists (Block.id block2)) ledger2 = (Ok true, ledger2)) /\
  (run (transactionExists "tx2") ledger1 = (Ok false, ledger1) /\
   run (transactionExists "tx2") ledger2 = (Ok true, ledger2)).
Proof.
  assert (Hin : In (Transaction.make "tx2" [mkInput "tx1" 0]
                      [mkOutput "addr2" 40; mkOutput "addr3" 60])
                   (Block.transactions block2)) by (left; reflexivity).
  split.
  - exact (proj1 (@X2_admitted_ids_are_new ledger1 ledger2 block2 tt block2_admitted)).
  - exact (proj2 (@X2_admitted_ids_are_new ledger1 ledger2 block2 tt block2_admitted)
             _ Hin).
Defined.

(** X3. A block that carries the id of a stored block, or a transaction
    with the id of a stored transaction, is never admitted: [processBlock]
    throws and leaves the ledger as it was; when the block passes the four
    checks of [validateBlock], the exception is the unclassified one of the
    insert, answered with status 500. *)
Theorem X3_replay_refused (s : Store) (b : Block.t) :
  hasBlock (Block.id b) s = true \/
  (exists tx, In tx (Block.transactions b) /\
              hasTransaction (Transaction.id tx) s = true) ->
  exists e, run (processBlock b) s = (Err e, s) /\
            (admission_check s b = Err e \/
             (admission_check s b = Ok tt /\ statusCode e = 500)).
Proof.
  intros Hdup. pose proof (processBlock_cases s b) as Hc.
  destruct (run (processBlock b) s) as [[u|e] s'] eqn:Hrun.
  - exfalso.
    destruct (@processBlock_applied s s' b u Hrun)
      as [olds [news [_ [Hfb [_ [Hft _]]]]]].
    destruct Hdup as [Hd | [tx [Hin Hd]]].
    + apply Hfb. apply hasBlock_In. exact Hd.
    + apply (Hft tx Hin). apply hasTransaction_In. exact Hd.
  - destruct Hc as [-> Hc]. exists e. split; [reflexivity|].
    destruct Hc as [Hc | [Hc Hp]]; [left; exact Hc | right].
    split; [exact Hc|]. unfold statusCode. rewrite Hp. reflexivity.
Qed.

Lemma X3_replay_refused_witness :
  exists e, run (processBlock block2_replay) ledger1 = (Err e, ledger1) /\
            (admission_check ledger1 block2_replay = Err e \/
             (admission_check ledger1 block2_replay = Ok tt /\ statusCode e = 500)).
Proof.
  assert (H : hasBlock (Block.id block2_replay) ledger1 = true \/
              (exists tx, In tx (Block.transactions block2_replay) /\
                          hasTransaction (Transaction.id tx) ledger1 = true)).
  { right. eexists. split; [left; reflexivity | vm_compute; reflexivity]. }
  exact (@X3_replay_refused ledger1 block2_replay H).
Defined.

End Lookups.

(* ================================================================== *)
(** * Rollbacks compose                                                *)
(* ================================================================== *)

Section Rollbacks.
Local Open Scope Z_scope.

Lemma store_eq (x y : Store) :
  tbl_blocks x = tbl_blocks y -> tbl_transactions x = tbl_transactions y ->
  tbl_outputs x = tbl_outputs y -> x = y.
Proof. destruct x, y; simpl; intros -> -> ->; reflexivity. Qed.

Lemma mem_nil_list (l : list string) : (forall x, ~ In x l) -> l = [].
Proof.
  destruct l as [|a l]; [reflexivity|]. intros H. destruct (H a). left. reflexivity.
Qed.

Lemma mem_ext (l l' : list string) :
  (forall x, In x l <-> In x l') -> forall x, Sql.mem x l = Sql.mem x l'.
Proof.
  intros H x. destruct (Sql.mem x l') eqn:E.
  - apply mem_In, H, mem_In. exact E.
  - apply mem_false. intros Hin. apply H in Hin. apply mem_In in Hin. congruence.
Qed.

Lemma gone_blocks_In t s x :
  In x (gone_blocks t s) <->
  exists r, In r (tbl_blocks s) /\ BlockRow.id r = x /\ t < BlockRow.height r.
Proof.
  unfold gone_blocks. rewrite in_map_iff. split.
  - intros [r [Hid Hr]]. apply filter_In in Hr. destruct Hr as [Hr Hh].
    apply Z.ltb_lt in Hh. eauto.
  - intros [r [Hr [Hid Hh]]]. exists r. split; [assumption|].
    apply filter_In. split; [assumption|]. apply Z.ltb_lt. assumption.
Qed.

Lemma gone_transactions_In t s x :
  In x (gone_transactions t s) <->
  exists r, In r (tbl_transactions s) /\ TransactionRow.id r = x /\
            In (TransactionRow.block_id r) (gone_blocks t s).
Proof.
  unfold gone_transactions. rewrite in_map_iff. split.
  - intros [r [Hid Hr]]. apply filter_In in Hr. destruct Hr as [Hr Hg].
    apply mem_In in Hg. eauto.
  - intros [r [Hr [Hid Hg]]]. exists r. split; [assumption|].
    apply filter_In. split; [assumption|]. apply mem_In. assumption.
Qed.

(** A rollback to a height that no block exceeds changes nothing. *)
Lemma rolled_back_noop t s :
  (forall h, In h (heights s) -> h <= t) -> rolled_back t s = s.
Proof.
  intros Hle.
  assert (Hgb : gone_blocks t s = []).
  { apply mem_nil_list. intros x Hx. apply gone_blocks_In in Hx.
    destruct Hx as [r [Hr [_ Hh]]].
    assert (BlockRow.height r <= t) by (apply Hle; unfold heights; apply in_map; exact Hr).
    lia. }
  assert (Hgt : gone_transactions t s = []).
  { apply mem_nil_list. intros x Hx. apply gone_transactions_In in Hx.
    destruct Hx as [r [_ [_ Hg]]]. rewrite Hgb in Hg. destruct Hg. }
  assert (Hv : visited_transactions t s = []).
  { apply mem_nil_list. intros x Hx. apply visited_gone in Hx.
    rewrite Hgt in Hx. destruct Hx. }
  apply store_eq.
  - rewrite rolled_back_blocks. apply filter_all. intros r Hr.
    apply negb_true_iff, Z.ltb_ge. apply Hle. unfold heights. apply in_map. exact Hr.
  - rewrite rolled_back_transactions, Hgb. apply filter_all. reflexivity.
  - rewrite rolled_back_outputs, Hgt, Hv, unspend_many_nil.
    apply filter_all. reflexivity.
Qed.

Lemma set_unspent_tx_id r : OutputRow.tx_id (Sql.set_unspent r) = OutputRow.tx_id r.
Proof. destruct r; reflexivity. Qed.

Lemma unspend_tx_id L r :
  OutputRow.tx_id (if spent_by_any L r then Sql.set_unspent r else r)
  = OutputRow.tx_id r.
Proof. destruct (spent_by_any L r); [apply set_unspent_tx_id | reflexivity]. Qed.

Lemma filter_map_commute {A} (p : A -> bool) (f : A -> A) (l : list A) :
  (forall x, p (f x) = p x) -> filter p (map f l) = map f (filter p l).
Proof.
  intros H. induction l as [|x l IH]; simpl; [reflexivity|].
  rewrite H. destruct (p x); simpl; rewrite IH; reflexivity.
Qed.

Lemma filter_filter {A} (p q : A -> bool) (l : list A) :
  filter p (filter q l) = filter (fun x => q x && p x) l.
Proof.
  induction l as [|x l IH]; simpl; [reflexivity|].
  destruct (q x); simpl; [destruct (p x)|]; rewrite IH; reflexivity.
Qed.

Lemma spent_by_any_unspent L r :
  spent_by_any L (Sql.set_unspent r) = false.
Proof. destruct r; reflexivity. Qed.

Section Two_steps.
Variables (s : Store) (t t' : Z).
Hypothesis Hle : t <= t'.

Let s1 : Store := rolled_back t' s.

Lemma two_steps_gone_blocks x :
  In x (gone_blocks t s) <-> In x (gone_blocks t' s) \/ In x (gone_blocks t s1).
Proof.
  rewrite !gone_blocks_In. unfold s1. split.
  - intros [r [Hr [Hid Hh]]]. destruct (Z_lt_le_dec t' (BlockRow.height r)) as [Hlt|Hge].
    + left. eauto.
    + right. exists r. split; [|auto]. rewrite rolled_back_blocks.
      apply filter_In. split; [assumption|]. apply negb_true_iff, Z.ltb_ge. assumption.
  - intros [[r [Hr [Hid Hh]]] | [r [Hr [Hid Hh]]]].
    + exists r. repeat split; auto. lia.
    + rewrite rolled_back_blocks in Hr. apply filter_In in Hr. exists r. tauto.
Qed.

Lemma two_steps_gone_transactions x :
  In x (gone_transactions t s) <->
  In x (gone_transactions t' s) \/ In x (gone_transactions t s1).
Proof.
  rewrite !gone_transactions_In. split.
  - intros [r [Hr [Hid Hg]]].
    destruct (Sql.mem (TransactionRow.block_id r) (gone_blocks t' s)) eqn:E.
    + left. exists r. apply mem_In in E. auto.
    + right. exists r. split; [|split; [assumption|]].
      * unfold s1. rewrite rolled_back_transactions. apply filter_In.
        split; [assumption|]. rewrite E. reflexivity.
      * apply two_steps_gone_blocks in Hg. destruct Hg as [Hg|Hg]; [|exact Hg].
        apply mem_In in Hg. congruence.
  - intros [[r [Hr [Hid Hg]]] | [r [Hr [Hid Hg]]]].
    + exists r. repeat split; auto. apply two_steps_gone_blocks. left. exact Hg.
    + unfold s1 in Hr. rewrite rolled_back_transactions in Hr.
      apply filter_In in Hr. exists r. repeat split; try tauto.
      apply two_steps_gone_blocks. right. exact Hg.
Qed.

Lemma two_steps_mem x :
  Sql.mem x (gone_transactions t s)
  = Sql.mem x (gone_transactions t' s) || Sql.mem x (gone_transactions t s1).
Proof.
  destruct (Sql.mem x (gone_transactions t s)) eqn:E; symmetry.
  - apply mem_In, two_steps_gone_transactions in E. apply orb_true_iff.
    rewrite !mem_In. exact E.
  - apply orb_false_iff. rewrite !mem_false. apply mem_false in E.
    split; intros H; apply E; apply two_steps_gone_transactions; auto.
Qed.

Lemma two_steps_row r :
  (let r' := if spent_by_any (gone_transactions t' s) r then Sql.set_unspent r else r in
   if spent_by_any (gone_transactions t s1) r' then Sql.set_unspent r' else r')
  = if spent_by_any (gone_transactions t s) r then Sql.set_unspent r else r.
Proof.
  cbv zeta.
  assert (H : spent_by_any (gone_transactions t s) r
              = spent_by_any (gone_transactions t' s) r
                || spent_by_any (gone_transactions t s1) r).
  { unfold spent_by_any. destruct (OutputRow.spent_by_tx r); [|reflexivity].
    apply two_steps_mem. }
  rewrite H. destruct (spent_by_any (gone_transactions t' s) r).
  - rewrite spent_by_any_unspent. reflexivity.
  - reflexivity.
Qed.

Lemma unspend_many_gone u x outs :
  unspend_many (visited_transactions u x) outs
  = map (fun r => if spent_by_any (gone_transactions u x) r
                  then Sql.set_unspent r else r) outs.
Proof.
  unfold unspend_many. apply map_ext. intros r.
  rewrite (@spent_by_any_ext _ (gone_transactions u x)); [reflexivity|].
  intros y. apply mem_visited_gone.
Qed.

(** Rolling back to [t'] and then to [t] is rolling back to [t]. *)
Lemma rolled_back_twice : rolled_back t s1 = rolled_back t s.
Proof.
  apply store_eq.
  - rewrite !rolled_back_blocks. unfold s1. rewrite rolled_back_blocks, filter_filter.
    apply filter_ext. intros r.
    destruct (t' <? BlockRow.height r) eqn:E1, (t <? BlockRow.height r) eqn:E2;
      try reflexivity.
    apply Z.ltb_lt in E1. apply Z.ltb_ge in E2. lia.
  - rewrite !rolled_back_transactions. unfold s1 at 2.
    rewrite rolled_back_transactions, filter_filter.
    apply filter_ext. intros r. rewrite <- negb_orb. f_equal.
    destruct (Sql.mem (TransactionRow.block_id r) (gone_blocks t s)) eqn:E.
    + apply mem_In, two_steps_gone_blocks in E. apply orb_true_iff.
      rewrite !mem_In. exact E.
    + apply orb_false_iff. rewrite !mem_false. apply mem_false in E.
      split; intros H; apply E; apply two_steps_gone_blocks; auto.
  - rewrite !rolled_back_outputs, !unspend_many_gone. unfold s1 at 3.
    rewrite rolled_back_outputs, unspend_many_gone.
    rewrite <- filter_map_commute by (intros r; rewrite unspend_tx_id; reflexivity).
    rewrite map_map, filter_filter.
    rewrite (map_ext _ _ two_steps_row).
    apply filter_ext. intros r. rewrite <- negb_orb. f_equal.
    symmetry. apply two_steps_mem.
Qed.

End Two_steps.

Lemma currentHeight_filter_le t s :
  0 <= t -> currentHeight (rolled_back t s) <= t.
Proof.
  intros Ht. destruct (currentHeight_cases (rolled_back t s)) as [[_ ->]|Hin].
  - exact Ht.
  - apply heights_rolled_back in Hin. apply Hin.
Qed.

Lemma currentHeight_rolled_back_le t s :
  0 <= currentHeight s -> currentHeight (rolled_back t s) <= currentHeight s.
Proof.
  intros Hc. destruct (currentHeight_cases (rolled_back t s)) as [[_ ->]|Hin].
  - exact Hc.
  - apply heights_rolled_back in Hin. apply currentHeight_bound. apply Hin.
Qed.

Lemma rollback_ok config t s s' :
  run (rollback config t) s = (Ok tt, s') ->
  0 <= t <= currentHeight s /\ currentHeight s - t <= maxRollbackBlocks config /\
  s' = rolled_back t s.
Proof.
  rewrite run_rollback.
  destruct (t <? 0) eqn:E1; [discriminate|].
  destruct (currentHeight s <? t) eqn:E2; [discriminate|].
  destruct (maxRollbackBlocks config <? currentHeight s - t) eqn:E3; [discriminate|].
  intros H. injection H as <-.
  apply Z.ltb_ge in E1, E2, E3. auto.
Qed.

Lemma rollback_run_ok config t s :
  0 <= t <= currentHeight s -> currentHeight s - t <= maxRollbackBlocks config ->
  run (rollback config t) s = (Ok tt, rolled_back t s).
Proof.
  intros [H1 H2] H3. rewrite run_rollback.
  replace (t <? 0) with false by (symmetry; apply Z.ltb_ge; lia).
  replace (currentHeight s <? t) with false by (symmetry; apply Z.ltb_ge; lia).
  replace (maxRollbackBlocks config <? currentHeight s - t) with false
    by (symmetry; apply Z.ltb_ge; lia).
  reflexivity.
Qed.

Lemma admit_all_app (l1 l2 : list Block.t) (s : Store) :
  admit_all (l1 ++ l2) s =
  match admit_all l1 s with
  | Some s1 => admit_all l2 s1
  | None => None
  end.
Proof.
  revert s. induction l1 as [|b l1 IH]; intros s; simpl; [reflexivity|].
  destruct (run (processBlock b) s) as [[u|e] s1]; [apply IH | reflexivity].
Qed.

Lemma admit_all_Inv (bs : list Block.t) :
  forall s s', Inv s -> (forall b, In b bs -> nonneg_outputs b) ->
    admit_all bs s = Some s' -> Inv s'.
Proof.
  induction bs as [|b bs IH]; simpl; intros s s' HI Hnn H.
  - injection H as <-. exact HI.
  - pose proof (@processBlock_Inv s b HI (Hnn b (or_introl eq_refl))) as Hp.
    destruct (run (processBlock b) s) as [[u|e] s1]; [|discriminate].
    apply (IH s1 s'); [apply Hp | auto | exact H].
Qed.

(** Rolling back to the height from which a list of blocks was admitted
    undoes them all. *)
Lemma undo_all (bs : list Block.t) :
  forall s s', Inv s -> (forall b, In b bs -> nonneg_outputs b) ->
    admit_all bs s = Some s' -> rolled_back (currentHeight s) s' = s.
Proof.
  induction bs as [|b bs IH] using rev_ind; intros s s' HI Hnn H.
  - simpl in H. injection H as <-. apply rolled_back_noop.
    intros h. apply currentHeight_bound.
  - rewrite admit_all_app in H.
    destruct (admit_all bs s) as [sp|] eqn:Hbs; [|discriminate].
    simpl in H. destruct (run (processBlock b) sp) as [[u|e] s1] eqn:Hrun;
      [|discriminate].
    injection H as <-.
    assert (HIp : Inv sp).
    { apply (@admit_all_Inv bs s sp HI); [|exact Hbs].
      intros x Hx. apply Hnn. apply in_or_app. left. exact Hx. }
    pose proof (@admit_all_heights bs s sp Hbs) as [Hh _].
    pose proof (@processBlock_height sp s1 b u Hrun) as [Hb _].
    pose proof (@undo_store sp s1 b (Block.transactions b) HIp
                  (@processBlock_applied sp s1 b u Hrun) Hb) as Hundo.
    rewrite <- (@rolled_back_twice s1 (currentHeight s) (currentHeight sp)) by lia.
    rewrite Hundo. apply IH; [exact HI| |exact Hbs].
    intros x Hx. apply Hnn. apply in_or_app. left. exact Hx.
Qed.

(** X6. A rollback to the current height succeeds and changes nothing,
    whatever the ledger holds, as long as the configured maximum depth is
    not negative. *)
Theorem X6_rollback_to_current_height (config : Config) (s : Store) :
  0 <= currentHeight s -> 0 <= maxRollbackBlocks config ->
  run (rollback config (currentHeight s)) s = (Ok tt, s).
Proof.
  intros Hc Hm. rewrite rollback_run_ok by lia.
  rewrite rolled_back_noop; [reflexivity|].
  intros h. apply currentHeight_bound.
Qed.

Lemma X6_rollback_to_current_height_witness :
  run (rollback defaultConfig (currentHeight ledger2)) ledger2 = (Ok tt, ledger2).
Proof.
  assert (Hc : 0 <= currentHeight ledger2) by (vm_compute; discriminate).
  assert (Hm : 0 <= maxRollbackBlocks defaultConfig) by (vm_compute; discriminate).
  exact (@X6_rollback_to_current_height defaultConfig ledger2 Hc Hm).
Defined.

(** X7. On a ledger built by the service, a rollback to height 0 that the
    depth limit allows empties the three tables: no block, transaction or
    output survives. *)
Theorem X7_rollback_to_zero (config : Config) (s : Store) :
  reachable config s ->
  currentHeight s <= maxRollbackBlocks config ->
  run (rollback config 0) s = (Ok tt, empty_store).
Proof.
  intros Hr Hm. pose proof (reachable_Inv Hr) as HI.
  pose proof (currentHeight_nonneg HI) as Hc.
  rewrite rollback_run_ok by lia. f_equal.
  assert (Hgb : forall x, In x (block_ids s) -> In x (gone_blocks 0 s)).
  { intros x Hx. unfold block_ids in Hx. apply in_map_iff in Hx.
    destruct Hx as [r [Hid Hr']]. apply gone_blocks_In. exists r.
    repeat split; auto.
    assert (In (BlockRow.height r) (heights s)) by (unfold heights; apply in_map; exact Hr').
    apply (inv_contig HI) in H. lia. }
  assert (Hgt : forall x, In x (tx_ids s) -> In x (gone_transactions 0 s)).
  { intros x Hx. unfold tx_ids in Hx. apply in_map_iff in Hx.
    destruct Hx as [r [Hid Hr']]. apply gone_transactions_In. exists r.
    repeat split; auto. apply Hgb. apply (inv_fk_tx HI). exact Hr'. }
  apply store_eq.
  - rewrite rolled_back_blocks. apply filter_none. intros r Hr'.
    apply negb_false_iff, Z.ltb_lt.
    assert (In (BlockRow.height r) (heights s)) by (unfold heights; apply in_map; exact Hr').
    apply (inv_contig HI) in H. lia.
  - rewrite rolled_back_transactions. apply filter_none. intros r Hr'.
    apply negb_false_iff, mem_In, Hgb. apply (inv_fk_tx HI). exact Hr'.
  - rewrite rolled_back_outputs. apply filter_none. intros r Hr'.
    apply negb_false_iff, mem_In, Hgt.
    unfold unspend_many in Hr'. apply in_map_iff in Hr'.
    destruct Hr' as [r0 [<- Hr0]]. rewrite unspend_tx_id.
    apply (inv_fk_out HI). exact Hr0.
Qed.

Lemma X7_rollback_to_zero_witness :
  run (rollback defaultConfig 0) ledger2 = (Ok tt, empty_store).
Proof.
  assert (Hm : currentHeight ledger2 <= maxRollbackBlocks defaultConfig)
    by (vm_compute; discriminate).
  exact (@X7_rollback_to_zero defaultConfig ledger2
           (ledger2_reachable defaultConfig) Hm).
Defined.

(** X8. Two successive rollbacks, to [t'] and then to [t], end in the
    ledger that the direct rollback to [t] produces, whatever the ledger
    holds; the direct one succeeds whenever the depth limit allows it. *)
Theorem X8_rollbacks_compose (config : Config) (s s1 s2 : Store) (t t' : Z) :
  run (rollback config t') s = (Ok tt, s1) ->
  run (rollback config t) s1 = (Ok tt, s2) ->
  t <= t' /\
  snd (run (rollback config t) s) = (if maxRollbackBlocks config <? currentHeight s - t
                                     then s else s2) /\
  (currentHeight s - t <= maxRollbackBlocks config ->
   run (rollback config t) s = (Ok tt, s2)).
Proof.
  intros H1 H2.
  apply rollback_ok in H1. destruct H1 as [Ht' [Hd' ->]].
  apply rollback_ok in H2. destruct H2 as [Ht [Hd ->]].
  pose proof (@currentHeight_filter_le t' s (proj1 Ht')) as Hle1.
  assert (Hcs : 0 <= currentHeight s) by lia.
  pose proof (@currentHeight_rolled_back_le t' s Hcs) as Hle2.
  assert (Hle : t <= t') by lia.
  split; [exact Hle|].
  rewrite (@rolled_back_twice s t t' Hle).
  split.
  - rewrite run_rollback.
    replace (t <? 0) with false by (symmetry; apply Z.ltb_ge; lia).
    replace (currentHeight s <? t) with false by (symmetry; apply Z.ltb_ge; lia).
    destruct (maxRollbackBlocks config <? currentHeight s - t); reflexivity.
  - intros Hdepth. apply rollback_run_ok; lia.
Qed.

Lemma X8_rollbacks_compose_witness :
  run (rollback defaultConfig 0) ledger2 = (Ok tt, empty_store).
Proof.
  assert (H1 : run (rollback defaultConfig 1) ledger2 = (Ok tt, ledger1))
    by (vm_compute; reflexivity).
  assert (H2 : run (rollback defaultConfig 0) ledger1 = (Ok tt, empty_store))
    by (vm_compute; reflexivity).
  assert (Hd : currentHeight ledger2 - 0 <= maxRollbackBlocks defaultConfig)
    by (vm_compute; discriminate).
  exact (proj2 (proj2 (@X8_rollbacks_compose defaultConfig ledger2 ledger1 empty_store
                         0 1 H1 H2)) Hd).
Defined.

(** X9. Admitting any list of blocks and then rolling back to the height
    before the first of them returns the very ledger the list was admitted
    from, provided the list is not longer than the depth limit. *)
Theorem X9_rollback_undoes_blocks (config : Config) (s s' : Store)
    (bs : list Block.t) :
  reachable config s ->
  (forall b, In b bs -> nonneg_outputs b) ->
  admit_all bs s = Some s' ->
  Z.of_nat (length bs) <= maxRollbackBlocks config ->
  run (rollback config (currentHeight s)) s' = (Ok tt, s).
Proof.
  intros Hr Hnn Hadm Hm. pose proof (reachable_Inv Hr) as HI.
  pose proof (currentHeight_nonneg HI) as Hc.
  pose proof (@admit_all_heights bs s s' Hadm) as [Hh _].
  rewrite rollback_run_ok by lia.
  rewrite (@undo_all bs s s' HI Hnn Hadm). reflexivity.
Qed.

Lemma X9_rollback_undoes_blocks_witness :
  run (rollback defaultConfig (currentHeight empty_store)) ledger2
  = (Ok tt, empty_store).
Proof.
  assert (Hnn : forall b, In b [genesis; block2] -> nonneg_outputs b).
  { intros b [<- | [<- | []]] o Ho; vm_compute in Ho.
    - destruct Ho as [<- | []]. vm_compute. discriminate.
    - destruct Ho as [<- | [<- | []]]; vm_compute; discriminate. }
  assert (Hadm : admit_all [genesis; block2] empty_store = Some ledger2)
    by (vm_compute; reflexivity).
  assert (Hm : Z.of_nat (length [genesis; block2]) <= maxRollbackBlocks defaultConfig)
    by (vm_compute; discriminate).
  exact (@X9_rollback_undoes_blocks defaultConfig empty_store ledger2 [genesis; block2]
           (reach_empty defaultConfig) Hnn Hadm Hm).
Defined.

End Rollbacks.

(* ================================================================== *)
(** * What holds of every ledger the service builds                    *)
(* ================================================================== *)

Section Reachable_ledgers.
Local Open Scope Z_scope.

(** X4. On every ledger built by submissions and rollbacks, whatever their
    outcome, the chain has no gap and no fork: the heights stored are
    exactly 1 to the current height, each once, so the number of blocks is
    the current height; block ids, transaction ids and the pairs of
    transaction id and output index are unique. *)
Theorem X4_chain_shape (config : Config) (s : Store) :
  reachable config s ->
  (forall h, In h (heights s) <-> 1 <= h <= currentHeight s) /\
  NoDup (heights s) /\
  Z.of_nat (length (tbl_blocks s)) = currentHeight s /\
  NoDup (block_ids s) /\
  NoDup (tx_ids s) /\
  NoDup (map out_key (tbl_outputs s)).
Proof.
  intros Hr. pose proof (reachable_Inv Hr) as HI.
  pose proof (reachable_Keyed Hr) as HK.
  split; [apply HI|]. split; [apply HK|].
  split; [apply (reachable_block_count Hr)|].
  split; [apply HK|]. split; [apply HK | apply HI].
Qed.

Lemma X4_chain_shape_witness :
  (forall h, In h (heights ledger2) <-> 1 <= h <= currentHeight ledger2) /\
  NoDup (heights ledger2) /\
  Z.of_nat (length (tbl_blocks ledger2)) = currentHeight ledger2 /\
  NoDup (block_ids ledger2) /\
  NoDup (tx_ids ledger2) /\
  NoDup (map out_key (tbl_outputs ledger2)).
Proof.
  exact (@X4_chain_shape defaultConfig ledger2 (ledger2_reachable defaultConfig)).
Defined.

(** X5. On every ledger built by submissions and rollbacks, no reference
    dangles: the block of every transaction and the transaction of every
    output are stored, an output is spent exactly when it names a spending
    transaction, that transaction is stored, and no value is negative. *)
Theorem X5_no_dangling_reference (config : Config) (s : Store) :
  reachable config s ->
  (forall t, In t (tbl_transactions s) ->
     hasBlock (TransactionRow.block_id t) s = true) /\
  (forall o, In o (tbl_outputs s) ->
     hasTransaction (OutputRow.tx_id o) s = true /\
     (0 <= OutputRow.value o)%Q /\
     (OutputRow.spent o = true <->
      exists t, OutputRow.spent_by_tx o = Some t) /\
     (forall t, OutputRow.spent_by_tx o = Some t -> hasTransaction t s = true)).
Proof.
  intros Hr. pose proof (reachable_Inv Hr) as HI. split.
  - intros t Ht. apply hasBlock_In. apply (inv_fk_tx HI). exact Ht.
  - intros o Ho. split; [apply hasTransaction_In; apply (inv_fk_out HI); exact Ho|].
    split; [apply (inv_nonneg HI); exact Ho|].
    destruct (OutputRow.spent o) eqn:Hs.
    + destruct (inv_spender HI o Ho Hs) as [t [Ht Hin]]. split.
      * split; [intros _; exists t; exact Ht | reflexivity].
      * intros t' Ht'. rewrite Ht in Ht'. injection Ht' as <-.
        apply hasTransaction_In. exact Hin.
    + destruct (inv_unspent HI o Ho Hs) as [Hn _]. split.
      * split; [discriminate | intros [t Ht]; congruence].
      * intros t Ht. congruence.
Qed.

Lemma X5_no_dangling_reference_witness :
  (forall t, In t (tbl_transactions ledger2) ->
     hasBlock (TransactionRow.block_id t) ledger2 = true) /\
  (forall o, In o (tbl_outputs ledger2) ->
     hasTransaction (OutputRow.tx_id o) ledger2 = true /\
     (0 <= OutputRow.value o)%Q /\
     (OutputRow.spent o = true <->
      exists t, OutputRow.spent_by_tx o = Some t) /\
     (forall t, OutputRow.spent_by_tx o = Some t -> hasTransaction t ledger2 = true)).
Proof.
  exact (@X5_no_dangling_reference defaultConfig ledger2
           (ledger2_reachable defaultConfig)).
Defined.

End Reachable_ledgers.

(* ================================================================== *)
(** * The height parameter and the rollback route                      *)
(* ================================================================== *)

Section Height_parameter.
Local Open Scope Z_scope.
















End Height_parameter.

Section Rollback_route.
Local Open Scope Z_scope.

Lemma run_post_rollback (config : Config) (height : string) (s : Store) :
  run (Routes.post_rollback config height) s =
  match BlockValidator.validateRollbackHeight height with
  | Err e => (Ok (Routes.handleError e), s)
  | Ok n =>
      match run (rollback config n) s with
      | (Ok _, s') => (Ok (Routes.mkReply 200 (Routes.Success n)), s')
      | (Err e, s') => (Ok (Routes.handleError e), s')
      end
  end.
Proof.
  unfold Routes.post_rollback, try_catch, run, bind.
  destruct (BlockValidator.validateRollbackHeight height) as [n|e]; [|reflexivity].
  destruct (rollback config n (idle s)) as [[u|e] c]; reflexivity.
Qed.

Lemma validateRollbackHeight_cases (height : string) :
  (exists n, Js.parseInt height = Some n /\ 0 <= n /\
             BlockValidator.validateRollbackHeight height = Ok n) \/
  BlockValidator.validateRollbackHeight height
  = Err (SchemaError "Invalid height parameter").
Proof.
  unfold BlockValidator.validateRollbackHeight.
  destruct (Js.parseInt height) as [n|]; [|right; reflexivity].
  destruct (n <? 0) eqn:E; [right; reflexivity | left].
  apply Z.ltb_ge in E. exists n. auto.
Qed.

(** X11. The handler of [POST /rollback] never throws and replies 200 or
    400, whatever the parameter and the ledger.  With 200 the parameter
    parsed to the height sent back, which lies between 0 and the current
    height within the depth limit, and the ledger is the one [rollback]
    produced.  With 400 the ledger is unchanged and the error sent is the
    validator's uncoded one, the future-height one or the
    excessive-rollback one: the coded [INVALID_HEIGHT] of [rollback] is
    never sent, and neither is a 409 or a 500. *)
Theorem X11_rollback_route (config : Config) (height : string) (s : Store) :
  exists rep s',
    run (Routes.post_rollback config height) s = (Ok rep, s') /\
    ((Routes.status rep = 200 /\
      exists n, Js.parseInt height = Some n /\
                0 <= n <= currentHeight s /\
                currentHeight s - n <= maxRollbackBlocks config /\
                Routes.sent rep = Routes.Success n /\
                run (rollback config n) s = (Ok tt, s')) \/
     (Routes.status rep = 400 /\ s' = s /\
      exists e, Routes.sent rep = Routes.Failure e /\
                e <> InvalidHeightParameter /\
                (e = SchemaError "Invalid height parameter" \/
                 e = FutureHeight (currentHeight s) (match Js.parseInt height with
                                                     | Some n => n
                                                     | None => 0
                                                     end) \/
                 e = ExcessiveRollback (maxRollbackBlocks config) (currentHeight s)
                       (match Js.parseInt height with
                        | Some n => n
                        | None => 0
                        end)))).
Proof.
  rewrite run_post_rollback.
  destruct (validateRollbackHeight_cases height) as [[n [Hp [Hn ->]]] | ->].
  - rewrite run_rollback, Hp.
    replace (n <? 0) with false by (symmetry; apply Z.ltb_ge; exact Hn).
    destruct (currentHeight s <? n) eqn:E1.
    { eexists; eexists; split; [reflexivity|]. right.
      split; [reflexivity|]. split; [reflexivity|].
      eexists; split; [reflexivity|]. split; [discriminate|]. auto. }
    destruct (maxRollbackBlocks config <? currentHeight s - n) eqn:E2.
    { eexists; eexists; split; [reflexivity|]. right.
      split; [reflexivity|]. split; [reflexivity|].
      eexists; split; [reflexivity|]. split; [discriminate|]. auto. }
    apply Z.ltb_ge in E1, E2.
    eexists; eexists; split; [reflexivity|]. left.
    split; [reflexivity|]. exists n.
    split; [reflexivity|]. split; [lia|]. split; [exact E2|].
    split; [reflexivity|]. apply rollback_run_ok; lia.
  - eexists; eexists; split; [reflexivity|]. right.
    split; [reflexivity|]. split; [reflexivity|].
    eexists; split; [reflexivity|]. split; [discriminate|]. auto.
Qed.

End Rollback_route.

(* ================================================================== *)
(** * The validated document                                           *)
(* ================================================================== *)

Section Validated_documents.
Import BlockValidator.
Local Open Scope Q_scope.

Lemma validateInputSchema_shape data v :
  validateInputSchema data = Ok v ->
  exists t i, v = Js.Object [("txId"%string, Js.Str t); ("index"%string, Js.Number i)] /\
              t <> EmptyString /\ 0 <= i.
Proof.
  intros H. destruct (@validateInputSchema_ok data v H) as [t [i [H1 [H2 [H3 H4]]]]].
  exists t, i. split; [|auto]. revert H. unfold validateInputSchema.
  destruct (negb (Js.truthy data) || _); [discriminate|].
  destruct (negb (Js.is_type (Js.get data "txId") Js.TString) || _); [discriminate|].
  destruct (negb (Js.is_type (Js.get data "index") Js.TNumber) || _); [discriminate|].
  rewrite H1, H3. intros H. injection H as <-. reflexivity.
Qed.

Lemma validateOutputSchema_accepts a q rest :
  a <> EmptyString -> 0 <= q ->
  validateOutputSchema
    (Js.Object (("address"%string, Js.Str a) :: ("value"%string, Js.Number q) :: rest))
  = Ok (Js.Object [("address"%string, Js.Str a); ("value"%string, Js.Number q)]).
Proof.
  intros Ha Hq. unfold validateOutputSchema. simpl.
  apply String.eqb_neq in Ha. rewrite Ha. simpl.
  unfold Qlt_bool. apply Qle_bool_iff in Hq. rewrite Hq. reflexivity.
Qed.

Lemma validateInputSchema_again data v :
  validateInputSchema data = Ok v -> validateInputSchema v = Ok v.
Proof.
  intros H. destruct (@validateInputSchema_shape data v H) as [t [i [-> [Ht Hi]]]].
  apply validateInputSchema_accepts; assumption.
Qed.

Lemma validateOutputSchema_again data v :
  validateOutputSchema data = Ok v -> validateOutputSchema v = Ok v.
Proof.
  intros H. destruct (@validateOutputSchema_ok data v H) as [a [q [-> [Ha Hq]]]].
  apply validateOutputSchema_accepts; assumption.
Qed.

Lemma map_throw_again f l l' :
  (forall x y, f x = Ok y -> f y = Ok y) ->
  map_throw f l = Ok l' -> map_throw f l' = Ok l'.
Proof.
  intros Hf. revert l'. induction l as [|x l IH]; simpl; intros l' H.
  - injection H as <-. reflexivity.
  - destruct (f x) as [y|e] eqn:E; [|discriminate].
    destruct (map_throw f l) as [ys|e]; [|discriminate].
    injection H as <-. simpl. rewrite (Hf x y E), (IH ys eq_refl). reflexivity.
Qed.

Lemma validateTransactionSchema_again data v :
  validateTransactionSchema data = Ok v -> validateTransactionSchema v = Ok v.
Proof.
  unfold validateTransactionSchema at 1.
  destruct (negb (Js.truthy data) || _); [discriminate|].
  destruct (negb (Js.is_type (Js.get data "id") Js.TString) || _) eqn:E1; [discriminate|].
  destruct (Js.get data "inputs") as [| | | | |ins|]; try discriminate.
  destruct (Js.get data "outputs") as [| | | | |outs|]; try discriminate.
  destruct (map_throw validateInputSchema ins) as [ins'|] eqn:Ei; [|discriminate].
  destruct (map_throw validateOutputSchema outs) as [outs'|] eqn:Eo; [|discriminate].
  intros H. injection H as <-.
  apply string_shape in E1. destruct E1 as [id [-> Hid]].
  unfold validateTransactionSchema. simpl.
  apply String.eqb_neq in Hid. rewrite Hid. simpl.
  rewrite (@map_throw_again validateInputSchema ins ins' validateInputSchema_again Ei).
  rewrite (@map_throw_again validateOutputSchema outs outs' validateOutputSchema_again Eo).
  reflexivity.
Qed.

Lemma validateBlockSchema_again data v :
  validateBlockSchema data = Ok v -> validateBlockSchema v = Ok v.
Proof.
  unfold validateBlockSchema at 1.
  destruct (negb (Js.truthy data) || _); [discriminate|].
  destruct (negb (Js.is_type (Js.get data "id") Js.TString) || _) eqn:E1; [discriminate|].
  destruct (negb (Js.is_type (Js.get data "height") Js.TNumber) || _) eqn:E2;
    [discriminate|].
  destruct (Js.get data "transactions") as [| | | | |txs|]; try discriminate.
  destruct (map_throw validateTransactionSchema txs) as [txs'|] eqn:Et; [|discriminate].
  intros H. injection H as <-.
  apply string_shape in E1. destruct E1 as [id [-> Hid]].
  apply number_shape in E2. destruct E2 as [h [-> Hh]].
  apply validateBlockSchema_accepts; [assumption | assumption|].
  apply (@map_throw_again validateTransactionSchema txs txs'
           validateTransactionSchema_again Et).
Qed.

Lemma map_throw_error f l e :
  (forall x e', f x = Err e' -> exists m, e' = SchemaError m) ->
  map_throw f l = Err e -> exists m, e = SchemaError m.
Proof.
  intros Hf. induction l as [|x l IH]; simpl; [discriminate|].
  destruct (f x) as [y|e'] eqn:E.
  - destruct (map_throw f l) as [ys|e'']; [discriminate|].
    intros H. injection H as <-. apply IH. reflexivity.
  - intros H. injection H as <-. eapply Hf. eassumption.
Qed.

Lemma validateInputSchema_error data e :
  validateInputSchema data = Err e -> exists m, e = SchemaError m.
Proof.
  unfold validateInputSchema.
  repeat match goal with
         | |- context [if ?c then _ else _] => destruct c
         end; intros H; try discriminate; injection H as <-; eauto.
Qed.

Lemma validateOutputSchema_error data e :
  validateOutputSchema data = Err e -> exists m, e = SchemaError m.
Proof.
  unfold validateOutputSchema.
  repeat match goal with
         | |- context [if ?c then _ else _] => destruct c
         end; intros H; try discriminate; injection H as <-; eauto.
Qed.

Lemma validateTransactionSchema_error data e :
  validateTransactionSchema data = Err e -> exists m, e = SchemaError m.
Proof.
  unfold validateTransactionSchema.
  destruct (negb (Js.truthy data) || _); [intros H; injection H as <-; eauto|].
  destruct (negb (Js.is_type (Js.get data "id") Js.TString) || _);
    [intros H; injection H as <-; eauto|].
  destruct (Js.get data "inputs") as [| | | | |ins|];
    try (intros H; injection H as <-; eauto; fail).
  destruct (Js.get data "outputs") as [| | | | |outs|];
    try (intros H; injection H as <-; eauto; fail).
  destruct (map_throw validateInputSchema ins) as [ins'|e1] eqn:Ei.
  - destruct (map_throw validateOutputSchema outs) as [outs'|e2] eqn:Eo; [discriminate|].
    intros H. injection H as <-.
    apply (@map_throw_error validateOutputSchema outs e2 validateOutputSchema_error Eo).
  - intros H. injection H as <-.
    apply (@map_throw_error validateInputSchema ins e1 validateInputSchema_error Ei).
Qed.

Lemma validateBlockSchema_error data e :
  validateBlockSchema data = Err e -> exists m, e = SchemaError m.
Proof.
  unfold validateBlockSchema.
  destruct (negb (Js.truthy data) || _); [intros H; injection H as <-; eauto|].
  destruct (negb (Js.is_type (Js.get data "id") Js.TString) || _);
    [intros H; injection H as <-; eauto|].
  destruct (negb (Js.is_type (Js.get data "height") Js.TNumber) || _);
    [intros H; injection H as <-; eauto|].
  destruct (Js.get data "transactions") as [| | | | |txs|];
    try (intros H; injection H as <-; eauto; fail).
  destruct (map_throw validateTransactionSchema txs) as [txs'|e1] eqn:Et; [discriminate|].
  intros H. injection H as <-.
  apply (@map_throw_error validateTransactionSchema txs e1
           validateTransactionSchema_error Et).
Qed.

(** X12. The document that [validateBlockSchema] returns is a fixed point
    of the validator, and so is that of each of the three validators it
    calls: validating it again returns it unchanged. *)
Theorem X12_validated_document_is_stable (data v : Js.value) :
  (validateBlockSchema data = Ok v -> validateBlockSchema v = Ok v) /\
  (validateTransactionSchema data = Ok v -> validateTransactionSchema v = Ok v) /\
  (validateInputSchema data = Ok v -> validateInputSchema v = Ok v) /\
  (validateOutputSchema data = Ok v -> validateOutputSchema v = Ok v).
Proof.
  split; [apply validateBlockSchema_again|].
  split; [apply validateTransactionSchema_again|].
  split; [apply validateInputSchema_again | apply validateOutputSchema_again].
Qed.

(** X13. Whatever the document, [validateBlockSchema] accepts nothing but
    an object that is not an array, and what it throws is always a
    [ValidationError] without code, answered with status 400, also when
    the fault lies in a nested transaction, input or output. *)
Theorem X13_validator_rejections (data : Js.value) :
  (forall v, validateBlockSchema data = Ok v -> exists props, data = Js.Object props) /\
  (forall e, validateBlockSchema data = Err e ->
     (exists m, e = SchemaError m) /\
     class_of e = ValidationError /\ statusCode e = 400%Z /\ code e = None).
Proof.
  split.
  - intros v H. unfold validateBlockSchema in H.
    destruct data as [| |b|q|str|items|props]; simpl in H; try discriminate.
    + destruct (negb b || true); discriminate.
    + destruct (negb (negb (Qeq_bool q 0)) || true); discriminate.
    + destruct (negb (negb (String.eqb str EmptyString)) || true); discriminate.
    + eauto.
  - intros e H. destruct (@validateBlockSchema_error data e H) as [m ->].
    split; [eauto|]. repeat split.
Qed.

End Validated_documents.

(* ================================================================== *)
(** * The apply phase, statement by statement                          *)
(* ================================================================== *)

Section ApplyPhaseIndexed.

Variable b : Block.t.
Variable s0 : Store.

(** As in [apply_phase], with the outputs created so far as one more
    index of [K], and with the positions that the two loops pass on. *)
Variable I0 : Store -> Prop.
Variable J : list Transaction.t -> Store -> Prop.
Variable K : list Transaction.t -> Transaction.t -> list Input -> list Output ->
             Store -> Prop.

Hypothesis step_block : forall s s',
  I0 s -> Sql.insert_block (Block.id b) (Block.height b) s = Ok s' -> J [] s'.

Hypothesis step_transaction : forall done tx s s',
  In tx (Block.transactions b) -> J done s ->
  Sql.insert_transaction (Transaction.id tx) (Block.id b) s = Ok s' ->
  K done tx [] [] s'.

Hypothesis step_input : forall done tx seen inp s,
  In tx (Block.transactions b) -> In inp (Transaction.inputs tx) ->
  K done tx seen [] s ->
  length (filter (Sql.spendable (txId inp) (index inp)) (tbl_outputs s)) <> 0%nat ->
  K done tx (seen ++ [inp]) []
    (fst (Sql.update_spent (Transaction.id tx) (Z.of_nat (length seen))
            (txId inp) (index inp) s)).

Hypothesis step_output : forall done tx made o s s',
  In tx (Block.transactions b) -> In o (Transaction.outputs tx) ->
  K done tx (Transaction.inputs tx) made s ->
  Sql.insert_output (Transaction.id tx) (Z.of_nat (length made))
    (address o) (value o) s = Ok s' ->
  K done tx (Transaction.inputs tx) (made ++ [o]) s'.

Hypothesis step_done : forall done tx s,
  K done tx (Transaction.inputs tx) (Transaction.outputs tx) s -> J (done ++ [tx]) s.

Lemma processTransaction_indexed done tx :
  In tx (Block.transactions b) ->
  triple (in_tx s0 (J done))
         (processTransaction tx (Block.id b))
         (fun _ => in_tx s0 (J (done ++ [tx])))
         (failing s0 (fun e => class_of e = PlainError)).
Proof.
  intros Htx. unfold processTransaction.
  eapply triple_bind.
  { unfold createTransaction. apply exec_in_tx with (J := K done tx [] []).
    intros s HJ.
    destruct (Sql.insert_transaction (Transaction.id tx) (Block.id b) s) eqn:E.
    - eapply step_transaction; eassumption.
    - eapply insert_transaction_error; eassumption. }
  intros u1. eapply triple_bind.
  { apply (@triple_for_index_prefix _
             (fun pre => in_tx s0 (K done tx pre []))
             (failing s0 (fun e => class_of e = PlainError))).
    intros pre inp post Hl.
    apply mark_in_tx with (s0 := s0) (I := K done tx pre [])
                          (J := K done tx (pre ++ [inp]) [])
                          (E := fun e => class_of e = PlainError).
    - intros s HK Hn. apply step_input; auto.
      rewrite Hl. apply in_elt.
    - reflexivity. }
  intros u2. eapply triple_conseq.
  - apply (@triple_for_index_prefix _
             (fun pre => in_tx s0 (K done tx (Transaction.inputs tx) pre))
             (failing s0 (fun e => class_of e = PlainError))).
    intros pre o post Hl. unfold createOutput.
    apply exec_in_tx. intros s HK.
    destruct (Sql.insert_output (Transaction.id tx) _ (address o) (value o) s) eqn:E.
    + eapply step_output; try eassumption. rewrite Hl. apply in_elt.
    + eapply insert_output_error; eassumption.
  - intros c Hc. exact Hc.
  - intros a c [Hs HK]. split; [assumption|]. eapply step_done; eassumption.
  - intros e c Hc. exact Hc.
Qed.

Lemma apply_phase_indexed :
  triple (in_tx s0 I0)
         (createBlock b ;;
          for_each (Block.transactions b)
            (fun tx => processTransaction tx (Block.id b)) ;;
          query_COMMIT)
         (fun _ c => saved c = None /\ J (Block.transactions b) (db c))
         (failing s0 (fun e => class_of e = PlainError)).
Proof.
  intros c Hc. rewrite <- bind_assoc. revert c Hc.
  eapply triple_bind; [|intros u; apply commit_in_tx].
  eapply triple_bind.
  { unfold createBlock. apply exec_in_tx with (J := J []).
    intros s HI.
    destruct (Sql.insert_block (Block.id b) (Block.height b) s) eqn:E.
    - eapply step_block; eassumption.
    - eapply insert_block_error; eassumption. }
  intros u1.
  apply (@triple_for_each_prefix _ (fun pre => in_tx s0 (J pre))
           (failing s0 (fun e => class_of e = PlainError))).
  intros pre tx post Hl.
  apply processTransaction_indexed. rewrite Hl. apply in_elt.
Qed.

End ApplyPhaseIndexed.

(* ================================================================== *)
(** * The books of an admitted block                                   *)
(* ================================================================== *)

Section Accounts.
Local Open Scope Q_scope.

Variable p : string -> bool.





Lemma NoDup_map_inj {A B} (f : A -> B) (l : list A) x y :
  NoDup (map f l) -> In x l -> In y l -> f x = f y -> x = y.
Proof.
  induction l as [|z l IH]; simpl; intros Hnd Hx Hy Hf; [contradiction|].
  inversion Hnd as [|k ks Hnin Hnd']; subst.
  destruct Hx as [->|Hx], Hy as [->|Hy]; auto.
  - exfalso. apply Hnin. rewrite Hf. apply in_map. exact Hy.
  - exfalso. apply Hnin. rewrite <- Hf. apply in_map. exact Hx.
Qed.




Lemma findOutput_In t i s r :
  findOutput t i s = Some r -> In r (tbl_outputs s) /\ out_key r = (t, i).
Proof.
  unfold findOutput. destruct (filter _ _) as [|x l] eqn:E; [discriminate|].
  intros H. injection H as ->.
  assert (Hin : In r (filter (Sql.output_key t i) (tbl_outputs s)))
    by (rewrite E; left; reflexivity).
  apply filter_In in Hin. destruct Hin as [Hin Hk]. split; [exact Hin|].
  apply output_key_spec. exact Hk.
Qed.





End Accounts.

Section Conservation.
Local Open Scope Q_scope.











End Conservation.

(* ================================================================== *)
(** * The outputs table after an admitted block                        *)
(* ================================================================== *)

Section Posting.
Local Open Scope Z_scope.

Variable s : Store.
Hypothesis Hnd : NoDup (map out_key (tbl_outputs s)).
Hypothesis Hfk : forall o, In o (tbl_outputs s) -> In (OutputRow.tx_id o) (tx_ids s).

Lemma findOutput_unique t i x r :
  NoDup (map out_key (tbl_outputs x)) -> In r (tbl_outputs x) -> out_key r = (t, i) ->
  findOutput t i x = Some r.
Proof.
  intros Hx Hr Hk. unfold findOutput.
  destruct (filter (Sql.output_key t i) (tbl_outputs x)) as [|r' l] eqn:E.
  - assert (Hin : In r (filter (Sql.output_key t i) (tbl_outputs x))).
    { apply filter_In. split; [exact Hr|]. apply output_key_spec. exact Hk. }
    rewrite E in Hin. destruct Hin.
  - assert (Hin : In r' (filter (Sql.output_key t i) (tbl_outputs x)))
      by (rewrite E; left; reflexivity).
    apply filter_In in Hin. destruct Hin as [Hin Hk'].
    apply output_key_spec in Hk'. f_equal.
    apply (@NoDup_map_inj _ _ out_key (tbl_outputs x) r' r Hx Hin Hr). congruence.
Qed.

Lemma set_spent_key sp k r : out_key (Sql.set_spent sp k r) = out_key r.
Proof. reflexivity. Qed.

Lemma In_after_update sp k t i r (l : list OutputRow.t) :
  In r l -> Sql.spendable t i r = false ->
  In r (map (fun x => if Sql.spendable t i x then Sql.set_spent sp k x else x) l).
Proof.
  intros Hr Hsp. apply in_map_iff. exists r. rewrite Hsp. auto.
Qed.

Lemma spent_not_spendable t i r : OutputRow.spent r = true -> Sql.spendable t i r = false.
Proof. intros H. unfold Sql.spendable. rewrite H. apply andb_false_r. Qed.

Lemma carried_outputs ins x x' :
  tbl_outputs x' = tbl_outputs x -> incl (tx_ids x) (tx_ids x') ->
  carried s ins x -> carried s ins x'.
Proof.
  intros Ho Ht [H1 [H2 H3]]. unfold carried. rewrite Ho.
  split; [exact H1|]. split; [|exact H3].
  intros y Hy. apply Ht, H2, Hy.
Qed.

Lemma settled_outputs tx ins outs x x' :
  tbl_outputs x' = tbl_outputs x -> settled s tx ins outs x -> settled s tx ins outs x'.
Proof. unfold settled, marked, created. intros ->. auto. Qed.

Lemma referenced_by_incl ins ins' r :
  incl ins ins' -> referenced_by ins r -> referenced_by ins' r.
Proof. intros Hi [inp [Hin Hk]]. exists inp. auto. Qed.

(** A mark of a key of [s] leaves the rows of a settled transaction. *)
Lemma settled_mark tx ins outs x sp k t i r0 :
  findOutput t i s = Some r0 ->
  settled s tx ins outs x ->
  settled s tx ins outs (fst (Sql.update_spent sp k t i x)).
Proof.
  intros Hfind [Hfresh [Hm Hc]].
  destruct (@findOutput_In t i s r0 Hfind) as [Hr0 Hk0].
  split; [exact Hfresh|]. split.
  - intros n inp Hn. destruct (Hm n inp Hn) as [q0 [Hq0 Hin]].
    exists q0. split; [exact Hq0|]. unfold Sql.update_spent. simpl.
    apply In_after_update; [exact Hin|]. apply spent_not_spendable. reflexivity.
  - intros n o Hn. unfold Sql.update_spent. simpl.
    apply In_after_update; [apply Hc; exact Hn|].
    destruct (Sql.spendable t i (created_row tx n o)) eqn:E; [|reflexivity].
    exfalso. apply Hfresh.
    unfold Sql.spendable in E. apply andb_true_iff in E. destruct E as [E _].
    apply output_key_spec in E. rewrite <- Hk0 in E.
    injection E as E1 E2. rewrite E1. apply Hfk. exact Hr0.
Qed.

Lemma settled_insert tx ins outs x x' t i a v :
  Sql.insert_output t i a v x = Ok x' ->
  settled s tx ins outs x -> settled s tx ins outs x'.
Proof.
  unfold Sql.insert_output.
  destruct (existsb _ _); [discriminate|]. destruct (negb _); [discriminate|].
  intros H. injection H as <-. intros [Hfresh [Hm Hc]].
  split; [exact Hfresh|]. split.
  - intros n inp Hn. destruct (Hm n inp Hn) as [q0 [Hq0 Hin]].
    exists q0. split; [exact Hq0|]. simpl. apply in_or_app. left. exact Hin.
  - intros n o Hn. simpl. apply in_or_app. left. apply Hc. exact Hn.
Qed.

Lemma carried_mark ins x sp k inp r0 :
  carried s ins x ->
  findOutput (txId inp) (index inp) s = Some r0 ->
  length (filter (Sql.spendable (txId inp) (index inp)) (tbl_outputs x)) <> 0%nat ->
  carried s (ins ++ [inp]) (fst (Sql.update_spent sp k (txId inp) (index inp) x)) /\
  In (Sql.set_spent sp k r0)
     (tbl_outputs (fst (Sql.update_spent sp k (txId inp) (index inp) x))).
Proof.
  intros [Hx [Hinc Hrows]] Hfind Hn.
  destruct (@findOutput_In (txId inp) (index inp) s r0 Hfind) as [Hr0 Hk0].
  destruct (filter (Sql.spendable (txId inp) (index inp)) (tbl_outputs x))
    as [|r rs] eqn:E; [contradiction|].
  assert (Hr : In r (filter (Sql.spendable (txId inp) (index inp)) (tbl_outputs x)))
    by (rewrite E; left; reflexivity).
  apply filter_In in Hr. destruct Hr as [Hr Hsp]. pose proof Hsp as Hsp'.
  unfold Sql.spendable in Hsp. apply andb_true_iff in Hsp. destruct Hsp as [Hk Hu].
  apply output_key_spec in Hk. apply negb_true_iff in Hu.
  assert (Heq : r = r0).
  { destruct (Hrows r0 Hr0) as [Hin | [_ [sp' [k' Hin]]]].
    - apply (@NoDup_map_inj _ _ out_key (tbl_outputs x) r r0 Hx Hr Hin). congruence.
    - exfalso.
      assert (r = Sql.set_spent sp' k' r0).
      { apply (@NoDup_map_inj _ _ out_key (tbl_outputs x) _ _ Hx Hr Hin).
        rewrite set_spent_key. congruence. }
      subst r. discriminate. }
  subst r. split.
  - split; [|split].
    + unfold Sql.update_spent. simpl. rewrite out_key_update. exact Hx.
    + exact Hinc.
    + intros q0 Hq0. unfold Sql.update_spent. simpl.
      destruct (Hrows q0 Hq0) as [Hin | [Href [sp' [k' Hin]]]].
      * destruct (Sql.spendable (txId inp) (index inp) q0) eqn:Eq.
        -- right. split.
           ++ exists inp. split; [apply in_or_app; right; left; reflexivity|].
              unfold Sql.spendable in Eq. apply andb_true_iff in Eq.
              destruct Eq as [Eq _]. apply output_key_spec. exact Eq.
           ++ exists sp, k. apply in_map_iff. exists q0. rewrite Eq. auto.
        -- left. apply In_after_update; assumption.
      * right. split.
        -- eapply referenced_by_incl; [|exact Href]. apply incl_appl, incl_refl.
        -- exists sp', k'. apply In_after_update; [exact Hin|].
           apply spent_not_spendable. reflexivity.
  - unfold Sql.update_spent. simpl. apply in_map_iff. exists r0.
    rewrite Hsp'. auto.
Qed.

Lemma carried_insert ins x x' t i a v :
  Sql.insert_output t i a v x = Ok x' ->
  carried s ins x ->
  carried s ins x' /\
  In (OutputRow.make t i a v false None None) (tbl_outputs x').
Proof.
  unfold Sql.insert_output.
  destruct (existsb _ _) eqn:Huq; [discriminate|]. destruct (negb _); [discriminate|].
  intros H. injection H as <-. intros [Hx [Hinc Hrows]]. split.
  - split; [|split].
    + simpl. rewrite map_app. simpl. apply NoDup_snoc; [exact Hx|].
      apply no_key_not_In. exact Huq.
    + exact Hinc.
    + intros q0 Hq0. simpl.
      destruct (Hrows q0 Hq0) as [Hin | [Href [sp' [k' Hin]]]].
      * left. apply in_or_app. left. exact Hin.
      * right. split; [exact Href|]. exists sp', k'. apply in_or_app. left. exact Hin.
  - simpl. apply in_or_app. right. left. reflexivity.
Qed.

Lemma nth_error_snoc {A} (l : list A) (x y : A) (k : nat) :
  nth_error (l ++ [x]) k = Some y ->
  nth_error l k = Some y \/ (k = length l /\ y = x).
Proof.
  intros H. destruct (Nat.lt_ge_cases k (length l)) as [Hlt|Hge].
  - left. rewrite nth_error_app1 in H by exact Hlt. exact H.
  - right. rewrite nth_error_app2 in H by exact Hge.
    destruct (k - length l)%nat as [|n] eqn:E; simpl in H.
    + injection H as <-. split; [lia | reflexivity].
    + destruct n; discriminate.
Qed.

Lemma apply_phase_posted (b : Block.t) :
  (forall inp, In inp (all_inputs b) ->
     exists r0, findOutput (txId inp) (index inp) s = Some r0) ->
  triple (in_tx s (eq s))
         (createBlock b ;;
          for_each (Block.transactions b)
            (fun tx => processTransaction tx (Block.id b)) ;;
          query_COMMIT)
         (fun _ c => saved c = None /\ posted s (Block.transactions b) (db c))
         (failing s (fun e => class_of e = PlainError)).
Proof.
  intros Hval.
  apply (@apply_phase_indexed b s (eq s) (posted s) (posting s)).
  - intros x x' <- Hins. split; [|intros tx []].
    apply (@carried_outputs [] s x').
    + eapply insert_block_outputs; eassumption.
    + revert Hins. unfold Sql.insert_block.
      destruct (_ || _); [discriminate|]. intros H. injection H as <-.
      apply incl_refl.
    + split; [exact Hnd|]. split; [apply incl_refl|]. intros r0 Hr0. left. exact Hr0.
  - intros done tx x x' _ [Hc Hs] Hins.
    assert (Ho : tbl_outputs x' = tbl_outputs x)
      by (eapply insert_transaction_outputs; eassumption).
    revert Hins. unfold Sql.insert_transaction.
    destruct (Sql.mem _ _) eqn:Hm; [discriminate|].
    destruct (negb _); [discriminate|]. intros H. injection H as <-.
    apply mem_false in Hm. split; [|split].
    + rewrite app_nil_r. apply (@carried_outputs _ x _ Ho); [|exact Hc].
      unfold tx_ids. simpl. rewrite map_app. apply incl_appl, incl_refl.
    + intros tx' Htx'. apply (@settled_outputs _ _ _ x _ Ho). apply Hs. exact Htx'.
    + split; [|split].
      * intros Hin. apply Hm. destruct Hc as [_ [Hinc _]]. apply Hinc. exact Hin.
      * intros k inp Hk. destruct k; discriminate.
      * intros k o Hk. destruct k; discriminate.
  - intros done tx seen inp x Htx Hinp [Hc [Hs [Hfresh [Hm Hcr]]]] Hn.
    destruct (Hval inp) as [r0 Hr0].
    { unfold all_inputs. apply in_flat_map. exists tx. auto. }
    destruct (@carried_mark _ x (Transaction.id tx) (Z.of_nat (length seen)) inp r0
                Hc Hr0 Hn) as [Hc' Hin'].
    split; [|split].
    + rewrite app_assoc. exact Hc'.
    + intros tx' Htx'. eapply settled_mark; [exact Hr0 | apply Hs; exact Htx'].
    + destruct (@settled_mark tx seen [] x (Transaction.id tx)
                  (Z.of_nat (length seen)) (txId inp) (index inp) r0 Hr0
                  (conj Hfresh (conj Hm Hcr))) as [_ [Hm' Hcr']].
      split; [exact Hfresh|]. split; [|exact Hcr'].
      intros k inp' Hk. apply nth_error_snoc in Hk.
      destruct Hk as [Hk | [-> ->]]; [apply Hm'; exact Hk|].
      exists r0. split; [exact Hr0 | exact Hin'].
  - intros done tx made o x x' Htx Ho [Hc [Hs Hset]] Hins.
    destruct (@carried_insert _ x x' _ _ _ _ Hins Hc) as [Hc' Hin'].
    split; [exact Hc'|]. split.
    + intros tx' Htx'. eapply settled_insert; [exact Hins | apply Hs; exact Htx'].
    + destruct (@settled_insert tx (Transaction.inputs tx) made x x' _ _ _ _ Hins Hset)
        as [Hfresh [Hm Hcr]].
      split; [exact Hfresh|]. split; [exact Hm|].
      intros k o' Hk. apply nth_error_snoc in Hk.
      destruct Hk as [Hk | [-> ->]]; [apply Hcr; exact Hk | exact Hin'].
  - intros done tx x [Hc [Hs Hset]]. split.
    + rewrite flat_map_app. simpl. rewrite app_nil_r. exact Hc.
    + intros tx' Htx'. apply in_app_or in Htx'.
      destruct Htx' as [Htx' | [<- | []]]; [apply Hs; exact Htx' | exact Hset].
Qed.

Lemma processBlock_posted (s' : Store) (b : Block.t) (u : unit) :
  run (processBlock b) s = (Ok u, s') -> posted s (Block.transactions b) s'.
Proof.
  intros Hrun.
  pose proof (processBlock_cases s b) as Hc. rewrite Hrun in Hc.
  rewrite run_processBlock, Hc in Hrun.
  match type of Hrun with
  | run (try_catch (query_BEGIN ;; ?m) _) s = _ =>
      pose proof (@transaction_unit m s (posted s (Block.transactions b))
                    (fun _ => True)) as H
  end.
  lapply H; clear H.
  - intros H. rewrite Hrun in H. exact H.
  - eapply triple_conseq.
    + apply apply_phase_posted.
      intros inp Hin.
      destruct (@input_fault_none s inp (@admission_ok_inputs s b Hc inp Hin))
        as [row [Hf _]]. eauto.
    + intros c Hc'. exact Hc'.
    + intros a c Hc'. exact Hc'.
    + intros e c [Hs _]. split; [exact Hs | exact I].
Qed.

End Posting.

Section Outputs_after_block.
Local Open Scope Z_scope.

Lemma reachable_posted config s s' b u :
  reachable config s -> run (processBlock b) s = (Ok u, s') ->
  posted s (Block.transactions b) s'.
Proof.
  intros Hr Hrun. pose proof (reachable_Inv Hr) as HI.
  apply (@processBlock_posted s (inv_uq_out HI) (inv_fk_out HI) s' b u Hrun).
Qed.

(** X16. After [processBlock] has admitted a block into a ledger built by
    the service, [getOutput] finds every output of every transaction of
    the block under the id of the transaction and its position, unspent,
    with the address and the value given in the block. *)
Theorem X16_created_outputs (config : Config) (s s' : Store) (b : Block.t) (u : unit) :
  reachable config s ->
  run (processBlock b) s = (Ok u, s') ->
  forall tx k o,
    In tx (Block.transactions b) ->
    nth_error (Transaction.outputs tx) k = Some o ->
    run (getOutput (Transaction.id tx) (Z.of_nat k)) s'
    = (Ok (Some (OutputRow.make (Transaction.id tx) (Z.of_nat k)
                   (address o) (value o) false None None)), s').
Proof.
  intros Hr Hrun tx k o Htx Hk.
  destruct (@reachable_posted config s s' b u Hr Hrun) as [[Hx _] Hs].
  destruct (Hs tx Htx) as [_ [_ Hc]].
  unfold getOutput. rewrite run_pool_query. do 2 f_equal.
  apply findOutput_unique; [exact Hx | apply (Hc k o Hk) | reflexivity].
Qed.

Lemma X16_created_outputs_witness :
  run (getOutput "tx2" 1) ledger2
  = (Ok (Some (OutputRow.make "tx2" 1 "addr3" 60 false None None)), ledger2).
Proof.
  assert (Hin : In (Transaction.make "tx2" [mkInput "tx1" 0]
                      [mkOutput "addr2" 40; mkOutput "addr3" 60])
                   (Block.transactions block2)) by (left; reflexivity).
  exact (@X16_created_outputs defaultConfig ledger1 ledger2 block2 tt
           (ledger1_reachable defaultConfig) block2_admitted _ 1%nat
           (mkOutput "addr3" 60) Hin eq_refl).
Defined.



Lemma consumed_processBlock t i (s s' : Store) (b : Block.t) r :
  consumed t i s -> run (processBlock b) s = (r, s') -> consumed t i s'.
Proof.
  intros Hc Hrun. pose proof (processBlock_cases s b) as Hcases.
  rewrite Hrun in Hcases. destruct r as [u|e]; [|destruct Hcases as [-> _]; exact Hc].
  rewrite run_processBlock, Hcases in Hrun.
  match type of Hrun with
  | run (try_catch (query_BEGIN ;; ?m) _) s = _ =>
      pose proof (@transaction_unit m s (consumed t i) (fun _ => True)) as H
  end.
  lapply H; clear H.
  - intros H. rewrite Hrun in H. exact H.
  - eapply triple_conseq.
    + apply (@apply_phase b s (eq s) (fun _ => consumed t i)
               (fun _ _ _ => consumed t i)).
      * intros x x' <- Hins. apply (@consumed_outputs t i s x'); [|exact Hc].
        eapply insert_block_outputs; eassumption.
      * intros done tx x x' _ HJ Hins. apply (@consumed_outputs t i x x'); [|exact HJ].
        eapply insert_transaction_outputs; eassumption.
      * intros done tx seen inp k x _ _ HK _. apply consumed_after_other_mark. exact HK.
      * intros done tx o k x x' _ _ HK Hins.
        eapply consumed_after_insert; eassumption.
      * intros done tx x HK. exact HK.
    + intros c Hc'. exact Hc'.
    + intros a c Hc'. exact Hc'.
    + intros e c [Hs _]. split; [exact Hs | exact I].
Qed.

Lemma consumed_fault t i s inp :
  consumed t i s -> txId inp = t -> index inp = i ->
  input_fault s inp = Some (DoubleSpend t i).
Proof.
  intros [[r [Hr Hk]] Hall] <- <-. unfold input_fault, findOutput.
  destruct (filter (Sql.output_key (txId inp) (index inp)) (tbl_outputs s))
    as [|row rest] eqn:E.
  - assert (Hin : In r (filter (Sql.output_key (txId inp) (index inp)) (tbl_outputs s)))
      by (apply filter_In; auto).
    rewrite E in Hin. destruct Hin.
  - assert (Hin : In row (filter (Sql.output_key (txId inp) (index inp)) (tbl_outputs s)))
      by (rewrite E; left; reflexivity).
    apply filter_In in Hin. rewrite (Hall row (proj1 Hin) (proj2 Hin)). reflexivity.
Qed.

(** X18. An output that an admitted block has spent stays spent through
    every further admission: [isOutputSpent] keeps answering [true], and
    none of the blocks admitted afterwards has an input that references
    it. *)
Theorem X18_no_double_spend (s s1 s2 : Store) (b1 : Block.t) (u : unit)
    (bs : list Block.t) :
  run (processBlock b1) s = (Ok u, s1) ->
  admit_all bs s1 = Some s2 ->
  forall inp, In inp (all_inputs b1) ->
    run (isOutputSpent (txId inp) (index inp)) s2 = (Ok true, s2) /\
    forall b inp', In b bs -> In inp' (all_inputs b) ->
      (txId inp', index inp') <> (txId inp, index inp).
Proof.
  intros Hrun Hadm inp Hin.
  pose proof (@processBlock_consumed s s1 b1 u Hrun inp Hin) as Hc.
  clear Hrun. revert s1 Hc Hadm.
  induction bs as [|b bs IH]; intros s1 Hc Hadm; simpl in Hadm.
  - injection Hadm as <-. split; [|intros b inp' []].
    unfold isOutputSpent. rewrite run_pool_query.
    rewrite (@consumed_outputSpent _ _ _ Hc). reflexivity.
  - destruct (run (processBlock b) s1) as [[u'|e] s1'] eqn:Hrun; [|discriminate].
    destruct (IH s1' (@consumed_processBlock _ _ s1 s1' b (Ok u') Hc Hrun) Hadm)
      as [Hsp Hrest].
    split; [exact Hsp|].
    intros b' inp' [<- | Hb'] Hinp'; [|apply (Hrest b' inp' Hb' Hinp')].
    intros Heq. injection Heq as Ht Hi.
    pose proof (processBlock_cases s1 b) as Hcases. rewrite Hrun in Hcases.
    pose proof (@admission_ok_inputs s1 b Hcases inp' Hinp') as Hok.
    rewrite (@consumed_fault _ _ s1 inp' Hc Ht Hi) in Hok. discriminate.
Qed.

Lemma X18_no_double_spend_witness :
  run (isOutputSpent "tx1" 0) ledger3 = (Ok true, ledger3) /\
  forall b inp', In b [block3] -> In inp' (all_inputs b) ->
    (txId inp', index inp') <> ("tx1"%string, 0).
Proof.
  assert (Hadm : admit_all [block3] ledger2 = Some ledger3)
    by (vm_compute; reflexivity).
  assert (Hin : In (mkInput "tx1" 0) (all_inputs block2)) by (left; reflexivity).
  exact (@X18_no_double_spend ledger1 ledger2 ledger3 block2 tt [block3]
           block2_admitted Hadm (mkInput "tx1" 0) Hin).
Defined.

End Outputs_after_block.

Section Outputs_after_rollback.
Local Open Scope Z_scope.





End Outputs_after_rollback.
